(** * shared_ptr.h: reference-counted handles over a heap of control blocks

    A shallow embedding of [src/shared_ptr.h].  The C++ objects are kept in an
    explicit [world]:

    - the free store, a finite map from block identities to [control_block]
      values ([ref], [wref] and the variant that decides what [destroy] does);
    - the [shared_ptr] and [weak_ptr] objects that are alive, by name, each a
      pair [(block, ptr)].  Member functions take the names of [this] and of
      their reference parameters, so that [p = p] and [p = std::move(p)] run
      the very same code with both names equal;
    - how many further allocations [operator new] will satisfy;
    - a trace of the member functions of [control_block] that ran and of the
      disposals they performed.  The trace is ghost state: nothing in the code
      reads it.

    What the model takes for granted:

    - [std::size_t] is 64 bits wide, and its arithmetic wraps around;
    - the disposer of a block (the destructor of the managed value, or the
      caller's deleter) does not throw.  The members of [control_block],
      [shared_ptr] and [weak_ptr] record it as an event and go on, which is
      the code for managed values that hold no handle; the module [nested]
      follows the disposer into the destructor of the managed value, which
      ends the handles that are members of the value;
    - the only exception is the [std::bad_alloc] of [operator new], which
      fails once its budget is used up;
    - a raw pointer is its address, so the conversions between [Y *] and
      [T *] change nothing. *)

From Stdlib Require Import ZArith Lia.
From stdpp Require Import base option list gmap.

Local Open Scope Z_scope.

(** ** Data *)

(** The identity of an allocated control block: the value of a non-null
    [control_block *]. *)
Abbreviation loc := positive (only parsing).

(** A raw object pointer [T *]; [0] is [nullptr]. *)
Abbreviation addr := Z (only parsing).
Definition nullptr : addr := 0.

(** The names of the handle objects of the program and of the deleters that
    it passes in. *)
Abbreviation name := nat (only parsing).
Abbreviation deleter := nat (only parsing).

(** [std::size_t]. *)
Definition size_bits : Z := 64.
Definition SIZE_MAX : Z := 2 ^ size_bits - 1.
Definition wrap (z : Z) : Z := z mod 2 ^ size_bits.

(** The three classes derived from [control_block], with their members. *)
Inductive variant : Type :=
  | default_control_block (obj : addr)
  | regular_control_block (obj : addr) (d : deleter)
  | inplace_control_block.

Record control_block : Type := mk_control_block {
  ref : Z;
  wref : Z;
  derived : variant
}.

(** A [shared_ptr<T>] or a [weak_ptr<T>]: both classes have the same two
    members. *)
Record handle : Type := mk_handle {
  block : option loc;
  ptr : addr
}.

Inductive event : Type :=
  | Inc (b : loc)
  | Dec (b : loc)
  | Winc (b : loc)
  | Wdec (b : loc)
  | Destroy (b : loc)                     (* the virtual call destroy() *)
  | DeleteObj (p : addr)                  (* delete obj *)
  | CallDeleter (d : deleter) (p : addr)  (* deleter(obj) *)
  | Dtor (p : addr)                       (* get_obj()->~T() *)
  | DeleteThis (b : loc).                 (* delete this *)

Record world : Type := mk_world {
  heap : gmap loc control_block;
  shared : gmap name handle;
  weak : gmap name handle;
  avail : nat;
  trace : list event
}.

Global Instance variant_eq_dec : EqDecision variant.
Proof. solve_decision. Defined.
Global Instance control_block_eq_dec : EqDecision control_block.
Proof. solve_decision. Defined.
Global Instance handle_eq_dec : EqDecision handle.
Proof. solve_decision. Defined.
Global Instance event_eq_dec : EqDecision event.
Proof. solve_decision. Defined.

Definition set_ref (z : Z) (cb : control_block) : control_block :=
  mk_control_block z (wref cb) (derived cb).
Definition set_wref (z : Z) (cb : control_block) : control_block :=
  mk_control_block (ref cb) z (derived cb).

Definition set_heap (f : gmap loc control_block → gmap loc control_block)
    (w : world) : world :=
  mk_world (f (heap w)) (shared w) (weak w) (avail w) (trace w).
Definition set_shared (f : gmap name handle → gmap name handle)
    (w : world) : world :=
  mk_world (heap w) (f (shared w)) (weak w) (avail w) (trace w).
Definition set_weak (f : gmap name handle → gmap name handle)
    (w : world) : world :=
  mk_world (heap w) (shared w) (f (weak w)) (avail w) (trace w).
Definition set_avail (n : nat) (w : world) : world :=
  mk_world (heap w) (shared w) (weak w) n (trace w).
Definition set_trace (f : list event → list event) (w : world) : world :=
  mk_world (heap w) (shared w) (weak w) (avail w) (f (trace w)).

(** ** Control flow

    A call returns normally, leaves by a [std::bad_alloc] in flight, ends the
    program in [std::terminate], or has undefined behaviour (an access through
    a pointer to a block that is not allocated, or to a handle that is not
    alive). *)
Inductive outcome (A : Type) : Type :=
  | Ok (a : A) (w : world)
  | Throw (w : world)
  | Terminate
  | UB.
Arguments Ok {A} a w.
Arguments Throw {A} w.
Arguments Terminate {A}.
Arguments UB {A}.

Definition M (A : Type) : Type := world → outcome A.

Global Instance M_ret : MRet M := λ A a w, Ok a w.
Global Instance M_bind : MBind M := λ A B f m w,
  match m w with
  | Ok a w' => f a w'
  | Throw w' => Throw w'
  | Terminate => Terminate
  | UB => UB
  end.

(** [throw;] and [try { body } catch (...) { handler }]. *)
Definition throw {A} : M A := λ w, Throw w.
Definition try_catch {A} (body handler : M A) : M A := λ w,
  match body w with
  | Throw w' => handler w'
  | r => r
  end.

(** A function declared [noexcept]: an exception that reaches its boundary
    calls [std::terminate]. *)
Definition noexcept {A} (body : M A) : M A := λ w,
  match body w with
  | Throw _ => Terminate
  | r => r
  end.

Definition modify (f : world → world) : M unit := λ w, Ok tt (f w).

Definition emit (e : event) : M unit :=
  modify (set_trace (λ t, t ++ [e])).

(** Reading and writing the members of the block [b] points to. *)
Definition load (b : loc) : M control_block := λ w,
  match heap w !! b with
  | Some cb => Ok cb w
  | None => UB
  end.
Definition store (b : loc) (cb : control_block) : M unit := λ w,
  match heap w !! b with
  | Some _ => Ok tt (set_heap (insert b cb) w)
  | None => UB
  end.

(** [new C(...)]: the allocation either fails with [std::bad_alloc] or yields
    a block that is not allocated yet, holding the constructed value. *)
Definition operator_new (cb : control_block) : M loc := λ w,
  match avail w with
  | O => Throw w
  | S n =>
      let b := fresh (dom (heap w)) in
      Ok b (set_avail n (set_heap (insert b cb) w))
  end.

(** [delete this]. *)
Definition delete_this (b : loc) : M unit := λ w,
  match heap w !! b with
  | Some _ => Ok tt (set_trace (λ t, t ++ [DeleteThis b]) (set_heap (delete b) w))
  | None => UB
  end.

(** The storage embedded in an in-place block: [get_obj()]. *)
Definition get_obj (b : loc) : addr := Z.pos b.

(** ** class control_block *)
Module control_block.

(** [std::size_t ref = 1; std::size_t wref = 0;] *)
Definition init (v : variant) : control_block := mk_control_block 1 0 v.

(** [virtual void destroy(void)], as the three derived classes override it.
    [delete obj] is recorded with its operand, also when that is null. *)
Definition destroy (b : loc) : M unit :=
  cb ← load b;
  emit (Destroy b);;
  match derived cb with
  | default_control_block obj => emit (DeleteObj obj)
  | regular_control_block obj d =>
      if decide (obj ≠ nullptr) then emit (CallDeleter d obj) else mret tt
  | inplace_control_block => emit (Dtor (get_obj b))
  end.

(** [void inc(void) noexcept { ref++; }] *)
Definition inc (b : loc) : M unit :=
  noexcept (
    cb ← load b;
    emit (Inc b);;
    store b (set_ref (wrap (ref cb + 1)) cb)).

(** [void dec(void)] *)
Definition dec (b : loc) : M unit :=
  cb ← load b;
  emit (Dec b);;
  store b (set_ref (wrap (ref cb - 1)) cb);;
  cb ← load b;
  if decide (ref cb ≠ 0) then mret tt
  else
    destroy b;;
    cb ← load b;
    if decide (wref cb = 0) then delete_this b else mret tt.

(** [std::size_t use_count(void) const noexcept { return ref; }] *)
Definition use_count (b : loc) : M Z :=
  noexcept (cb ← load b; mret (ref cb)).

(** [void winc(void) noexcept { wref++; }] *)
Definition winc (b : loc) : M unit :=
  noexcept (
    cb ← load b;
    emit (Winc b);;
    store b (set_wref (wrap (wref cb + 1)) cb)).

(** [void wdec(void) { if (--wref == 0 && ref == 0) delete this; }] *)
Definition wdec (b : loc) : M unit :=
  cb ← load b;
  emit (Wdec b);;
  store b (set_wref (wrap (wref cb - 1)) cb);;
  cb ← load b;
  if decide (wref cb = 0 ∧ ref cb = 0) then delete_this b else mret tt.

End control_block.

(** ** class shared_ptr

    A constructor returns the object it builds; [declare] gives it a name.
    The [const] member functions take the value of [*this]; the others take
    the name of [this] and the names of the handles they are passed by
    reference. *)
Module shared_ptr.

Definition field {A} (f : handle → A) (x : name) : M A := λ w,
  match shared w !! x with
  | Some h => Ok (f h) w
  | None => UB
  end.
Definition set_block (x : name) (b : option loc) : M unit := λ w,
  match shared w !! x with
  | Some h => Ok tt (set_shared (insert x (mk_handle b (ptr h))) w)
  | None => UB
  end.
Definition set_ptr (x : name) (p : addr) : M unit := λ w,
  match shared w !! x with
  | Some h => Ok tt (set_shared (insert x (mk_handle (block h) p)) w)
  | None => UB
  end.

(** [shared_ptr<T> x(...)] and the end of [x]'s storage. *)
Definition declare (x : name) (ctor : M handle) : M unit :=
  h ← ctor; modify (set_shared (insert x h)).
Definition forget (x : name) : M unit :=
  modify (set_shared (delete x)).

(** [void dec(void) { if (block != nullptr) block->dec(); }] *)
Definition dec (this : name) : M unit :=
  b ← field block this;
  match b with
  | Some b => control_block.dec b
  | None => mret tt
  end.

(** [shared_ptr(control_block *b, T *p) noexcept] *)
Definition ctor_block (b : option loc) (p : addr) : M handle :=
  noexcept (mret (mk_handle b p)).

(** [shared_ptr(void) noexcept] *)
Definition ctor_default : M handle :=
  noexcept (mret (mk_handle None nullptr)).

(** [shared_ptr(std::nullptr_t) noexcept : shared_ptr()] *)
Definition ctor_nullptr : M handle :=
  noexcept ctor_default.

(** [explicit shared_ptr(Y *ptr) noexcept] *)
Definition ctor_ptr (p : addr) : M handle :=
  noexcept (
    b ← operator_new (control_block.init (default_control_block p));
    mret (mk_handle (Some b) p)).

(** [shared_ptr(const shared_ptr<Y> &s, T *al) noexcept] *)
Definition ctor_alias (s : name) (al : addr) : M handle :=
  noexcept (
    b ← field block s;
    match b with
    | Some b' => control_block.inc b'
    | None => mret tt
    end;;
    mret (mk_handle b al)).

(** [shared_ptr(Y *ptr, D deleter) try : ... catch (...)] *)
Definition ctor_ptr_deleter (p : addr) (d : deleter) : M handle :=
  try_catch
    (b ← operator_new (control_block.init (regular_control_block p d));
     mret (mk_handle (Some b) p))
    (emit (CallDeleter d p);;
     throw).

(** [shared_ptr(const shared_ptr<Y> &r) noexcept] *)
Definition ctor_copy (r : name) : M handle :=
  noexcept (
    b ← field block r;
    p ← field ptr r;
    match b with
    | Some b' => control_block.inc b'
    | None => mret tt
    end;;
    mret (mk_handle b p)).

(** [shared_ptr(shared_ptr<Y> &&r) noexcept] *)
Definition ctor_move (r : name) : M handle :=
  noexcept (
    b ← field block r;
    p ← field ptr r;
    set_block r None;;
    set_ptr r nullptr;;
    mret (mk_handle b p)).

(** [shared_ptr & assign(shared_ptr<Y> &&r)] *)
Definition assign_move (this r : name) : M unit :=
  tb ← field block this;
  rb ← field block r;
  if decide (tb = rb) then
    rp ← field ptr r;
    set_ptr this rp
  else
    dec this;;
    rb ← field block r;
    set_block this rb;;
    rp ← field ptr r;
    set_ptr this rp;;
    set_block r None;;
    set_ptr r nullptr.

(** [shared_ptr & assign(const shared_ptr<Y> &r)] *)
Definition assign_copy (this r : name) : M unit :=
  old ← field block this;
  rb ← field block r;
  set_block this rb;;
  b ← field block this;
  match b with
  | Some b' => control_block.inc b'
  | None => mret tt
  end;;
  rp ← field ptr r;
  set_ptr this rp;;
  match old with
  | Some old' => control_block.dec old'
  | None => mret tt
  end.

(** [~shared_ptr(void)] *)
Definition dtor (this : name) : M unit :=
  dec this;;
  forget this.

(** [T * get(void) const noexcept] *)
Definition get (this : handle) : addr := ptr this.

(** [operator bool(void) const noexcept { return !!ptr; }] *)
Definition operator_bool (this : handle) : bool :=
  negb (ptr this =? nullptr).

(** [std::size_t use_count(void) const noexcept] *)
Definition use_count (this : handle) : M Z :=
  noexcept (
    match block this with
    | None => mret 0
    | Some b => control_block.use_count b
    end).

(** [void reset(void)] *)
Definition reset (this : name) : M unit :=
  dec this;;
  set_block this None;;
  set_ptr this nullptr.

(** [void reset(Y *r)] *)
Definition reset_ptr (this : name) (r : addr) : M unit :=
  dec this;;
  b ← operator_new (control_block.init (default_control_block r));
  set_block this (Some b);;
  set_ptr this r.

(** [void reset(Y *r, D deleter)] *)
Definition reset_ptr_deleter (this : name) (r : addr) (d : deleter) : M unit :=
  dec this;;
  try_catch
    (set_block this None;;
     set_ptr this nullptr;;
     b ← operator_new (control_block.init (regular_control_block r d));
     set_block this (Some b);;
     set_ptr this r)
    (emit (CallDeleter d r);;
     throw).

(** [operator==] on two handles, and on a handle and [nullptr]. *)
Definition operator_eq (t y : handle) : bool := get t =? get y.
Definition operator_eq_nullptr (t : handle) : bool := get t =? nullptr.
Definition operator_eq_raw (t : handle) (y : addr) : bool := get t =? y.
Definition operator_ne (t y : handle) : bool := negb (operator_eq t y).
Definition operator_ne_nullptr (t : handle) : bool :=
  negb (operator_eq_nullptr t).

End shared_ptr.

(** [shared_ptr<T> make_shared(A &&...args)] *)
Definition make_shared : M handle :=
  cb ← operator_new (control_block.init inplace_control_block);
  shared_ptr.ctor_block (Some cb) (get_obj cb).

(** ** class weak_ptr *)
Module weak_ptr.

Definition field {A} (f : handle → A) (x : name) : M A := λ w,
  match weak w !! x with
  | Some h => Ok (f h) w
  | None => UB
  end.
Definition set_block (x : name) (b : option loc) : M unit := λ w,
  match weak w !! x with
  | Some h => Ok tt (set_weak (insert x (mk_handle b (ptr h))) w)
  | None => UB
  end.
Definition set_ptr (x : name) (p : addr) : M unit := λ w,
  match weak w !! x with
  | Some h => Ok tt (set_weak (insert x (mk_handle (block h) p)) w)
  | None => UB
  end.

Definition declare (x : name) (ctor : M handle) : M unit :=
  h ← ctor; modify (set_weak (insert x h)).
Definition forget (x : name) : M unit :=
  modify (set_weak (delete x)).

(** [void wdec(void) { if (block != nullptr) block->wdec(); }] *)
Definition wdec (this : name) : M unit :=
  b ← field block this;
  match b with
  | Some b => control_block.wdec b
  | None => mret tt
  end.

(** [weak_ptr(void) noexcept] *)
Definition ctor_default : M handle :=
  noexcept (mret (mk_handle None nullptr)).

(** [weak_ptr(std::nullptr_t) noexcept : weak_ptr()] *)
Definition ctor_nullptr : M handle :=
  noexcept ctor_default.

(** [weak_ptr(const shared_ptr<Y> &t)] *)
Definition ctor_shared (t : name) : M handle :=
  b ← shared_ptr.field block t;
  p ← shared_ptr.field ptr t;
  match b with
  | Some b' => control_block.winc b'
  | None => mret tt
  end;;
  mret (mk_handle b p).

(** [weak_ptr(const weak_ptr<Y> &r) noexcept] *)
Definition ctor_copy (r : name) : M handle :=
  noexcept (
    b ← field block r;
    p ← field ptr r;
    match b with
    | Some b' => control_block.winc b'
    | None => mret tt
    end;;
    mret (mk_handle b p)).

(** [weak_ptr(weak_ptr<Y> &&r) noexcept] *)
Definition ctor_move (r : name) : M handle :=
  noexcept (
    b ← field block r;
    p ← field ptr r;
    set_block r None;;
    set_ptr r nullptr;;
    mret (mk_handle b p)).

(** [weak_ptr & assign(weak_ptr<Y> &&r)] *)
Definition assign_move (this r : name) : M unit :=
  tb ← field block this;
  rb ← field block r;
  if decide (tb = rb) then
    rp ← field ptr r;
    set_ptr this rp
  else
    wdec this;;
    rb ← field block r;
    set_block this rb;;
    rp ← field ptr r;
    set_ptr this rp;;
    set_block r None;;
    set_ptr r nullptr.

(** [weak_ptr & assign(const weak_ptr<Y> &r)] *)
Definition assign_copy (this r : name) : M unit :=
  old ← field block this;
  rb ← field block r;
  set_block this rb;;
  b ← field block this;
  match b with
  | Some b' => control_block.winc b'
  | None => mret tt
  end;;
  rp ← field ptr r;
  set_ptr this rp;;
  match old with
  | Some old' => control_block.wdec old'
  | None => mret tt
  end.

(** [~weak_ptr(void)] *)
Definition dtor (this : name) : M unit :=
  b ← field block this;
  match b with
  | Some b' => control_block.wdec b'
  | None => mret tt
  end;;
  forget this.

(** [shared_ptr<T> lock(void) const noexcept] *)
Definition lock (this : handle) : M handle :=
  noexcept (
    match block this with
    | None => shared_ptr.ctor_nullptr
    | Some b =>
        n ← control_block.use_count b;
        if decide (n = 0) then shared_ptr.ctor_nullptr
        else
          control_block.inc b;;
          shared_ptr.ctor_block (Some b) (ptr this)
    end).

End weak_ptr.

(** ** Notions the properties are stated with *)

(** What [destroy] of each variant does to the managed value. *)
Definition disposal (b : loc) (v : variant) : list event :=
  match v with
  | default_control_block obj => [DeleteObj obj]
  | regular_control_block obj d =>
      if decide (obj ≠ nullptr) then [CallDeleter d obj] else []
  | inplace_control_block => [Dtor (get_obj b)]
  end.

(** A handle is in use when the block it holds, if any, is allocated and
    counts the handle: [count] is [ref] for a [shared_ptr] and [wref] for a
    [weak_ptr]. *)
Definition owns (count : control_block → Z) (w : world) (h : handle) : Prop :=
  match block h with
  | None => True
  | Some b => ∃ cb, heap w !! b = Some cb ∧ 0 < count cb ≤ SIZE_MAX
  end.

(** The events that end the life of a managed value or of a block. *)
Definition is_disposal (e : event) : bool :=
  match e with
  | Destroy _ | DeleteObj _ | CallDeleter _ _ | Dtor _ | DeleteThis _ => true
  | Inc _ | Dec _ | Winc _ | Wdec _ => false
  end.

(** What a program can observe of a world: the blocks with their counts, the
    handles with their addresses, and which values and blocks were disposed
    of. *)
Definition observable (w : world) :
    gmap loc control_block * gmap name handle * gmap name handle * list event :=
  (heap w, shared w, weak w, List.filter is_disposal (trace w)).

(** *** The life of one control block *)

(** The four counting members, as a handle may call them on its block. *)
Inductive op : Type := op_inc | op_dec | op_winc | op_wdec.

Global Instance op_eq_dec : EqDecision op.
Proof. solve_decision. Defined.

Definition apply_op (b : loc) (o : op) : M unit :=
  match o with
  | op_inc => control_block.inc b
  | op_dec => control_block.dec b
  | op_winc => control_block.winc b
  | op_wdec => control_block.wdec b
  end.

(** Live: allocated with a strong count above 0.  Expiring: allocated with
    the strong count at 0.  Gone: deallocated. *)
Inductive liveness : Type := Live | Expiring | Gone.

Definition liveness_of (b : loc) (w : world) : liveness :=
  match heap w !! b with
  | None => Gone
  | Some cb => if decide (ref cb = 0) then Expiring else Live
  end.

(** How often the value managed by [b] was disposed of, and how often the
    storage of [b] was given back. *)
Definition destroyed (b : loc) (w : world) : nat :=
  count_occ event_eq_dec (trace w) (Destroy b).
Definition freed (b : loc) (w : world) : nat :=
  count_occ event_eq_dec (trace w) (DeleteThis b).

(** The disposals and the deallocations that the state of a block accounts
    for: one disposal once it is not live, one deallocation once it is
    gone. *)
Definition dead (b : loc) (w : world) : nat :=
  match liveness_of b w with Live => 0 | Expiring | Gone => 1 end.
Definition gone (b : loc) (w : world) : nat :=
  match liveness_of b w with Live | Expiring => 0 | Gone => 1 end.

(** The discipline of the handles: a strong reference is copied or dropped
    only by a handle that holds one, a weak reference is dropped only by a
    handle that holds one, and no counter runs over. *)
Definition permitted (o : op) (cb : control_block) : bool :=
  match o with
  | op_inc => bool_decide (0 < ref cb < SIZE_MAX)
  | op_dec => bool_decide (0 < ref cb)
  | op_winc => bool_decide (wref cb < SIZE_MAX)
  | op_wdec => bool_decide (0 < wref cb)
  end.

(** The strong and the weak count that [o] leaves, as integers. *)
Definition after (o : op) (cb : control_block) : Z * Z :=
  match o with
  | op_inc => (ref cb + 1, wref cb)
  | op_dec => (ref cb - 1, wref cb)
  | op_winc => (ref cb, wref cb + 1)
  | op_wdec => (ref cb, wref cb - 1)
  end.

(** What the operation [o] did when it took the block from the state [cb] in
    [w1] to the world [w2]: it disposed of the managed value exactly if it
    took the strong count from 1 to 0, it gave back the storage exactly if it
    left both counts at 0, and it did not bring the block back to life. *)
Definition instant (b : loc) (o : op) (cb : control_block)
    (w1 w2 : world) : Prop :=
  destroyed b w2
    = (destroyed b w1
       + if bool_decide (ref cb = 1 ∧ fst (after o cb) = 0)%Z then 1 else 0)%nat
  ∧ freed b w2
    = (freed b w1 + if bool_decide (after o cb = (0, 0)%Z) then 1 else 0)%nat
  ∧ (liveness_of b w2 = Gone ↔ after o cb = (0, 0))
  ∧ (liveness_of b w1 ≠ Live → liveness_of b w2 ≠ Live).

(** The counts of an allocated block that handles refer to. *)
Definition in_use (cb : control_block) : Prop :=
  0 ≤ ref cb ≤ SIZE_MAX ∧ 0 ≤ wref cb ≤ SIZE_MAX ∧ (0 < ref cb ∨ 0 < wref cb).

(** ** Worlds used by the examples *)

(** Nothing allocated, no handle alive, three allocations to go. *)
Definition w_start : world := mk_world ∅ ∅ ∅ 3 [].

(** The same with the free store exhausted. *)
Definition w_oom : world := mk_world ∅ ∅ ∅ 0 [].

(** One empty [shared_ptr], named [0]. *)
Definition w_empty_handle : world :=
  mk_world ∅ {[ 0%nat := mk_handle None nullptr ]} ∅ 0 [].

(** One block that manages the object at address 10.  It is held by the
    [shared_ptr] 0, by the [shared_ptr] 1 that aliases it with the address
    20, and by a [weak_ptr] made from each. *)
Definition w_aliased : world :=
  mk_world
    {[ 1%positive := mk_control_block 2 2 (default_control_block 10) ]}
    {[ 0%nat := mk_handle (Some 1%positive) 10;
       1%nat := mk_handle (Some 1%positive) 20 ]}
    {[ 0%nat := mk_handle (Some 1%positive) 10;
       1%nat := mk_handle (Some 1%positive) 20 ]}
    0 [].

(** One block whose last owner is gone, still observed by the [weak_ptr] 0. *)
Definition w_expired : world :=
  mk_world
    {[ 1%positive := mk_control_block 0 1 (default_control_block 10) ]}
    ∅
    {[ 0%nat := mk_handle (Some 1%positive) 10 ]}
    0 [].

(** One block just created for the object at address 10. *)
Definition w_created : world :=
  mk_world
    {[ 1%positive := control_block.init (default_control_block 10) ]}
    ∅ ∅ 0 [].

(** The [shared_ptr] 0 is the only owner of a block, nothing observes it, and
    the next allocation fails. *)
Definition w_sole_owner : world :=
  mk_world
    {[ 1%positive := control_block.init (default_control_block 10) ]}
    {[ 0%nat := mk_handle (Some 1%positive) 10 ]}
    ∅ 0 [].

(** ** Consistent worlds *)

(** The state of the free store after [control_block::dec] and after
    [control_block::wdec] ran on the block [b] found in the state [cb], and
    what these calls add to the trace. *)
Definition heap_dec (b : loc) (cb : control_block)
    (h : gmap loc control_block) : gmap loc control_block :=
  if decide (ref cb = 1) then
    if decide (wref cb = 0) then delete b h else <[ b := set_ref 0 cb ]> h
  else <[ b := set_ref (ref cb - 1) cb ]> h.

Definition trace_dec (b : loc) (cb : control_block) : list event :=
  if decide (ref cb = 1) then
    Dec b :: Destroy b :: disposal b (derived cb)
      ++ (if decide (wref cb = 0) then [DeleteThis b] else [])
  else [Dec b].

Definition heap_wdec (b : loc) (cb : control_block)
    (h : gmap loc control_block) : gmap loc control_block :=
  if decide (wref cb = 1 ∧ ref cb = 0) then delete b h
  else <[ b := set_wref (wref cb - 1) cb ]> h.

Definition trace_wdec (b : loc) (cb : control_block) : list event :=
  if decide (wref cb = 1 ∧ ref cb = 0) then [Wdec b; DeleteThis b]
  else [Wdec b].

(** The number of handles of the store [m] that hold the block [b]. *)
Definition holders (b : loc) (m : gmap name handle) : nat :=
  size (filter (λ kv : name * handle, block kv.2 = Some b) m).

(** What the entry of one name adds to that number. *)
Definition held (b : loc) (o : option handle) : nat :=
  match o with
  | Some h => if decide (block h = Some b) then 1 else 0
  | None => 0
  end.

(** The name [x] holds no block in the store [m]: it is free, or it names a
    handle whose block reference is null. *)
Definition vacant (m : gmap name handle) (x : name) : Prop :=
  ∀ h, m !! x = Some h → block h = None.

(** A free store and two stores of handles agree when every allocated block
    counts exactly the handles that hold it, is held by some handle, has its
    counts within [std::size_t], and every handle that holds a block holds
    an allocated one. *)
Definition sound (H : gmap loc control_block) (S W : gmap name handle) : Prop :=
  (∀ b cb, H !! b = Some cb →
     ref cb = Z.of_nat (holders b S)
     ∧ wref cb = Z.of_nat (holders b W)
     ∧ (0 < ref cb ∨ 0 < wref cb)
     ∧ ref cb ≤ SIZE_MAX ∧ wref cb ≤ SIZE_MAX)
  ∧ (∀ x h b, S !! x = Some h → block h = Some b → is_Some (H !! b))
  ∧ (∀ x h b, W !! x = Some h → block h = Some b → is_Some (H !! b)).

Definition consistent (w : world) : Prop :=
  sound (heap w) (shared w) (weak w).

(** The free store after [if (block != nullptr) block->inc();] and after
    [if (block != nullptr) block->dec();] for a block reference [ob], and the
    same for [winc] and [wdec]. *)
Definition acquire (ob : option loc)
    (H : gmap loc control_block) : gmap loc control_block :=
  match ob with
  | None => H
  | Some b =>
      match H !! b with
      | Some cb => <[ b := set_ref (ref cb + 1) cb ]> H
      | None => H
      end
  end.

Definition release (ob : option loc)
    (H : gmap loc control_block) : gmap loc control_block :=
  match ob with
  | None => H
  | Some b =>
      match H !! b with
      | Some cb => heap_dec b cb H
      | None => H
      end
  end.

Definition wacquire (ob : option loc)
    (H : gmap loc control_block) : gmap loc control_block :=
  match ob with
  | None => H
  | Some b =>
      match H !! b with
      | Some cb => <[ b := set_wref (wref cb + 1) cb ]> H
      | None => H
      end
  end.

Definition wrelease (ob : option loc)
    (H : gmap loc control_block) : gmap loc control_block :=
  match ob with
  | None => H
  | Some b =>
      match H !! b with
      | Some cb => heap_wdec b cb H
      | None => H
      end
  end.

(** The block reference that the name [x] holds in the store [m]. *)
Definition held_block (m : gmap name handle) (x : name) : option loc :=
  m !! x ≫= block.

(** ** Programs over the handles

    The statements a caller writes with named handles, each with the member
    function it runs. *)
Inductive call : Type :=
  | shared_default (x : name)                       (* shared_ptr<T> x; *)
  | shared_null (x : name)                          (* shared_ptr<T> x(nullptr); *)
  | shared_from_ptr (x : name) (p : addr)           (* shared_ptr<T> x(p); *)
  | shared_from_ptr_deleter (x : name) (p : addr) (d : deleter)
  | shared_make (x : name)                          (* auto x = make_shared<T>(...); *)
  | shared_alias (x s : name) (a : addr)            (* shared_ptr<T> x(s, a); *)
  | shared_copy (x r : name)                        (* shared_ptr<T> x(r); *)
  | shared_move (x r : name)                        (* shared_ptr<T> x(std::move(r)); *)
  | shared_assign (x r : name)                      (* x = r; *)
  | shared_move_assign (x r : name)                 (* x = std::move(r); *)
  | shared_reset (x : name)                         (* x.reset(); *)
  | shared_reset_ptr (x : name) (p : addr)          (* x.reset(p); *)
  | shared_reset_ptr_deleter (x : name) (p : addr) (d : deleter)
  | shared_end (x : name)                           (* x goes out of scope *)
  | weak_default (x : name)                         (* weak_ptr<T> x; *)
  | weak_null (x : name)                            (* weak_ptr<T> x(nullptr); *)
  | weak_from_shared (x t : name)                   (* weak_ptr<T> x(t); *)
  | weak_copy (x r : name)                          (* weak_ptr<T> x(r); *)
  | weak_move (x r : name)                          (* weak_ptr<T> x(std::move(r)); *)
  | weak_assign (x r : name)                        (* x = r; *)
  | weak_move_assign (x r : name)                   (* x = std::move(r); *)
  | weak_end (x : name)                             (* x goes out of scope *)
  | weak_lock (x q : name).                         (* shared_ptr<T> x = q.lock(); *)

Definition exec (c : call) : M unit :=
  match c with
  | shared_default x => shared_ptr.declare x shared_ptr.ctor_default
  | shared_null x => shared_ptr.declare x shared_ptr.ctor_nullptr
  | shared_from_ptr x p => shared_ptr.declare x (shared_ptr.ctor_ptr p)
  | shared_from_ptr_deleter x p d =>
      shared_ptr.declare x (shared_ptr.ctor_ptr_deleter p d)
  | shared_make x => shared_ptr.declare x make_shared
  | shared_alias x s a => shared_ptr.declare x (shared_ptr.ctor_alias s a)
  | shared_copy x r => shared_ptr.declare x (shared_ptr.ctor_copy r)
  | shared_move x r => shared_ptr.declare x (shared_ptr.ctor_move r)
  | shared_assign x r => shared_ptr.assign_copy x r
  | shared_move_assign x r => shared_ptr.assign_move x r
  | shared_reset x => shared_ptr.reset x
  | shared_reset_ptr x p => shared_ptr.reset_ptr x p
  | shared_reset_ptr_deleter x p d => shared_ptr.reset_ptr_deleter x p d
  | shared_end x => shared_ptr.dtor x
  | weak_default x => weak_ptr.declare x weak_ptr.ctor_default
  | weak_null x => weak_ptr.declare x weak_ptr.ctor_nullptr
  | weak_from_shared x t => weak_ptr.declare x (weak_ptr.ctor_shared t)
  | weak_copy x r => weak_ptr.declare x (weak_ptr.ctor_copy r)
  | weak_move x r => weak_ptr.declare x (weak_ptr.ctor_move r)
  | weak_assign x r => weak_ptr.assign_copy x r
  | weak_move_assign x r => weak_ptr.assign_move x r
  | weak_end x => weak_ptr.dtor x
  | weak_lock x q =>
      shared_ptr.declare x (h ← weak_ptr.field id q; weak_ptr.lock h)
  end.

(** What a statement needs of the world it runs in: a declaration introduces
    a name that is not in use, every other handle it mentions is alive, and
    a count that it is going to increment is below [SIZE_MAX]. *)
Definition is_free (m : gmap name handle) (x : name) : bool :=
  bool_decide (m !! x = None).
Definition is_live (m : gmap name handle) (x : name) : bool :=
  bool_decide (is_Some (m !! x)).
Definition has_room (count : control_block → Z) (H : gmap loc control_block)
    (m : gmap name handle) (r : name) : bool :=
  match m !! r with
  | None => false
  | Some h =>
      match block h with
      | None => true
      | Some b =>
          match H !! b with
          | Some cb => bool_decide (count cb < SIZE_MAX)
          | None => true
          end
      end
  end.

Definition ready (c : call) (w : world) : bool :=
  match c with
  | shared_default x | shared_null x | shared_from_ptr x _
  | shared_from_ptr_deleter x _ _ | shared_make x =>
      is_free (shared w) x
  | shared_alias x r _ | shared_copy x r =>
      is_free (shared w) x && has_room ref (heap w) (shared w) r
  | shared_move x r => is_free (shared w) x && is_live (shared w) r
  | shared_assign x r =>
      is_live (shared w) x && has_room ref (heap w) (shared w) r
  | shared_move_assign x r => is_live (shared w) x && is_live (shared w) r
  | shared_reset x | shared_reset_ptr x _ | shared_reset_ptr_deleter x _ _
  | shared_end x =>
      is_live (shared w) x
  | weak_default x | weak_null x => is_free (weak w) x
  | weak_from_shared x t =>
      is_free (weak w) x && has_room wref (heap w) (shared w) t
  | weak_copy x r => is_free (weak w) x && has_room wref (heap w) (weak w) r
  | weak_move x r => is_free (weak w) x && is_live (weak w) r
  | weak_assign x r => is_live (weak w) x && has_room wref (heap w) (weak w) r
  | weak_move_assign x r => is_live (weak w) x && is_live (weak w) r
  | weak_end x => is_live (weak w) x
  | weak_lock x q => is_free (shared w) x && has_room ref (heap w) (weak w) q
  end.

(** A program is a list of statements; it stops at the first one that does
    not return.  The destructors that run while an exception leaves the
    program are not part of it. *)
Fixpoint exec_all (cs : list call) : M unit :=
  match cs with
  | [] => mret tt
  | c :: cs' => exec c;; exec_all cs'
  end.

(** Every statement of the program is ready in the world it runs in. *)
Fixpoint all_ready (cs : list call) (w : world) : bool :=
  match cs with
  | [] => true
  | c :: cs' =>
      ready c w &&
      match exec c w with
      | Ok _ w' => all_ready cs' w'
      | _ => true
      end
  end.

(** The part of a world that consistency is about. *)
Definition state (w : world) :
    gmap loc control_block * gmap name handle * gmap name handle :=
  (heap w, shared w, weak w).

(** The block reference [ob] can take an [inc], a [dec], a [winc] or a
    [wdec] in the free store [H]: it is null, or it points to an allocated
    block whose count neither overflows nor underflows. *)
Definition can_inc (H : gmap loc control_block) (ob : option loc) : Prop :=
  ∀ b, ob = Some b → ∃ cb, H !! b = Some cb ∧ 0 ≤ ref cb < SIZE_MAX.
Definition can_dec (H : gmap loc control_block) (ob : option loc) : Prop :=
  ∀ b, ob = Some b → ∃ cb, H !! b = Some cb ∧ 0 < ref cb ≤ SIZE_MAX.
Definition can_winc (H : gmap loc control_block) (ob : option loc) : Prop :=
  ∀ b, ob = Some b → ∃ cb, H !! b = Some cb ∧ 0 ≤ wref cb < SIZE_MAX.
Definition can_wdec (H : gmap loc control_block) (ob : option loc) : Prop :=
  ∀ b, ob = Some b → ∃ cb, H !! b = Some cb ∧ 0 < wref cb ≤ SIZE_MAX.

(** What is asked of the outcome of a statement: a normal return and an
    exception leave a consistent world, except that nothing is said of the
    world a failed [reset(p)] leaves; only the constructor from a raw pointer
    alone terminates the program; nothing has undefined behaviour. *)
Definition safe (c : call) (r : outcome unit) : Prop :=
  match r with
  | Ok _ w' => consistent w'
  | Throw w' => (∀ x p, c ≠ shared_reset_ptr x p) → consistent w'
  | Terminate => ∃ x p, c = shared_from_ptr x p
  | UB => False
  end.

(** A world with nothing allocated and no handle, with [n] allocations to
    go. *)
Definition w_init (n : nat) : world := mk_world ∅ ∅ ∅ n [].

(** The number of owners that a handle shares its block with, itself
    included. *)
Definition owners (w : world) (h : handle) : Z :=
  match block h with
  | Some b => Z.of_nat (holders b (shared w))
  | None => 0
  end.

(** The program of the test [make_shared_weak_ptr], with a copy of the owner
    and the conversion of [p = q] written out. *)
Definition program_make_shared_weak_ptr : list call :=
  [ weak_default 0; shared_make 0; shared_copy 1 0;
    weak_from_shared 1 1; weak_move_assign 0 1; weak_end 1;
    shared_end 1; shared_end 0; weak_end 0 ].

(** A program that builds the handles of [w_aliased]. *)
Definition program_aliased : list call :=
  [ shared_from_ptr 0 10; shared_alias 1 0 20;
    weak_from_shared 0 0; weak_from_shared 1 1 ].

(** Two blocks, each with its only owner: the [shared_ptr] 0 holds the object
    at address 10, the [shared_ptr] 1 holds the object at address 20 with
    the deleter 5.  One more allocation succeeds. *)
Definition w_two_blocks : world :=
  mk_world
    {[ 1%positive := control_block.init (default_control_block 10);
       2%positive := control_block.init (regular_control_block 20 5) ]}
    {[ 0%nat := mk_handle (Some 1%positive) 10;
       1%nat := mk_handle (Some 2%positive) 20 ]}
    ∅ 1 [].


(** ** Managed values that hold handles

    [control_block::destroy] hands the managed value to its destructor, and
    the value may have handles among its members: a list node holds the
    [shared_ptr] to the next node, an object may hold a [weak_ptr] to
    itself.  The destructor of the value then runs [~shared_ptr] and
    [~weak_ptr] inside [destroy], that is inside [control_block::dec], and
    those handles are gone when it returns.

    The members of [control_block] and of the handles above record the
    disposal and go on: they are the code for managed values whose
    destructors end no handle.  The module [nested] below is the same code
    with the destructor of the managed value followed.  It is given

    - [members obj], the handles that the destructor of the object at [obj]
      ends, in the order in which it ends them (for an implicit destructor,
      the member handles in reverse order of declaration);
    - [deletes d], whether the deleter [d] destroys the object it is called
      with, as [delete] does.

    The destructor of a value can release the last owner of another value,
    whose destructor runs in turn.  [nested.dec] is defined by recursion on
    a bound on the depth of this nesting and answers [None] when the bound
    does not suffice. *)
Inductive member : Type :=
  | shared_member (x : name)
  | weak_member (x : name).

Definition N (A : Type) : Type := world → option (outcome A).

Global Instance N_ret : MRet N := λ A a w, Some (Ok a w).
Global Instance N_bind : MBind N := λ A B f m w,
  match m w with
  | Some (Ok a w') => f a w'
  | Some (Throw w') => Some (Throw w')
  | Some Terminate => Some Terminate
  | Some UB => Some UB
  | None => None
  end.

(** A call that runs no destructor of a managed value. *)
Definition lift {A} (m : M A) : N A := λ w, Some (m w).

(** The object whose destructor [destroy] runs for a block of the variant
    [v], if it runs one: [delete obj] and [deleter(obj)] run none for a null
    pointer. *)
Definition managed_value (deletes : deleter → bool) (b : loc) (v : variant) :
    option addr :=
  match v with
  | default_control_block obj =>
      if decide (obj ≠ nullptr) then Some obj else None
  | regular_control_block obj d =>
      if decide (obj ≠ nullptr) then
        if deletes d then Some obj else None
      else None
  | inplace_control_block => Some (get_obj b)
  end.

Module nested.
Section value.
Variable members : addr → list member.
Variable deletes : deleter → bool.

Section callee.
(** [control_block::dec], as the destructor of a managed value reaches it. *)
Variable block_dec : loc → N unit.

(** [void dec(void) { if (block != nullptr) block->dec(); }] *)
Definition handle_dec (this : name) : N unit :=
  b ← lift (shared_ptr.field block this);
  match b with
  | Some b => block_dec b
  | None => mret tt
  end.

(** [~shared_ptr(void)] *)
Definition handle_dtor (this : name) : N unit :=
  handle_dec this;;
  lift (shared_ptr.forget this).

(** [~T()]: the member handles of the object end one after the other. *)
Definition member_dtor (m : member) : N unit :=
  match m with
  | shared_member x => handle_dtor x
  | weak_member x => lift (weak_ptr.dtor x)
  end.
Fixpoint members_dtor (ms : list member) : N unit :=
  match ms with
  | [] => mret tt
  | m :: ms' => member_dtor m;; members_dtor ms'
  end.
Definition value_dtor (obj : addr) : N unit := members_dtor (members obj).

(** [virtual void destroy(void)]: [delete obj], [deleter(obj)] and
    [get_obj()->~T()]. *)
Definition destroy (b : loc) : N unit :=
  cb ← lift (load b);
  lift (emit (Destroy b));;
  match derived cb with
  | default_control_block obj =>
      lift (emit (DeleteObj obj));;
      if decide (obj ≠ nullptr) then value_dtor obj else mret tt
  | regular_control_block obj d =>
      if decide (obj ≠ nullptr) then
        lift (emit (CallDeleter d obj));;
        if deletes d then value_dtor obj else mret tt
      else mret tt
  | inplace_control_block =>
      lift (emit (Dtor (get_obj b)));;
      value_dtor (get_obj b)
  end.

(** The body of [control_block::dec]. *)
Definition dec_body (b : loc) : N unit :=
  cb ← lift (load b);
  lift (emit (Dec b));;
  lift (store b (set_ref (wrap (ref cb - 1)) cb));;
  cb ← lift (load b);
  if decide (ref cb ≠ 0) then mret tt
  else
    destroy b;;
    cb ← lift (load b);
    if decide (wref cb = 0) then lift (delete_this b) else mret tt.

End callee.

(** [void control_block::dec(void)] *)
Fixpoint dec (depth : nat) (b : loc) : N unit :=
  match depth with
  | O => λ _, None
  | S depth' => dec_body (dec depth') b
  end.

(** [void shared_ptr::dec(void)] *)
Definition shared_dec (depth : nat) (this : name) : N unit :=
  handle_dec (dec depth) this.

(** [~shared_ptr(void)] *)
Definition dtor (depth : nat) (this : name) : N unit :=
  handle_dtor (dec depth) this.

(** [shared_ptr & assign(shared_ptr<Y> &&r)] *)
Definition assign_move (depth : nat) (this r : name) : N unit :=
  tb ← lift (shared_ptr.field block this);
  rb ← lift (shared_ptr.field block r);
  if decide (tb = rb) then
    rp ← lift (shared_ptr.field ptr r);
    lift (shared_ptr.set_ptr this rp)
  else
    shared_dec depth this;;
    rb ← lift (shared_ptr.field block r);
    lift (shared_ptr.set_block this rb);;
    rp ← lift (shared_ptr.field ptr r);
    lift (shared_ptr.set_ptr this rp);;
    lift (shared_ptr.set_block r None);;
    lift (shared_ptr.set_ptr r nullptr).

(** [shared_ptr & assign(const shared_ptr<Y> &r)] *)
Definition assign_copy (depth : nat) (this r : name) : N unit :=
  old ← lift (shared_ptr.field block this);
  rb ← lift (shared_ptr.field block r);
  lift (shared_ptr.set_block this rb);;
  b ← lift (shared_ptr.field block this);
  lift (match b with
        | Some b' => control_block.inc b'
        | None => mret tt
        end);;
  rp ← lift (shared_ptr.field ptr r);
  lift (shared_ptr.set_ptr this rp);;
  match old with
  | Some old' => dec depth old'
  | None => mret tt
  end.

(** [void reset(void)] *)
Definition reset (depth : nat) (this : name) : N unit :=
  shared_dec depth this;;
  lift (shared_ptr.set_block this None);;
  lift (shared_ptr.set_ptr this nullptr).

(** [void reset(Y *r)] *)
Definition reset_ptr (depth : nat) (this : name) (r : addr) : N unit :=
  shared_dec depth this;;
  b ← lift (operator_new (control_block.init (default_control_block r)));
  lift (shared_ptr.set_block this (Some b));;
  lift (shared_ptr.set_ptr this r).

(** [void reset(Y *r, D deleter)]: nothing in the [try] block releases a
    block. *)
Definition reset_ptr_deleter (depth : nat) (this : name) (r : addr)
    (d : deleter) : N unit :=
  shared_dec depth this;;
  lift (try_catch
          (shared_ptr.set_block this None;;
           shared_ptr.set_ptr this nullptr;;
           b ← operator_new (control_block.init (regular_control_block r d));
           shared_ptr.set_block this (Some b);;
           shared_ptr.set_ptr this r)
          (emit (CallDeleter d r);;
           throw)).

(** A statement of a program: the members that release a block run the code
    above, the others release nothing. *)
Definition exec (depth : nat) (c : call) : N unit :=
  match c with
  | shared_assign x r => assign_copy depth x r
  | shared_move_assign x r => assign_move depth x r
  | shared_reset x => reset depth x
  | shared_reset_ptr x p => reset_ptr depth x p
  | shared_reset_ptr_deleter x p d => reset_ptr_deleter depth x p d
  | shared_end x => dtor depth x
  | c => lift (exec c)
  end.

(** The four counting members, called on the block [b] from outside. *)
Definition apply_op (depth : nat) (b : loc) (o : op) : N unit :=
  match o with
  | op_dec => dec depth b
  | op_inc | op_winc | op_wdec => lift (apply_op b o)
  end.

Fixpoint run (depth : nat) (b : loc) (ops : list op) : N unit :=
  match ops with
  | [] => mret tt
  | o :: ops' => apply_op depth b o;; run depth b ops'
  end.

End value.
End nested.

(** The sequences of counting operations that handles produce on a block
    they find in the state [cb]: every operation is permitted in the state
    in which it runs, and none follows the one that leaves both counts at
    0. *)
Fixpoint in_domain (ops : list op) (cb : control_block) : bool :=
  match ops with
  | [] => true
  | o :: ops' =>
      permitted o cb &&
      if decide (after o cb = (0, 0)) then bool_decide (ops' = [])
      else in_domain ops'
             (mk_control_block (fst (after o cb)) (snd (after o cb))
                (derived cb))
  end.

(** No managed value holds a handle. *)
Definition no_members : addr → list member := λ _, [].

(** The object at address 10 holds the [weak_ptr] 0, as an object does that
    keeps a [weak_ptr] to itself. *)
Definition self_observer : addr → list member := λ a,
  if decide (a = 10) then [weak_member 0] else [].

(** The object at address 10 is a list node: it holds the [shared_ptr] 1 to
    the next node. *)
Definition list_node : addr → list member := λ a,
  if decide (a = 10) then [shared_member 1] else [].

(** Every deleter destroys its object. *)
Definition deleting : deleter → bool := λ _, true.

(** The [shared_ptr] 0 is the only owner of the object at address 10, and the
    [weak_ptr] 0, a member of that object under [self_observer], is the only
    observer of its block. *)
Definition w_self_observer : world :=
  mk_world
    {[ 1%positive := mk_control_block 1 1 (default_control_block 10) ]}
    {[ 0%nat := mk_handle (Some 1%positive) 10 ]}
    {[ 0%nat := mk_handle (Some 1%positive) 10 ]}
    0 [].

(** The [shared_ptr] 0 is the only owner of the node at address 10, whose
    member [next], the [shared_ptr] 1 under [list_node], is empty: a list of
    one node. *)
Definition w_list : world :=
  mk_world
    {[ 1%positive := control_block.init (default_control_block 10) ]}
    {[ 0%nat := mk_handle (Some 1%positive) 10;
       1%nat := mk_handle None nullptr ]}
    ∅ 0 [].
(** * Running the code *)

Ltac unfold_M :=
  unfold noexcept, try_catch, throw, emit, modify, load, store, delete_this,
    mbind, M_bind, mret, M_ret in *.

Ltac lookups :=
  repeat first
    [ progress simpl
    | rewrite lookup_insert_eq
    | match goal with H : _ !! _ = _ |- _ => rewrite H end ].

Ltac solve_lookup :=
  simpl;
  repeat first [ rewrite lookup_insert_eq | rewrite lookup_insert_ne by done ];
  first [ eassumption | reflexivity ].

Lemma noexcept_Ok {A} (m : M A) (w w' : world) (a : A) :
  m w = Ok a w' → noexcept m w = Ok a w'.
Proof. unfold noexcept. by intros ->. Qed.

Lemma bind_Ok {A B} (m : M A) (f : A → M B) (w w' : world) (a : A) :
  m w = Ok a w' → (m ≫= f) w = f a w'.
Proof. unfold mbind, M_bind. by intros ->. Qed.

Lemma bind_Throw {A B} (m : M A) (f : A → M B) (w w' : world) :
  m w = Throw w' → (m ≫= f) w = Throw w'.
Proof. unfold mbind, M_bind. by intros ->. Qed.

Lemma world_eq (h h' : gmap loc control_block) (s s' k k' : gmap name handle)
    (n n' : nat) (t t' : list event) :
  h = h' → s = s' → k = k' → n = n' → t = t' →
  mk_world h s k n t = mk_world h' s' k' n' t'.
Proof. by intros -> -> -> -> ->. Qed.

Lemma handle_eta (h : handle) : mk_handle (block h) (ptr h) = h.
Proof. by destruct h. Qed.

Lemma set_ref_ref (cb : control_block) : set_ref (ref cb) cb = cb.
Proof. by destruct cb. Qed.
Lemma set_wref_wref (cb : control_block) : set_wref (wref cb) cb = cb.
Proof. by destruct cb. Qed.
Lemma set_ref_twice (z z' : Z) (cb : control_block) :
  set_ref z (set_ref z' cb) = set_ref z cb.
Proof. done. Qed.
Lemma set_wref_twice (z z' : Z) (cb : control_block) :
  set_wref z (set_wref z' cb) = set_wref z cb.
Proof. done. Qed.

(** *** [std::size_t] *)

Lemma SIZE_MAX_pos : 1 < SIZE_MAX.
Proof. done. Qed.

Lemma wrap_small (z : Z) : 0 ≤ z ≤ SIZE_MAX → wrap z = z.
Proof. unfold wrap, SIZE_MAX. intros. apply Z.mod_small. lia. Qed.

(** [ref++] followed by [ref--] gives the count back, also across the
    wrap-around. *)
Lemma wrap_succ_pred (z : Z) : 0 ≤ z ≤ SIZE_MAX → wrap (wrap (z + 1) - 1) = z.
Proof.
  unfold wrap, SIZE_MAX. intros Hz.
  rewrite Zminus_mod_idemp_l. replace (z + 1 - 1) with z by lia.
  apply Z.mod_small. lia.
Qed.

(** *** The free store *)

Lemma load_Ok (b : loc) (cb : control_block) (w : world) :
  heap w !! b = Some cb → load b w = Ok cb w.
Proof. unfold load. by intros ->. Qed.

Lemma operator_new_fresh (cb : control_block) (w : world) (n : nat) :
  avail w = S n →
  ∃ b, heap w !! b = None
    ∧ operator_new cb w = Ok b (set_avail n (set_heap (insert b cb) w)).
Proof.
  intros Hn. exists (fresh (dom (heap w))). split.
  - apply not_elem_of_dom, is_fresh.
  - unfold operator_new. by rewrite Hn.
Qed.

Lemma operator_new_bad_alloc (cb : control_block) (w : world) :
  avail w = 0%nat → operator_new cb w = Throw w.
Proof. unfold operator_new. by intros ->. Qed.

(** *** The members of [control_block] *)

Lemma inc_Ok (b : loc) (cb : control_block) (w : world) :
  heap w !! b = Some cb →
  control_block.inc b w
  = Ok tt (set_trace (λ t, t ++ [Inc b])
            (set_heap (insert b (set_ref (wrap (ref cb + 1)) cb)) w)).
Proof. intros Hb. unfold control_block.inc. unfold_M. by lookups. Qed.

Lemma winc_Ok (b : loc) (cb : control_block) (w : world) :
  heap w !! b = Some cb →
  control_block.winc b w
  = Ok tt (set_trace (λ t, t ++ [Winc b])
            (set_heap (insert b (set_wref (wrap (wref cb + 1)) cb)) w)).
Proof. intros Hb. unfold control_block.winc. unfold_M. by lookups. Qed.

Lemma use_count_Ok (b : loc) (cb : control_block) (w : world) :
  heap w !! b = Some cb → control_block.use_count b w = Ok (ref cb) w.
Proof. intros Hb. unfold control_block.use_count. unfold_M. by lookups. Qed.

Lemma destroy_Ok (b : loc) (cb : control_block) (w : world) :
  heap w !! b = Some cb →
  control_block.destroy b w
  = Ok tt (set_trace (λ t, t ++ Destroy b :: disposal b (derived cb)) w).
Proof.
  intros Hb. unfold control_block.destroy. unfold_M. lookups.
  destruct (derived cb) as [obj|obj d|]; simpl.
  - unfold set_trace; simpl. by rewrite <- app_assoc.
  - case_decide; unfold set_trace; simpl; [by rewrite <- app_assoc | done].
  - unfold set_trace; simpl. by rewrite <- app_assoc.
Qed.

(** [dec] when other owners remain. *)
Lemma dec_Ok_more (b : loc) (cb : control_block) (w : world) :
  heap w !! b = Some cb →
  wrap (ref cb - 1) ≠ 0 →
  control_block.dec b w
  = Ok tt (set_trace (λ t, t ++ [Dec b])
            (set_heap (insert b (set_ref (wrap (ref cb - 1)) cb)) w)).
Proof.
  intros Hb Hne. unfold control_block.dec. unfold_M. lookups.
  by rewrite decide_True.
Qed.

(** [dec] by the last owner while the block is still observed. *)
Lemma dec_Ok_last_strong (b : loc) (cb : control_block) (w : world) :
  heap w !! b = Some cb →
  wrap (ref cb - 1) = 0 →
  wref cb ≠ 0 →
  control_block.dec b w
  = Ok tt (set_trace (λ t, t ++ Dec b :: Destroy b :: disposal b (derived cb))
            (set_heap (insert b (set_ref 0 cb)) w)).
Proof.
  intros Hb Hz Hw. unfold control_block.dec.
  unfold mbind at 1 2 3 4, M_bind. rewrite (load_Ok _ _ _ Hb).
  unfold emit, modify, store at 1. lookups. unfold load at 1. lookups.
  rewrite Hz. rewrite decide_False by tauto.
  unfold mbind at 1, M_bind.
  erewrite destroy_Ok by (simpl; apply lookup_insert_eq).
  unfold mbind, M_bind, load. lookups.
  rewrite decide_False by done. unfold mret, M_ret.
  f_equal. apply world_eq; try done. simpl. by rewrite <- app_assoc.
Qed.

(** [dec] by the last owner of a block that nothing observes. *)
Lemma dec_Ok_last (b : loc) (cb : control_block) (w : world) :
  heap w !! b = Some cb →
  wrap (ref cb - 1) = 0 →
  wref cb = 0 →
  control_block.dec b w
  = Ok tt (set_trace
             (λ t, t ++ Dec b :: Destroy b :: disposal b (derived cb)
                     ++ [DeleteThis b])
             (set_heap (delete b) w)).
Proof.
  intros Hb Hz Hw. unfold control_block.dec.
  unfold mbind at 1 2 3 4, M_bind. rewrite (load_Ok _ _ _ Hb).
  unfold emit, modify, store at 1. lookups. unfold load at 1. lookups.
  rewrite Hz. rewrite decide_False by tauto.
  unfold mbind at 1, M_bind.
  erewrite destroy_Ok by (simpl; apply lookup_insert_eq).
  unfold mbind, M_bind, load. lookups.
  rewrite decide_True by done. unfold delete_this. lookups.
  f_equal. apply world_eq; try done; simpl.
  - by rewrite delete_insert_eq.
  - rewrite <- !app_assoc. done.
Qed.

Lemma wdec_Ok_more (b : loc) (cb : control_block) (w : world) :
  heap w !! b = Some cb →
  ¬ (wrap (wref cb - 1) = 0 ∧ ref cb = 0) →
  control_block.wdec b w
  = Ok tt (set_trace (λ t, t ++ [Wdec b])
            (set_heap (insert b (set_wref (wrap (wref cb - 1)) cb)) w)).
Proof.
  intros Hb Hne. unfold control_block.wdec. unfold_M. lookups.
  by rewrite decide_False.
Qed.

Lemma wdec_Ok_last (b : loc) (cb : control_block) (w : world) :
  heap w !! b = Some cb →
  wrap (wref cb - 1) = 0 →
  ref cb = 0 →
  control_block.wdec b w
  = Ok tt (set_trace (λ t, t ++ [Wdec b; DeleteThis b])
            (set_heap (delete b) w)).
Proof.
  intros Hb Hz Hr. unfold control_block.wdec. unfold_M. lookups.
  rewrite decide_True by done. lookups.
  f_equal. apply world_eq; try done; simpl.
  - by rewrite delete_insert_eq.
  - by rewrite <- app_assoc.
Qed.

(** [dec] touches the free store and the trace only. *)
Lemma dec_frame (b : loc) (w w' : world) :
  control_block.dec b w = Ok tt w' →
  shared w' = shared w ∧ weak w' = weak w ∧ avail w' = avail w.
Proof.
  destruct (heap w !! b) as [cb|] eqn:Hb.
  - destruct (decide (wrap (ref cb - 1) = 0)) as [Hz|Hz].
    + destruct (decide (wref cb = 0)) as [Hw|Hw].
      * rewrite (dec_Ok_last b cb w Hb Hz Hw). by intros [= <-].
      * rewrite (dec_Ok_last_strong b cb w Hb Hz Hw). by intros [= <-].
    + rewrite (dec_Ok_more b cb w Hb Hz). by intros [= <-].
  - unfold control_block.dec. unfold_M. by rewrite Hb.
Qed.

(** *** The members of the handles *)

Lemma sp_field_Ok {A} (f : handle → A) (x : name) (h : handle) (w : world) :
  shared w !! x = Some h → shared_ptr.field f x w = Ok (f h) w.
Proof. unfold shared_ptr.field. by intros ->. Qed.

Lemma sp_set_block_Ok (x : name) (h : handle) (b : option loc) (w : world) :
  shared w !! x = Some h →
  shared_ptr.set_block x b w
  = Ok tt (set_shared (insert x (mk_handle b (ptr h))) w).
Proof. unfold shared_ptr.set_block. by intros ->. Qed.

Lemma sp_set_ptr_Ok (x : name) (h : handle) (p : addr) (w : world) :
  shared w !! x = Some h →
  shared_ptr.set_ptr x p w
  = Ok tt (set_shared (insert x (mk_handle (block h) p)) w).
Proof. unfold shared_ptr.set_ptr. by intros ->. Qed.

Lemma wp_field_Ok {A} (f : handle → A) (x : name) (h : handle) (w : world) :
  weak w !! x = Some h → weak_ptr.field f x w = Ok (f h) w.
Proof. unfold weak_ptr.field. by intros ->. Qed.

Lemma wp_set_block_Ok (x : name) (h : handle) (b : option loc) (w : world) :
  weak w !! x = Some h →
  weak_ptr.set_block x b w
  = Ok tt (set_weak (insert x (mk_handle b (ptr h))) w).
Proof. unfold weak_ptr.set_block. by intros ->. Qed.

Lemma wp_set_ptr_Ok (x : name) (h : handle) (p : addr) (w : world) :
  weak w !! x = Some h →
  weak_ptr.set_ptr x p w
  = Ok tt (set_weak (insert x (mk_handle (block h) p)) w).
Proof. unfold weak_ptr.set_ptr. by intros ->. Qed.

(** Runs the first call of a sequence when that call is one whose result is
    known from the lookups at hand. *)
Ltac run_call :=
  first
    [ eapply sp_field_Ok; solve_lookup
    | eapply sp_set_block_Ok; solve_lookup
    | eapply sp_set_ptr_Ok; solve_lookup
    | eapply wp_field_Ok; solve_lookup
    | eapply wp_set_block_Ok; solve_lookup
    | eapply wp_set_ptr_Ok; solve_lookup
    | eapply inc_Ok; solve_lookup
    | eapply winc_Ok; solve_lookup
    | eapply use_count_Ok; solve_lookup
    | reflexivity ].

Ltac run_bind := etrans; [ apply bind_Ok; run_call | cbv beta ].

Lemma set_shared_id (w : world) (x : name) (h : handle) :
  shared w !! x = Some h →
  set_shared (insert x (mk_handle (block h) (ptr h))) w = w.
Proof.
  intros Hx. destruct w as [hp s k n t]; simpl in *.
  apply world_eq; try done. simpl. rewrite handle_eta. by apply insert_id.
Qed.

Lemma set_weak_id (w : world) (x : name) (h : handle) :
  weak w !! x = Some h →
  set_weak (insert x (mk_handle (block h) (ptr h))) w = w.
Proof.
  intros Hx. destruct w as [hp s k n t]; simpl in *.
  apply world_eq; try done. simpl. rewrite handle_eta. by apply insert_id.
Qed.

(** The source of an assignment between handles on one block reads the same
    after the destination took its address, also when both are one object. *)
Lemma source_survives (m : gmap name handle) (this r : name) (ht hr : handle) :
  m !! this = Some ht → m !! r = Some hr → block ht = block hr →
  <[ this := mk_handle (block ht) (ptr hr) ]> m !! r = Some hr.
Proof.
  intros Ht Hr Hb. destruct (decide (this = r)) as [->|Hne].
  - rewrite lookup_insert_eq. rewrite Hb. by rewrite handle_eta.
  - by rewrite lookup_insert_ne.
Qed.

Lemma sp_assign_move_same (w : world) (this r : name) (ht hr : handle) :
  shared w !! this = Some ht → shared w !! r = Some hr →
  block ht = block hr →
  shared_ptr.assign_move this r w
  = Ok tt (set_shared (insert this (mk_handle (block ht) (ptr hr))) w).
Proof.
  intros Ht Hr Hb. unfold shared_ptr.assign_move.
  run_bind. run_bind. rewrite decide_True by done.
  run_bind. by apply sp_set_ptr_Ok.
Qed.

Lemma wp_assign_move_same (w : world) (this r : name) (ht hr : handle) :
  weak w !! this = Some ht → weak w !! r = Some hr →
  block ht = block hr →
  weak_ptr.assign_move this r w
  = Ok tt (set_weak (insert this (mk_handle (block ht) (ptr hr))) w).
Proof.
  intros Ht Hr Hb. unfold weak_ptr.assign_move.
  run_bind. run_bind. rewrite decide_True by done.
  run_bind. by apply wp_set_ptr_Ok.
Qed.

Lemma sp_assign_copy_same (w : world) (this r : name) (ht hr : handle)
    (b : loc) (cb : control_block) :
  shared w !! this = Some ht → shared w !! r = Some hr →
  block ht = Some b → block hr = Some b →
  heap w !! b = Some cb → 0 < ref cb ≤ SIZE_MAX →
  shared_ptr.assign_copy this r w
  = Ok tt (set_trace (λ t, t ++ [Inc b; Dec b])
            (set_shared (insert this (mk_handle (Some b) (ptr hr))) w)).
Proof.
  intros Ht Hr Hbt Hbr Hb Hrange. unfold shared_ptr.assign_copy.
  run_bind. run_bind. rewrite Hbt, Hbr.
  run_bind. run_bind. simpl. run_bind.
  destruct (decide (this = r)) as [->|Hne].
  - assert (ht = hr) as -> by congruence.
    run_bind. run_bind. simpl.
    erewrite dec_Ok_more; [|solve_lookup|].
    + f_equal. apply world_eq; simpl; try done.
      * rewrite insert_insert_eq. rewrite wrap_succ_pred by lia.
        rewrite set_ref_twice, set_ref_ref. by apply insert_id.
      * by rewrite insert_insert_eq.
      * by rewrite <- app_assoc.
    + simpl. rewrite wrap_succ_pred by lia. lia.
  - run_bind. run_bind. simpl.
    erewrite dec_Ok_more; [|solve_lookup|].
    + f_equal. apply world_eq; simpl; try done.
      * rewrite insert_insert_eq. rewrite wrap_succ_pred by lia.
        rewrite set_ref_twice, set_ref_ref. by apply insert_id.
      * by rewrite insert_insert_eq.
      * by rewrite <- app_assoc.
    + simpl. rewrite wrap_succ_pred by lia. lia.
Qed.

Lemma wp_assign_copy_same (w : world) (this r : name) (ht hr : handle)
    (b : loc) (cb : control_block) :
  weak w !! this = Some ht → weak w !! r = Some hr →
  block ht = Some b → block hr = Some b →
  heap w !! b = Some cb → 0 < wref cb ≤ SIZE_MAX →
  weak_ptr.assign_copy this r w
  = Ok tt (set_trace (λ t, t ++ [Winc b; Wdec b])
            (set_weak (insert this (mk_handle (Some b) (ptr hr))) w)).
Proof.
  intros Ht Hr Hbt Hbr Hb Hrange. unfold weak_ptr.assign_copy.
  run_bind. run_bind. rewrite Hbt, Hbr.
  run_bind. run_bind. simpl. run_bind.
  destruct (decide (this = r)) as [->|Hne].
  - assert (ht = hr) as -> by congruence.
    run_bind. run_bind. simpl.
    erewrite wdec_Ok_more; [|solve_lookup|].
    + f_equal. apply world_eq; simpl; try done.
      * rewrite insert_insert_eq. rewrite wrap_succ_pred by lia.
        rewrite set_wref_twice, set_wref_wref. by apply insert_id.
      * by rewrite insert_insert_eq.
      * by rewrite <- app_assoc.
    + simpl. rewrite wrap_succ_pred by lia. lia.
  - run_bind. run_bind. simpl.
    erewrite wdec_Ok_more; [|solve_lookup|].
    + f_equal. apply world_eq; simpl; try done.
      * rewrite insert_insert_eq. rewrite wrap_succ_pred by lia.
        rewrite set_wref_twice, set_wref_wref. by apply insert_id.
      * by rewrite insert_insert_eq.
      * by rewrite <- app_assoc.
    + simpl. rewrite wrap_succ_pred by lia. lia.
Qed.

Lemma sp_assign_copy_null (w : world) (this : name) (h : handle) :
  shared w !! this = Some h → block h = None →
  shared_ptr.assign_copy this this w = Ok tt w.
Proof.
  intros Ht Hb. unfold shared_ptr.assign_copy.
  run_bind. run_bind. rewrite Hb. run_bind. run_bind. simpl.
  run_bind. run_bind. run_bind. simpl. unfold mret, M_ret. f_equal.
  destruct w as [hp s k n t]; simpl in *. apply world_eq; try done.
  simpl. rewrite insert_insert_eq. apply insert_id. rewrite Ht.
  destruct h; simpl in *; congruence.
Qed.

Lemma wp_assign_copy_null (w : world) (this : name) (h : handle) :
  weak w !! this = Some h → block h = None →
  weak_ptr.assign_copy this this w = Ok tt w.
Proof.
  intros Ht Hb. unfold weak_ptr.assign_copy.
  run_bind. run_bind. rewrite Hb. run_bind. run_bind. simpl.
  run_bind. run_bind. run_bind. simpl. unfold mret, M_ret. f_equal.
  destruct w as [hp s k n t]; simpl in *. apply world_eq; try done.
  simpl. rewrite insert_insert_eq. apply insert_id. rewrite Ht.
  destruct h; simpl in *; congruence.
Qed.

(** *** One block under the protocol of the handles *)

Lemma count_disposal (b b' : loc) (v : variant) :
  count_occ event_eq_dec (disposal b' v) (Destroy b) = 0%nat
  ∧ count_occ event_eq_dec (disposal b' v) (DeleteThis b) = 0%nat.
Proof.
  destruct v as [obj|obj d|]; simpl; [done| |done].
  case_decide; done.
Qed.

Lemma count_same (e : event) :
  (if event_eq_dec e e then 1 else 0)%nat = 1%nat.
Proof. by destruct (event_eq_dec e e). Qed.

Ltac close_instant :=
  unfold in_use; simpl;
  repeat case_bool_decide; repeat case_decide; simplify_eq/=;
  repeat split; intros; simplify_eq/=; try done; try lia;
  try (f_equal; lia);
  try (exfalso;
       match goal with H : (_, _) ≠ (_, _) |- _ => apply H; f_equal; lia end).

(** One permitted operation on a block in use. *)
Lemma apply_op_permitted (b : loc) (o : op) (cb : control_block) (w : world) :
  heap w !! b = Some cb → in_use cb → permitted o cb = true →
  ∃ w2 : world,
    apply_op b o w = Ok tt w2
    ∧ instant b o cb w w2
    ∧ match heap w2 !! b with
      | Some cb2 => in_use cb2 ∧ (ref cb2, wref cb2) = after o cb
      | None => True
      end.
Proof.
  intros Hb (Hr & Hw & Hpos) Hperm. pose proof SIZE_MAX_pos as Hmax.
  unfold instant, destroyed, freed, liveness_of.
  destruct o; simpl in Hperm; apply bool_decide_eq_true in Hperm; simpl.
  - (* inc *)
    eexists. split; [by apply inc_Ok|]. simpl.
    rewrite !count_occ_app, Hb, lookup_insert_eq. simpl.
    rewrite wrap_small by lia. close_instant.
  - (* dec *)
    destruct (decide (ref cb = 1)) as [H1|H1].
    + assert (wrap (ref cb - 1) = 0) as Hz by (by rewrite H1).
      destruct (decide (wref cb = 0)) as [H0|H0].
      * eexists. split; [by apply dec_Ok_last|]. simpl.
        rewrite !count_occ_app, Hb, lookup_delete_eq. simpl.
        rewrite !count_occ_app. simpl.
        destruct (count_disposal b b (derived cb)) as [-> ->].
        rewrite !count_same. close_instant.
      * eexists. split; [by apply dec_Ok_last_strong|]. simpl.
        rewrite !count_occ_app, Hb, lookup_insert_eq. simpl.
        destruct (count_disposal b b (derived cb)) as [-> ->].
        rewrite !count_same. close_instant.
    + assert (wrap (ref cb - 1) = ref cb - 1) as Hz by (apply wrap_small; lia).
      eexists. split; [apply (dec_Ok_more b cb); [done | lia]|]. simpl.
      rewrite !count_occ_app, Hb, lookup_insert_eq. simpl. rewrite Hz.
      close_instant.
  - (* winc *)
    eexists. split; [by apply winc_Ok|]. simpl.
    rewrite !count_occ_app, Hb, lookup_insert_eq. simpl.
    rewrite wrap_small by lia. close_instant.
  - (* wdec *)
    destruct (decide (wref cb = 1 ∧ ref cb = 0)) as [[H1 H0]|H1].
    + eexists. split; [apply (wdec_Ok_last b cb); [done | by rewrite H1 | done]|].
      simpl. rewrite !count_occ_app, Hb, lookup_delete_eq. simpl.
      rewrite !count_same. close_instant.
    + assert (wrap (wref cb - 1) = wref cb - 1) as Hz by (apply wrap_small; lia).
      eexists. split; [apply (wdec_Ok_more b cb); [done | lia]|]. simpl.
      rewrite !count_occ_app, Hb, lookup_insert_eq. simpl. rewrite Hz.
      close_instant.
Qed.

Lemma instant_balance (b : loc) (o : op) (cb : control_block) (w1 w2 : world) :
  heap w1 !! b = Some cb → in_use cb → permitted o cb = true →
  instant b o cb w1 w2 →
  match heap w2 !! b with
  | Some cb2 => in_use cb2 ∧ (ref cb2, wref cb2) = after o cb
  | None => True
  end →
  (destroyed b w2 + dead b w1 = destroyed b w1 + dead b w2)%nat
  ∧ (freed b w2 + gone b w1 = freed b w1 + gone b w2)%nat.
Proof.
  intros Hb (Hr & Hw & Hpos) Hperm (Hd & Hf & Hgone & _) H2.
  rewrite Hd, Hf. clear Hd Hf.
  unfold dead, gone, liveness_of in *. rewrite Hb in *.
  destruct (heap w2 !! b) as [cb2|].
  - destruct H2 as [_ H2].
    assert (after o cb ≠ (0, 0)) as Hne.
    { intros Ha. apply Hgone in Ha. by case_decide. }
    rewrite (bool_decide_false _ Hne). clear Hgone Hne.
    destruct o; simpl in *; apply bool_decide_eq_true in Hperm;
      injection H2 as H2 H2'; rewrite ?H2, ?H2';
      repeat case_bool_decide; repeat case_decide; simplify_eq/=; lia.
  - assert (after o cb = (0, 0)) as Ha by (by apply Hgone).
    rewrite Ha. simpl.
    destruct o; simpl in *; apply bool_decide_eq_true in Hperm;
      injection Ha as Ha Ha';
      repeat case_bool_decide; repeat case_decide; simplify_eq/=; lia.
Qed.

(** *** Allocation failure *)

Lemma sp_dec_frame (this : name) (w w1 : world) :
  shared_ptr.dec this w = Ok tt w1 →
  shared w1 = shared w ∧ weak w1 = weak w ∧ avail w1 = avail w.
Proof.
  unfold shared_ptr.dec, shared_ptr.field. unfold mbind, M_bind.
  destruct (shared w !! this) as [h|]; [|done].
  destruct (block h) as [b|].
  - apply dec_frame.
  - by intros [= <-].
Qed.

(** [reset(r)] when the allocation fails: the exception leaves with the
    members of the handle as they were before the call. *)
Lemma reset_ptr_bad_alloc (this : name) (r : addr) (h : handle) (w w1 : world) :
  shared w !! this = Some h → avail w = 0%nat →
  shared_ptr.dec this w = Ok tt w1 →
  shared_ptr.reset_ptr this r w = Throw w1 ∧ shared w1 !! this = Some h.
Proof.
  intros Hthis Hn Hdec.
  destruct (sp_dec_frame this w w1 Hdec) as (Hs & _ & Ha).
  split; [|by rewrite Hs].
  unfold shared_ptr.reset_ptr. rewrite (bind_Ok _ _ _ _ _ Hdec).
  apply bind_Throw, operator_new_bad_alloc. by rewrite Ha.
Qed.

(** [reset(r, deleter)] when the allocation fails: the handle has been
    emptied, the deleter is called on [r], and the exception leaves. *)
Lemma reset_ptr_deleter_bad_alloc (this : name) (r : addr) (d : deleter)
    (h : handle) (w w1 : world) :
  shared w !! this = Some h → avail w = 0%nat →
  shared_ptr.dec this w = Ok tt w1 →
  shared_ptr.reset_ptr_deleter this r d w
  = Throw (set_trace (λ t, t ++ [CallDeleter d r])
             (set_shared (insert this (mk_handle None nullptr)) w1)).
Proof.
  intros Hthis Hn Hdec.
  destruct (sp_dec_frame this w w1 Hdec) as (Hs & _ & Ha).
  assert (shared w1 !! this = Some h) as Hthis1 by (by rewrite Hs).
  unfold shared_ptr.reset_ptr_deleter. rewrite (bind_Ok _ _ _ _ _ Hdec).
  unfold try_catch.
  rewrite (bind_Ok _ _ _ _ _ (sp_set_block_Ok this h None w1 Hthis1)).
  erewrite bind_Ok by (eapply sp_set_ptr_Ok; solve_lookup).
  erewrite bind_Throw by (apply operator_new_bad_alloc; simpl; by rewrite Ha).
  unfold emit, modify, throw, mbind, M_bind. simpl.
  f_equal. apply world_eq; try done. simpl. by rewrite insert_insert_eq.
Qed.

(** The constructor with a deleter when the allocation fails: the deleter is
    called on the pointer, once, and the exception leaves. *)
Lemma ctor_ptr_deleter_bad_alloc (p : addr) (d : deleter) (w : world) :
  avail w = 0%nat →
  shared_ptr.ctor_ptr_deleter p d w
  = Throw (set_trace (λ t, t ++ [CallDeleter d p]) w).
Proof.
  intros Hn. unfold shared_ptr.ctor_ptr_deleter, try_catch.
  by erewrite bind_Throw by (by apply operator_new_bad_alloc).
Qed.

(** * The tests of main.cpp, run on the model *)

(** [ptr_ctor_non_empty_nullptr] and [ptr_ctor_nullptr]. *)
Example test_ptr_ctor_non_empty_nullptr :
  (p ← shared_ptr.ctor_ptr nullptr;
   n ← shared_ptr.use_count p;
   mret (shared_ptr.operator_bool p, n)) w_start
  = Ok (false, 1)
      (mk_world
         {[ 1%positive := mk_control_block 1 0 (default_control_block 0) ]}
         ∅ ∅ 2 [])
  ∧ (p ← shared_ptr.ctor_nullptr;
     n ← shared_ptr.use_count p;
     mret (shared_ptr.operator_bool p, n)) w_start
    = Ok (false, 0) w_start.
Proof. split; reflexivity. Qed.

(** [weak_ptr_lock_nullptr]: after [p.reset()] the object is gone and
    [q.lock()] is empty. *)
Example test_weak_ptr_lock_nullptr :
  (shared_ptr.declare 0 (shared_ptr.ctor_ptr 42);;
   weak_ptr.declare 0 (weak_ptr.ctor_shared 0);;
   shared_ptr.reset 0;;
   q ← weak_ptr.field id 0;
   r ← weak_ptr.lock q;
   mret (shared_ptr.operator_bool r)) w_start
  = Ok false
      (mk_world
         {[ 1%positive := mk_control_block 0 1 (default_control_block 42) ]}
         {[ 0%nat := mk_handle None nullptr ]}
         {[ 0%nat := mk_handle (Some 1%positive) 42 ]}
         2
         [Winc 1%positive; Dec 1%positive; Destroy 1%positive; DeleteObj 42]).
Proof. reflexivity. Qed.

(** [aliasing_ctor]: both handles report two owners. *)
Example test_aliasing_ctor :
  (shared_ptr.declare 0 (shared_ptr.ctor_ptr 42);;
   shared_ptr.declare 1 (shared_ptr.ctor_alias 0 77);;
   p ← shared_ptr.field id 0;
   q ← shared_ptr.field id 1;
   n ← shared_ptr.use_count p;
   m ← shared_ptr.use_count q;
   mret (n, m, shared_ptr.get q)) w_start
  = Ok (2, 2, 77)
      (mk_world
         {[ 1%positive := mk_control_block 2 0 (default_control_block 42) ]}
         {[ 0%nat := mk_handle (Some 1%positive) 42;
            1%nat := mk_handle (Some 1%positive) 77 ]}
         ∅ 2 [Inc 1%positive]).
Proof. reflexivity. Qed.

(** [custom_deleter] and [make_shared_weak_ptr]: the deleter runs when the
    handle dies; the value made in place dies with its last owner and the
    block with its last observer. *)
Example test_custom_deleter :
  (shared_ptr.declare 0 (shared_ptr.ctor_ptr_deleter 42 5);;
   shared_ptr.dtor 0) w_start
  = Ok tt
      (mk_world ∅ ∅ ∅ 2
         [Dec 1%positive; Destroy 1%positive; CallDeleter 5 42;
          DeleteThis 1%positive])
  ∧ (weak_ptr.declare 0 weak_ptr.ctor_default;;
     shared_ptr.declare 0 make_shared;;
     shared_ptr.declare 1 (shared_ptr.ctor_copy 0);;
     weak_ptr.declare 1 (weak_ptr.ctor_shared 1);;
     weak_ptr.assign_copy 0 1;;
     weak_ptr.dtor 1;;
     shared_ptr.dtor 1;;
     shared_ptr.dtor 0;;
     weak_ptr.dtor 0) w_start
    = Ok tt
        (mk_world ∅ ∅ ∅ 2
           [Inc 1%positive; Winc 1%positive; Winc 1%positive;
            Wdec 1%positive; Dec 1%positive; Dec 1%positive;
            Destroy 1%positive; Dtor 1; Wdec 1%positive;
            DeleteThis 1%positive]).
Proof. split; reflexivity. Qed.

(** * More of the code *)

(** ** Counting the holders of a block *)

Lemma holders_delete (b : loc) (x : name) (m : gmap name handle) :
  (holders b (delete x m) + held b (m !! x) = holders b m)%nat.
Proof.
  unfold holders, held. rewrite map_filter_delete, map_size_delete.
  rewrite map_lookup_filter. destruct (m !! x) as [h|] eqn:Hx; simpl.
  - case_decide.
    + rewrite option_guard_True by done. simpl.
      assert (size (filter (λ kv : name * handle, block kv.2 = Some b) m) ≠ 0)%nat.
      { apply map_size_non_empty_iff. intros He.
        eapply (map_filter_empty_not_lookup _ m x h); done. }
      lia.
    + rewrite option_guard_False by done. simpl. lia.
  - lia.
Qed.

Lemma holders_insert (b : loc) (x : name) (h : handle) (m : gmap name handle) :
  (holders b (<[ x := h ]> m) + held b (m !! x)
   = holders b m + held b (Some h))%nat.
Proof.
  rewrite <- (holders_delete b x m).
  rewrite <- (holders_delete b x (<[ x := h ]> m)).
  rewrite delete_insert_eq, lookup_insert_eq. lia.
Qed.

Lemma holders_pos (b : loc) (x : name) (h : handle) (m : gmap name handle) :
  m !! x = Some h → block h = Some b → (0 < holders b m)%nat.
Proof.
  intros Hx Hb. pose proof (holders_delete b x m) as Hd.
  rewrite Hx in Hd. simpl in Hd. rewrite decide_True in Hd by done. lia.
Qed.

Lemma holders_zero (b : loc) (x : name) (h : handle) (m : gmap name handle) :
  holders b m = 0%nat → m !! x = Some h → block h ≠ Some b.
Proof.
  intros Hz Hx Hb. pose proof (holders_pos b x h m Hx Hb). lia.
Qed.

Lemma held_vacant (b : loc) (m : gmap name handle) (x : name) :
  vacant m x → held b (m !! x) = 0%nat.
Proof.
  unfold vacant, held. intros Hv. destruct (m !! x) as [h|]; [|done].
  rewrite (Hv h eq_refl). by rewrite decide_False.
Qed.

Lemma held_Some (b b' : loc) (p : addr) :
  held b (Some (mk_handle (Some b') p)) = if decide (b' = b) then 1%nat else 0%nat.
Proof. unfold held. simpl. repeat case_decide; congruence. Qed.

Lemma held_None (b : loc) (p : addr) : held b (Some (mk_handle None p)) = 0%nat.
Proof. done. Qed.

Lemma holders_none (b : loc) (m : gmap name handle) :
  (∀ x h, m !! x = Some h → block h ≠ Some b) → holders b m = 0%nat.
Proof.
  intros Hm. unfold holders. apply map_size_empty_iff.
  apply map_eq. intros x. rewrite lookup_empty.
  apply map_lookup_filter_None. right. intros h Hx. simpl. by eapply Hm.
Qed.

(** ** Changes that keep a world consistent *)

(** A change of the shared handles that leaves every count of holders as it
    was and lets no handle hold a block that none held before. *)
Lemma sound_recount_s (H : gmap loc control_block) (S S' W : gmap name handle) :
  sound H S W →
  (∀ b, holders b S' = holders b S) →
  (∀ x h b, S' !! x = Some h → block h = Some b → is_Some (H !! b)) →
  sound H S' W.
Proof.
  intros (Hc & Hs & Hw) Hn Hs'. split; [|split]; try done.
  intros b cb Hb. rewrite Hn. by apply Hc.
Qed.

Lemma sound_recount_w (H : gmap loc control_block) (S W W' : gmap name handle) :
  sound H S W →
  (∀ b, holders b W' = holders b W) →
  (∀ x h b, W' !! x = Some h → block h = Some b → is_Some (H !! b)) →
  sound H S W'.
Proof.
  intros (Hc & Hs & Hw) Hn Hw'. split; [|split]; try done.
  intros b cb Hb. rewrite Hn. by apply Hc.
Qed.

Lemma insert_alloc (H : gmap loc control_block) (m : gmap name handle)
    (x : name) (h : handle) :
  (∀ y k b, m !! y = Some k → block k = Some b → is_Some (H !! b)) →
  (∀ b, block h = Some b → is_Some (H !! b)) →
  ∀ y k b, <[ x := h ]> m !! y = Some k → block k = Some b → is_Some (H !! b).
Proof.
  intros Hm Hh y k b. destruct (decide (x = y)) as [->|Hne].
  - rewrite lookup_insert_eq. intros [= <-]. apply Hh.
  - rewrite lookup_insert_ne by done. apply Hm.
Qed.

Lemma delete_alloc (H : gmap loc control_block) (m : gmap name handle)
    (x : name) :
  (∀ y k b, m !! y = Some k → block k = Some b → is_Some (H !! b)) →
  ∀ y k b, delete x m !! y = Some k → block k = Some b → is_Some (H !! b).
Proof.
  intros Hm y k b Hy. apply lookup_delete_Some in Hy as [_ Hy]. by eapply Hm.
Qed.

(** The address of a handle changes. *)
Lemma sound_readdress_s (H : gmap loc control_block) (S W : gmap name handle)
    (x : name) (h : handle) (p : addr) :
  sound H S W → S !! x = Some h →
  sound H (<[ x := mk_handle (block h) p ]> S) W.
Proof.
  intros Hs Hx. eapply sound_recount_s; [done| |].
  - intros b. pose proof (holders_insert b x (mk_handle (block h) p) S) as Hi.
    rewrite Hx in Hi. unfold held in Hi. simpl in Hi. lia.
  - apply insert_alloc; [apply Hs|]. simpl. intros b Hb.
    destruct Hs as (_ & Hs & _). by eapply Hs.
Qed.

Lemma sound_readdress_w (H : gmap loc control_block) (S W : gmap name handle)
    (x : name) (h : handle) (p : addr) :
  sound H S W → W !! x = Some h →
  sound H S (<[ x := mk_handle (block h) p ]> W).
Proof.
  intros Hs Hx. eapply sound_recount_w; [done| |].
  - intros b. pose proof (holders_insert b x (mk_handle (block h) p) W) as Hi.
    rewrite Hx in Hi. unfold held in Hi. simpl in Hi. lia.
  - apply insert_alloc; [apply Hs|]. simpl. intros b Hb.
    destruct Hs as (_ & _ & Hs). by eapply Hs.
Qed.

(** A name that holds no block is given a handle without a block, or is
    given up. *)
Lemma sound_put_empty_s (H : gmap loc control_block) (S W : gmap name handle)
    (x : name) (p : addr) :
  sound H S W → vacant S x → sound H (<[ x := mk_handle None p ]> S) W.
Proof.
  intros Hs Hx. eapply sound_recount_s; [done| |].
  - intros b. pose proof (holders_insert b x (mk_handle None p) S) as Hi.
    rewrite held_vacant, held_None in Hi by done. lia.
  - apply insert_alloc; [apply Hs|]. done.
Qed.

Lemma sound_put_empty_w (H : gmap loc control_block) (S W : gmap name handle)
    (x : name) (p : addr) :
  sound H S W → vacant W x → sound H S (<[ x := mk_handle None p ]> W).
Proof.
  intros Hs Hx. eapply sound_recount_w; [done| |].
  - intros b. pose proof (holders_insert b x (mk_handle None p) W) as Hi.
    rewrite held_vacant, held_None in Hi by done. lia.
  - apply insert_alloc; [apply Hs|]. done.
Qed.

Lemma sound_forget_s (H : gmap loc control_block) (S W : gmap name handle)
    (x : name) :
  sound H S W → vacant S x → sound H (delete x S) W.
Proof.
  intros Hs Hx. eapply sound_recount_s; [done| |].
  - intros b. pose proof (holders_delete b x S) as Hi.
    rewrite held_vacant in Hi by done. lia.
  - apply delete_alloc, Hs.
Qed.

Lemma sound_forget_w (H : gmap loc control_block) (S W : gmap name handle)
    (x : name) :
  sound H S W → vacant W x → sound H S (delete x W).
Proof.
  intros Hs Hx. eapply sound_recount_w; [done| |].
  - intros b. pose proof (holders_delete b x W) as Hi.
    rewrite held_vacant in Hi by done. lia.
  - apply delete_alloc, Hs.
Qed.

(** The members of [r] go to a name that holds no block, and [r] is left
    without a block. *)
Lemma sound_move_s (H : gmap loc control_block) (S W : gmap name handle)
    (x r : name) (hr : handle) (p q : addr) :
  sound H S W → S !! r = Some hr → vacant S x → x ≠ r →
  sound H (<[ x := mk_handle (block hr) p ]> (<[ r := mk_handle None q ]> S)) W.
Proof.
  intros Hs Hr Hx Hne. eapply sound_recount_s; [done| |].
  - intros b.
    pose proof (holders_insert b x (mk_handle (block hr) p)
                  (<[ r := mk_handle None q ]> S)) as Hi.
    pose proof (holders_insert b r (mk_handle None q) S) as Hj.
    rewrite lookup_insert_ne in Hi by done.
    rewrite held_vacant in Hi by done. rewrite Hr, held_None in Hj.
    unfold held in *. simpl in *. lia.
  - apply insert_alloc; [apply insert_alloc; [apply Hs|done]|].
    simpl. intros b Hb. destruct Hs as (_ & Hs & _). by eapply Hs.
Qed.

Lemma sound_move_w (H : gmap loc control_block) (S W : gmap name handle)
    (x r : name) (hr : handle) (p q : addr) :
  sound H S W → W !! r = Some hr → vacant W x → x ≠ r →
  sound H S (<[ x := mk_handle (block hr) p ]> (<[ r := mk_handle None q ]> W)).
Proof.
  intros Hs Hr Hx Hne. eapply sound_recount_w; [done| |].
  - intros b.
    pose proof (holders_insert b x (mk_handle (block hr) p)
                  (<[ r := mk_handle None q ]> W)) as Hi.
    pose proof (holders_insert b r (mk_handle None q) W) as Hj.
    rewrite lookup_insert_ne in Hi by done.
    rewrite held_vacant in Hi by done. rewrite Hr, held_None in Hj.
    unfold held in *. simpl in *. lia.
  - apply insert_alloc; [apply insert_alloc; [apply Hs|done]|].
    simpl. intros b Hb. destruct Hs as (_ & _ & Hs). by eapply Hs.
Qed.

Lemma unheld_s (H : gmap loc control_block) (S W : gmap name handle) (b : loc) :
  sound H S W → H !! b = None → holders b S = 0%nat ∧ holders b W = 0%nat.
Proof.
  intros (_ & Hs & Hw) Hb. split; apply holders_none; intros x h Hx Hh.
  - destruct (Hs x h b Hx Hh) as [cb Hcb]. congruence.
  - destruct (Hw x h b Hx Hh) as [cb Hcb]. congruence.
Qed.

Ltac recount b' b :=
  destruct (decide (b' = b)) as [->|?];
  [ rewrite ?lookup_insert_eq, ?lookup_delete_eq
  | rewrite ?lookup_insert_ne, ?lookup_delete_ne by done ].

(** A name that holds no block becomes one more owner of an allocated
    block. *)
Lemma sound_clone_s (H : gmap loc control_block) (S W : gmap name handle)
    (x : name) (b : loc) (cb : control_block) (p : addr) :
  sound H S W → H !! b = Some cb → ref cb < SIZE_MAX → vacant S x →
  sound (<[ b := set_ref (ref cb + 1) cb ]> H)
        (<[ x := mk_handle (Some b) p ]> S) W.
Proof.
  intros (Hc & Hs & Hw) Hb Hmax Hx. split; [|split].
  - intros b' cb'.
    pose proof (holders_insert b' x (mk_handle (Some b) p) S) as Hi.
    rewrite held_vacant, held_Some in Hi by done.
    recount b' b.
    + intros [= <-]. simpl. destruct (Hc b cb Hb) as (? & ? & ? & ? & ?).
      rewrite decide_True in Hi by done. repeat split; try done; lia.
    + intros Hb'. destruct (Hc b' cb' Hb') as (? & ? & ? & ? & ?).
      rewrite decide_False in Hi by done. repeat split; try done; lia.
  - apply insert_alloc.
    + intros y k b' Hy Hk. apply lookup_insert_is_Some'. right. by eapply Hs.
    + simpl. intros ? [= <-]. by rewrite lookup_insert_eq.
  - intros y k b' Hy Hk. apply lookup_insert_is_Some'. right. by eapply Hw.
Qed.

Lemma sound_clone_w (H : gmap loc control_block) (S W : gmap name handle)
    (x : name) (b : loc) (cb : control_block) (p : addr) :
  sound H S W → H !! b = Some cb → wref cb < SIZE_MAX → vacant W x →
  sound (<[ b := set_wref (wref cb + 1) cb ]> H) S
        (<[ x := mk_handle (Some b) p ]> W).
Proof.
  intros (Hc & Hs & Hw) Hb Hmax Hx. split; [|split].
  - intros b' cb'.
    pose proof (holders_insert b' x (mk_handle (Some b) p) W) as Hi.
    rewrite held_vacant, held_Some in Hi by done.
    recount b' b.
    + intros [= <-]. simpl. destruct (Hc b cb Hb) as (? & ? & ? & ? & ?).
      rewrite decide_True in Hi by done. repeat split; try done; lia.
    + intros Hb'. destruct (Hc b' cb' Hb') as (? & ? & ? & ? & ?).
      rewrite decide_False in Hi by done. repeat split; try done; lia.
  - intros y k b' Hy Hk. apply lookup_insert_is_Some'. right. by eapply Hs.
  - apply insert_alloc.
    + intros y k b' Hy Hk. apply lookup_insert_is_Some'. right. by eapply Hw.
    + simpl. intros ? [= <-]. by rewrite lookup_insert_eq.
Qed.

(** A name that holds no block becomes the only owner of a new block. *)
Lemma sound_fresh_s (H : gmap loc control_block) (S W : gmap name handle)
    (x : name) (b : loc) (v : variant) (p : addr) :
  sound H S W → H !! b = None → vacant S x →
  sound (<[ b := control_block.init v ]> H)
        (<[ x := mk_handle (Some b) p ]> S) W.
Proof.
  intros Hsound Hb Hx. destruct (unheld_s H S W b Hsound Hb) as [Hbs Hbw].
  destruct Hsound as (Hc & Hs & Hw). pose proof SIZE_MAX_pos.
  split; [|split].
  - intros b' cb'.
    pose proof (holders_insert b' x (mk_handle (Some b) p) S) as Hi.
    rewrite held_vacant, held_Some in Hi by done.
    recount b' b.
    + intros [= <-]. simpl. rewrite decide_True in Hi by done.
      repeat split; try lia.
    + intros Hb'. destruct (Hc b' cb' Hb') as (? & ? & ? & ? & ?).
      rewrite decide_False in Hi by done. repeat split; try done; lia.
  - apply insert_alloc.
    + intros y k b' Hy Hk. apply lookup_insert_is_Some'. right. by eapply Hs.
    + simpl. intros ? [= <-]. by rewrite lookup_insert_eq.
  - intros y k b' Hy Hk. apply lookup_insert_is_Some'. right. by eapply Hw.
Qed.

(** An owner lets go of its block: [dec] runs and the handle is left without
    a block. *)
Lemma sound_drop_s (H : gmap loc control_block) (S W : gmap name handle)
    (x : name) (h : handle) (b : loc) (cb : control_block) (p : addr) :
  sound H S W → S !! x = Some h → block h = Some b → H !! b = Some cb →
  sound (heap_dec b cb H) (<[ x := mk_handle None p ]> S) W.
Proof.
  intros (Hc & Hs & Hw) Hx Hh Hb.
  destruct (Hc b cb Hb) as (Hr & Hwr & Hpos & Hrmax & Hwmax).
  pose proof (holders_insert b x (mk_handle None p) S) as Hi.
  rewrite Hx, held_None in Hi. unfold held in Hi.
  rewrite decide_True in Hi by done.
  assert (∀ b', b' ≠ b →
            holders b' (<[ x := mk_handle None p ]> S) = holders b' S) as Hother.
  { intros b' Hne. pose proof (holders_insert b' x (mk_handle None p) S) as Hj.
    rewrite Hx, held_None in Hj. unfold held in Hj.
    rewrite decide_False in Hj by congruence. lia. }
  assert (∀ y k b', <[ x := mk_handle None p ]> S !! y = Some k →
            block k = Some b' → is_Some (H !! b')) as Hs'.
  { apply insert_alloc; done. }
  unfold heap_dec. repeat case_decide.
  - (* the last owner, nothing observes the block *)
    assert (holders b (<[ x := mk_handle None p ]> S) = 0%nat) as Hzs by lia.
    assert (holders b W = 0%nat) as Hzw by lia.
    split; [|split].
    + intros b' cb'. recount b' b; [done|]. intros Hb'.
      rewrite Hother by done. by apply Hc.
    + intros y k b' Hy Hk. destruct (decide (b' = b)) as [->|Hne].
      * by destruct (holders_zero b y k _ Hzs Hy).
      * rewrite lookup_delete_ne by done. by eapply Hs'.
    + intros y k b' Hy Hk. destruct (decide (b' = b)) as [->|Hne].
      * by destruct (holders_zero b y k _ Hzw Hy).
      * rewrite lookup_delete_ne by done. by eapply Hw.
  - (* the last owner, observers remain *)
    split; [|split].
    + intros b' cb'. recount b' b.
      * intros [= <-]. simpl. repeat split; try done; lia.
      * intros Hb'. rewrite Hother by done. by apply Hc.
    + intros y k b' Hy Hk. apply lookup_insert_is_Some'. right. by eapply Hs'.
    + intros y k b' Hy Hk. apply lookup_insert_is_Some'. right. by eapply Hw.
  - (* other owners remain *)
    split; [|split].
    + intros b' cb'. recount b' b.
      * intros [= <-]. simpl. repeat split; try done; lia.
      * intros Hb'. rewrite Hother by done. by apply Hc.
    + intros y k b' Hy Hk. apply lookup_insert_is_Some'. right. by eapply Hs'.
    + intros y k b' Hy Hk. apply lookup_insert_is_Some'. right. by eapply Hw.
Qed.

(** An observer lets go of its block: [wdec] runs and the handle is left
    without a block. *)
Lemma sound_drop_w (H : gmap loc control_block) (S W : gmap name handle)
    (x : name) (h : handle) (b : loc) (cb : control_block) (p : addr) :
  sound H S W → W !! x = Some h → block h = Some b → H !! b = Some cb →
  sound (heap_wdec b cb H) S (<[ x := mk_handle None p ]> W).
Proof.
  intros (Hc & Hs & Hw) Hx Hh Hb.
  destruct (Hc b cb Hb) as (Hr & Hwr & Hpos & Hrmax & Hwmax).
  pose proof (holders_insert b x (mk_handle None p) W) as Hi.
  rewrite Hx, held_None in Hi. unfold held in Hi.
  rewrite decide_True in Hi by done.
  assert (∀ b', b' ≠ b →
            holders b' (<[ x := mk_handle None p ]> W) = holders b' W) as Hother.
  { intros b' Hne. pose proof (holders_insert b' x (mk_handle None p) W) as Hj.
    rewrite Hx, held_None in Hj. unfold held in Hj.
    rewrite decide_False in Hj by congruence. lia. }
  assert (∀ y k b', <[ x := mk_handle None p ]> W !! y = Some k →
            block k = Some b' → is_Some (H !! b')) as Hw'.
  { apply insert_alloc; done. }
  unfold heap_wdec. case_decide as Hlast.
  - (* the last observer of a block without owner *)
    destruct Hlast as [Hw1 Hr0].
    assert (holders b (<[ x := mk_handle None p ]> W) = 0%nat) as Hzw by lia.
    assert (holders b S = 0%nat) as Hzs by lia.
    split; [|split].
    + intros b' cb'. recount b' b; [done|]. intros Hb'.
      rewrite Hother by done. by apply Hc.
    + intros y k b' Hy Hk. destruct (decide (b' = b)) as [->|Hne].
      * by destruct (holders_zero b y k _ Hzs Hy).
      * rewrite lookup_delete_ne by done. by eapply Hs.
    + intros y k b' Hy Hk. destruct (decide (b' = b)) as [->|Hne].
      * by destruct (holders_zero b y k _ Hzw Hy).
      * rewrite lookup_delete_ne by done. by eapply Hw'.
  - split; [|split].
    + intros b' cb'. recount b' b.
      * intros [= <-]. simpl. repeat split; try done; lia.
      * intros Hb'. rewrite Hother by done. by apply Hc.
    + intros y k b' Hy Hk. apply lookup_insert_is_Some'. right. by eapply Hs.
    + intros y k b' Hy Hk. apply lookup_insert_is_Some'. right. by eapply Hw'.
Qed.

Lemma vacant_free (m : gmap name handle) (x : name) :
  m !! x = None → vacant m x.
Proof. unfold vacant. intros ->. done. Qed.

Lemma vacant_null (m : gmap name handle) (x : name) (h : handle) :
  m !! x = Some h → block h = None → vacant m x.
Proof. unfold vacant. intros -> Hb k [= <-]. done. Qed.

Lemma vacant_insert_null (m : gmap name handle) (x : name) (p : addr) :
  vacant (<[ x := mk_handle None p ]> m) x.
Proof. unfold vacant. rewrite lookup_insert_eq. by intros k [= <-]. Qed.

Lemma vacant_held_block (m : gmap name handle) (x : name) :
  held_block m x = None → vacant m x.
Proof.
  unfold held_block, vacant. destruct (m !! x) as [h|]; simpl; [|done].
  by intros Hb k [= <-].
Qed.

Lemma heap_dec_insert_ne (b o : loc) (cb c : control_block)
    (H : gmap loc control_block) :
  o ≠ b → heap_dec o cb (<[ b := c ]> H) = <[ b := c ]> (heap_dec o cb H).
Proof.
  intros Hne. unfold heap_dec. repeat case_decide.
  - by rewrite delete_insert_ne.
  - by rewrite insert_insert_ne.
  - by rewrite insert_insert_ne.
Qed.

Lemma heap_wdec_insert_ne (b o : loc) (cb c : control_block)
    (H : gmap loc control_block) :
  o ≠ b → heap_wdec o cb (<[ b := c ]> H) = <[ b := c ]> (heap_wdec o cb H).
Proof.
  intros Hne. unfold heap_wdec. case_decide.
  - by rewrite delete_insert_ne.
  - by rewrite insert_insert_ne.
Qed.

Lemma heap_dec_lookup_ne (b o : loc) (cb : control_block)
    (H : gmap loc control_block) :
  o ≠ b → heap_dec o cb H !! b = H !! b.
Proof.
  intros Hne. unfold heap_dec. repeat case_decide.
  - by rewrite lookup_delete_ne.
  - by rewrite lookup_insert_ne.
  - by rewrite lookup_insert_ne.
Qed.

Lemma heap_wdec_lookup_ne (b o : loc) (cb : control_block)
    (H : gmap loc control_block) :
  o ≠ b → heap_wdec o cb H !! b = H !! b.
Proof.
  intros Hne. unfold heap_wdec. case_decide.
  - by rewrite lookup_delete_ne.
  - by rewrite lookup_insert_ne.
Qed.

(** The name [x] lets go of the block it holds, if any, and takes the block
    reference [new], whose count was incremented first. *)
Lemma sound_exchange_s (H : gmap loc control_block) (S W : gmap name handle)
    (x : name) (new : option loc) (p : addr) :
  sound H S W →
  (∀ b, new = Some b → ∃ cb, H !! b = Some cb ∧ ref cb < SIZE_MAX) →
  sound (release (held_block S x) (acquire new H))
        (<[ x := mk_handle new p ]> S) W.
Proof.
  intros Hsound Hnew. unfold held_block.
  destruct new as [b|]; simpl.
  - destruct (Hnew b eq_refl) as (cb & Hb & Hmax). rewrite Hb.
    destruct (S !! x) as [h|] eqn:Hx; simpl;
      [destruct (block h) as [o|] eqn:Ho; simpl|].
    + destruct (decide (o = b)) as [->|Hne].
      * rewrite lookup_insert_eq. unfold heap_dec. simpl.
        destruct Hsound as (Hc & Hs & Hw).
        destruct (Hc b cb Hb) as (Hr & _).
        pose proof (holders_pos b x h S Hx Ho).
        rewrite decide_False by lia.
        replace (ref cb + 1 - 1) with (ref cb) by lia.
        rewrite set_ref_twice, set_ref_ref, insert_insert_eq.
        rewrite (insert_id H b cb Hb). rewrite <- Ho.
        by apply sound_readdress_s.
      * rewrite lookup_insert_ne by done.
        destruct (proj1 (proj2 Hsound) x h o Hx Ho) as [cbo Hcbo].
        rewrite Hcbo. rewrite heap_dec_insert_ne by done.
        rewrite <- (insert_insert_eq S x (mk_handle (Some b) p)
                      (mk_handle None p)).
        apply sound_clone_s; try done.
        -- by eapply sound_drop_s.
        -- by rewrite heap_dec_lookup_ne.
        -- apply vacant_insert_null.
    + apply sound_clone_s; try done. by eapply vacant_null.
    + apply sound_clone_s; try done. by apply vacant_free.
  - destruct (S !! x) as [h|] eqn:Hx; simpl;
      [destruct (block h) as [o|] eqn:Ho; simpl|].
    + destruct (proj1 (proj2 Hsound) x h o Hx Ho) as [cbo Hcbo].
      rewrite Hcbo. by eapply sound_drop_s.
    + apply sound_put_empty_s; try done. by eapply vacant_null.
    + apply sound_put_empty_s; try done. by apply vacant_free.
Qed.

Lemma sound_exchange_w (H : gmap loc control_block) (S W : gmap name handle)
    (x : name) (new : option loc) (p : addr) :
  sound H S W →
  (∀ b, new = Some b → ∃ cb, H !! b = Some cb ∧ wref cb < SIZE_MAX) →
  sound (wrelease (held_block W x) (wacquire new H)) S
        (<[ x := mk_handle new p ]> W).
Proof.
  intros Hsound Hnew. unfold held_block.
  destruct new as [b|]; simpl.
  - destruct (Hnew b eq_refl) as (cb & Hb & Hmax). rewrite Hb.
    destruct (W !! x) as [h|] eqn:Hx; simpl;
      [destruct (block h) as [o|] eqn:Ho; simpl|].
    + destruct (decide (o = b)) as [->|Hne].
      * rewrite lookup_insert_eq. unfold heap_wdec. simpl.
        destruct Hsound as (Hc & Hs & Hw).
        destruct (Hc b cb Hb) as (_ & Hr & _).
        pose proof (holders_pos b x h W Hx Ho).
        rewrite decide_False by lia.
        replace (wref cb + 1 - 1) with (wref cb) by lia.
        rewrite set_wref_twice, set_wref_wref, insert_insert_eq.
        rewrite (insert_id H b cb Hb). rewrite <- Ho.
        by apply sound_readdress_w.
      * rewrite lookup_insert_ne by done.
        destruct (proj2 (proj2 Hsound) x h o Hx Ho) as [cbo Hcbo].
        rewrite Hcbo. rewrite heap_wdec_insert_ne by done.
        rewrite <- (insert_insert_eq W x (mk_handle (Some b) p)
                      (mk_handle None p)).
        apply sound_clone_w; try done.
        -- by eapply sound_drop_w.
        -- by rewrite heap_wdec_lookup_ne.
        -- apply vacant_insert_null.
    + apply sound_clone_w; try done. by eapply vacant_null.
    + apply sound_clone_w; try done. by apply vacant_free.
  - destruct (W !! x) as [h|] eqn:Hx; simpl;
      [destruct (block h) as [o|] eqn:Ho; simpl|].
    + destruct (proj2 (proj2 Hsound) x h o Hx Ho) as [cbo Hcbo].
      rewrite Hcbo. by eapply sound_drop_w.
    + apply sound_put_empty_w; try done. by eapply vacant_null.
    + apply sound_put_empty_w; try done. by apply vacant_free.
Qed.

(** ** The members, by their effect on the state *)

Lemma dec_Ok (b : loc) (cb : control_block) (w : world) :
  heap w !! b = Some cb → 0 < ref cb ≤ SIZE_MAX →
  control_block.dec b w
  = Ok tt (set_trace (λ t, t ++ trace_dec b cb)
            (set_heap (heap_dec b cb) w)).
Proof.
  intros Hb Hr. unfold trace_dec, heap_dec.
  destruct (decide (ref cb = 1)) as [H1|H1].
  - destruct (decide (wref cb = 0)) as [H0|H0].
    + apply dec_Ok_last; [done| |done]. by rewrite H1.
    + rewrite app_nil_r. apply dec_Ok_last_strong; [done| |done]. by rewrite H1.
  - rewrite <- (wrap_small (ref cb - 1)) by lia.
    apply dec_Ok_more; [done|]. rewrite wrap_small by lia. lia.
Qed.

Lemma wdec_Ok (b : loc) (cb : control_block) (w : world) :
  heap w !! b = Some cb → 0 < wref cb ≤ SIZE_MAX →
  control_block.wdec b w
  = Ok tt (set_trace (λ t, t ++ trace_wdec b cb)
            (set_heap (heap_wdec b cb) w)).
Proof.
  intros Hb Hr. unfold trace_wdec, heap_wdec.
  destruct (decide (wref cb = 1 ∧ ref cb = 0)) as [[H1 H0]|H1].
  - apply (wdec_Ok_last b cb); [done| |done]. by rewrite H1.
  - rewrite <- (wrap_small (wref cb - 1)) by lia.
    apply wdec_Ok_more; [done|]. rewrite wrap_small by lia. lia.
Qed.

Lemma opt_inc_state (ob : option loc) (w : world) :
  can_inc (heap w) ob →
  ∃ w' : world,
    match ob with
    | Some b' => control_block.inc b'
    | None => mret tt
    end w = Ok tt w'
    ∧ state w' = (acquire ob (heap w), shared w, weak w)
    ∧ avail w' = avail w.
Proof.
  intros Hob. destruct ob as [b|]; [|by exists w].
  destruct (Hob b eq_refl) as (cb & Hb & Hr).
  eexists. split; [by apply (inc_Ok b cb)|]. unfold state. simpl.
  rewrite Hb, wrap_small by lia. done.
Qed.

Lemma opt_dec_state (ob : option loc) (w : world) :
  can_dec (heap w) ob →
  ∃ w' : world,
    match ob with
    | Some b' => control_block.dec b'
    | None => mret tt
    end w = Ok tt w'
    ∧ state w' = (release ob (heap w), shared w, weak w)
    ∧ avail w' = avail w.
Proof.
  intros Hob. destruct ob as [b|]; [|by exists w].
  destruct (Hob b eq_refl) as (cb & Hb & Hr).
  eexists. split; [by apply (dec_Ok b cb)|]. unfold state. simpl.
  by rewrite Hb.
Qed.

Lemma opt_winc_state (ob : option loc) (w : world) :
  can_winc (heap w) ob →
  ∃ w' : world,
    match ob with
    | Some b' => control_block.winc b'
    | None => mret tt
    end w = Ok tt w'
    ∧ state w' = (wacquire ob (heap w), shared w, weak w)
    ∧ avail w' = avail w.
Proof.
  intros Hob. destruct ob as [b|]; [|by exists w].
  destruct (Hob b eq_refl) as (cb & Hb & Hr).
  eexists. split; [by apply (winc_Ok b cb)|]. unfold state. simpl.
  rewrite Hb, wrap_small by lia. done.
Qed.

Lemma opt_wdec_state (ob : option loc) (w : world) :
  can_wdec (heap w) ob →
  ∃ w' : world,
    match ob with
    | Some b' => control_block.wdec b'
    | None => mret tt
    end w = Ok tt w'
    ∧ state w' = (wrelease ob (heap w), shared w, weak w)
    ∧ avail w' = avail w.
Proof.
  intros Hob. destruct ob as [b|]; [|by exists w].
  destruct (Hob b eq_refl) as (cb & Hb & Hr).
  eexists. split; [by apply (wdec_Ok b cb)|]. unfold state. simpl.
  by rewrite Hb.
Qed.

Lemma bind_Ok_ex {A B} (m : M A) (f : A → M B) (w w1 : world) (a : A) (r : B)
    (P : world → Prop) :
  m w = Ok a w1 →
  (∃ w', f a w1 = Ok r w' ∧ P w') →
  ∃ w', (m ≫= f) w = Ok r w' ∧ P w'.
Proof.
  intros Hm (w' & Hf & HP). exists w'. split; [|done].
  by rewrite (bind_Ok _ _ _ _ _ Hm).
Qed.

Lemma noexcept_Ok_ex {A} (m : M A) (w : world) (r : A) (P : world → Prop) :
  (∃ w', m w = Ok r w' ∧ P w') → ∃ w', noexcept m w = Ok r w' ∧ P w'.
Proof.
  intros (w' & Hm & HP). exists w'. split; [|done]. by apply noexcept_Ok.
Qed.

(** Rewrites the components of the worlds met so far to what is known of
    them. *)
Ltac known :=
  simpl;
  repeat match goal with
         | H : heap _ = _ |- _ => rewrite H
         | H : shared _ = _ |- _ => rewrite H
         | H : weak _ = _ |- _ => rewrite H
         | H : avail _ = _ |- _ => rewrite H
         end;
  simpl.

Ltac known_lookup :=
  known;
  repeat first [ rewrite lookup_insert_eq | rewrite lookup_insert_ne by done ];
  first [ eassumption | reflexivity ].

Ltac run_known :=
  first
    [ eapply sp_field_Ok; known_lookup
    | eapply sp_set_block_Ok; known_lookup
    | eapply sp_set_ptr_Ok; known_lookup
    | eapply wp_field_Ok; known_lookup
    | eapply wp_set_block_Ok; known_lookup
    | eapply wp_set_ptr_Ok; known_lookup
    | reflexivity ].

(** Runs the first call of a sequence under an existential conclusion. *)
Ltac step := eapply bind_Ok_ex; [ run_known | cbv beta ].

(** Runs a first call whose effect on the state a lemma [lem] gives; the
    premises of the lemma are left to the caller when [known] does not close
    them. *)
Ltac step_count lem ob :=
  match goal with
  | |- ∃ w', (_ ≫= _) ?w0 = _ ∧ _ =>
      let w1 := fresh "w" in
      let Hrun := fresh "Hrun" in
      let Hst := fresh "Hst" in
      let Hav := fresh "Hav" in
      destruct (lem ob w0) as (w1 & Hrun & Hst & Hav);
      [ known ..
      | injection Hst as ? ? ?;
        eapply bind_Ok_ex; [ exact Hrun | cbv beta ] ]
  end.

Ltac last_count lem ob :=
  match goal with
  | |- ∃ w', _ ?w0 = _ ∧ _ =>
      let w1 := fresh "w" in
      let Hrun := fresh "Hrun" in
      let Hst := fresh "Hst" in
      let Hav := fresh "Hav" in
      destruct (lem ob w0) as (w1 & Hrun & Hst & Hav);
      [ known ..
      | injection Hst as ? ? ?;
        exists w1; split; [ exact Hrun | ] ]
  end.

Lemma sp_dec_state (x : name) (h : handle) (w : world) :
  shared w !! x = Some h → can_dec (heap w) (block h) →
  ∃ w' : world,
    shared_ptr.dec x w = Ok tt w'
    ∧ (state w' = (release (block h) (heap w), shared w, weak w)
       ∧ avail w' = avail w).
Proof.
  intros Hx Hdec. unfold shared_ptr.dec. step.
  last_count opt_dec_state (block h); [done|].
  unfold state. by known.
Qed.

Lemma wp_wdec_state (x : name) (h : handle) (w : world) :
  weak w !! x = Some h → can_wdec (heap w) (block h) →
  ∃ w' : world,
    weak_ptr.wdec x w = Ok tt w'
    ∧ (state w' = (wrelease (block h) (heap w), shared w, weak w)
       ∧ avail w' = avail w).
Proof.
  intros Hx Hdec. unfold weak_ptr.wdec. step.
  last_count opt_wdec_state (block h); [done|].
  unfold state. by known.
Qed.

Lemma sp_assign_copy_state (x r : name) (hx hr : handle) (w : world) :
  shared w !! x = Some hx → shared w !! r = Some hr →
  can_inc (heap w) (block hr) →
  can_dec (acquire (block hr) (heap w)) (block hx) →
  ∃ w' : world,
    shared_ptr.assign_copy x r w = Ok tt w'
    ∧ (state w'
       = (release (block hx) (acquire (block hr) (heap w)),
          <[ x := mk_handle (block hr) (ptr hr) ]> (shared w), weak w)
       ∧ avail w' = avail w).
Proof.
  intros Hx Hr Hinc Hdec. unfold shared_ptr.assign_copy.
  step. step. step. step.
  step_count opt_inc_state (block hr); [done|].
  destruct (decide (x = r)) as [->|Hne].
  - assert (hx = hr) as -> by congruence.
    step. step. last_count opt_dec_state (block hr); [done|].
    unfold state. known. by rewrite insert_insert_eq.
  - step. step. last_count opt_dec_state (block hx); [done|].
    unfold state. known. by rewrite insert_insert_eq.
Qed.

Lemma wp_assign_copy_state (x r : name) (hx hr : handle) (w : world) :
  weak w !! x = Some hx → weak w !! r = Some hr →
  can_winc (heap w) (block hr) →
  can_wdec (wacquire (block hr) (heap w)) (block hx) →
  ∃ w' : world,
    weak_ptr.assign_copy x r w = Ok tt w'
    ∧ (state w'
       = (wrelease (block hx) (wacquire (block hr) (heap w)),
          shared w, <[ x := mk_handle (block hr) (ptr hr) ]> (weak w))
       ∧ avail w' = avail w).
Proof.
  intros Hx Hr Hinc Hdec. unfold weak_ptr.assign_copy.
  step. step. step. step.
  step_count opt_winc_state (block hr); [done|].
  destruct (decide (x = r)) as [->|Hne].
  - assert (hx = hr) as -> by congruence.
    step. step. last_count opt_wdec_state (block hr); [done|].
    unfold state. known. by rewrite insert_insert_eq.
  - step. step. last_count opt_wdec_state (block hx); [done|].
    unfold state. known. by rewrite insert_insert_eq.
Qed.

Lemma sp_assign_move_state (x r : name) (hx hr : handle) (w : world) :
  shared w !! x = Some hx → shared w !! r = Some hr →
  block hx ≠ block hr →
  can_dec (heap w) (block hx) →
  ∃ w' : world,
    shared_ptr.assign_move x r w = Ok tt w'
    ∧ (state w'
       = (release (block hx) (heap w),
          <[ r := mk_handle None nullptr ]>
            (<[ x := mk_handle (block hr) (ptr hr) ]> (shared w)),
          weak w)
       ∧ avail w' = avail w).
Proof.
  intros Hx Hr Hne Hdec. unfold shared_ptr.assign_move.
  assert (x ≠ r) as Hxr by (intros ->; congruence).
  step. step. rewrite decide_False by done.
  step_count (sp_dec_state x) hx; [done..|].
  step. step. step. step. step.
  eexists. split; [run_known|].
  unfold state. known.
  rewrite (insert_insert_eq (shared w)). by rewrite insert_insert_eq.
Qed.

Lemma wp_assign_move_state (x r : name) (hx hr : handle) (w : world) :
  weak w !! x = Some hx → weak w !! r = Some hr →
  block hx ≠ block hr →
  can_wdec (heap w) (block hx) →
  ∃ w' : world,
    weak_ptr.assign_move x r w = Ok tt w'
    ∧ (state w'
       = (wrelease (block hx) (heap w), shared w,
          <[ r := mk_handle None nullptr ]>
            (<[ x := mk_handle (block hr) (ptr hr) ]> (weak w)))
       ∧ avail w' = avail w).
Proof.
  intros Hx Hr Hne Hdec. unfold weak_ptr.assign_move.
  assert (x ≠ r) as Hxr by (intros ->; congruence).
  step. step. rewrite decide_False by done.
  step_count (wp_wdec_state x) hx; [done..|].
  step. step. step. step. step.
  eexists. split; [run_known|].
  unfold state. known.
  rewrite (insert_insert_eq (weak w)). by rewrite insert_insert_eq.
Qed.

Lemma sp_dtor_state (x : name) (hx : handle) (w : world) :
  shared w !! x = Some hx → can_dec (heap w) (block hx) →
  ∃ w' : world,
    shared_ptr.dtor x w = Ok tt w'
    ∧ (state w' = (release (block hx) (heap w), delete x (shared w), weak w)
       ∧ avail w' = avail w).
Proof.
  intros Hx Hdec. unfold shared_ptr.dtor.
  step_count (sp_dec_state x) hx; [done..|].
  eexists. split; [reflexivity|]. unfold state. by known.
Qed.

Lemma wp_dtor_state (x : name) (hx : handle) (w : world) :
  weak w !! x = Some hx → can_wdec (heap w) (block hx) →
  ∃ w' : world,
    weak_ptr.dtor x w = Ok tt w'
    ∧ (state w' = (wrelease (block hx) (heap w), shared w, delete x (weak w))
       ∧ avail w' = avail w).
Proof.
  intros Hx Hdec. unfold weak_ptr.dtor.
  step. step_count opt_wdec_state (block hx); [done|].
  eexists. split; [reflexivity|]. unfold state. by known.
Qed.

Lemma sp_reset_state (x : name) (hx : handle) (w : world) :
  shared w !! x = Some hx → can_dec (heap w) (block hx) →
  ∃ w' : world,
    shared_ptr.reset x w = Ok tt w'
    ∧ (state w'
       = (release (block hx) (heap w),
          <[ x := mk_handle None nullptr ]> (shared w), weak w)
       ∧ avail w' = avail w).
Proof.
  intros Hx Hdec. unfold shared_ptr.reset.
  step_count (sp_dec_state x) hx; [done..|].
  step. eexists. split; [run_known|].
  unfold state. known. by rewrite insert_insert_eq.
Qed.

Lemma new_state (cb : control_block) (w : world) (n : nat) :
  avail w = S n →
  ∃ (b : loc) (w' : world),
    heap w !! b = None
    ∧ operator_new cb w = Ok b w'
    ∧ state w' = (<[ b := cb ]> (heap w), shared w, weak w)
    ∧ avail w' = n.
Proof.
  intros Hn. destruct (operator_new_fresh cb w n Hn) as (b & Hb & Hnew).
  by exists b, (set_avail n (set_heap (insert b cb) w)).
Qed.

(** Runs a first call that is a successful allocation. *)
Ltac step_new n :=
  match goal with
  | |- ∃ w', (operator_new ?cb ≫= _) ?w0 = _ ∧ _ =>
      let b := fresh "b" in
      let w1 := fresh "w" in
      let Hfresh := fresh "Hfresh" in
      let Hrun := fresh "Hrun" in
      let Hst := fresh "Hst" in
      let Hav := fresh "Hav" in
      destruct (new_state cb w0 n) as (b & w1 & Hfresh & Hrun & Hst & Hav);
      [ known; try done
      | injection Hst as ? ? ?;
        eapply bind_Ok_ex; [ exact Hrun | cbv beta ] ]
  end.

Lemma sp_reset_ptr_state (x : name) (p : addr) (hx : handle) (w : world)
    (n : nat) :
  shared w !! x = Some hx → can_dec (heap w) (block hx) → avail w = S n →
  ∃ w' : world,
    shared_ptr.reset_ptr x p w = Ok tt w'
    ∧ ∃ b : loc,
        release (block hx) (heap w) !! b = None
        ∧ state w'
          = (<[ b := control_block.init (default_control_block p) ]>
               (release (block hx) (heap w)),
             <[ x := mk_handle (Some b) p ]> (shared w), weak w)
        ∧ avail w' = n.
Proof.
  intros Hx Hdec Hn. unfold shared_ptr.reset_ptr.
  step_count (sp_dec_state x) hx; [done..|].
  step_new n. step.
  eexists. split; [run_known|]. exists b. split.
  - revert Hfresh. by known.
  - unfold state. known. by rewrite insert_insert_eq.
Qed.

Lemma sp_reset_ptr_deleter_state (x : name) (p : addr) (d : deleter)
    (hx : handle) (w : world) (n : nat) :
  shared w !! x = Some hx → can_dec (heap w) (block hx) → avail w = S n →
  ∃ w' : world,
    shared_ptr.reset_ptr_deleter x p d w = Ok tt w'
    ∧ ∃ b : loc,
        release (block hx) (heap w) !! b = None
        ∧ state w'
          = (<[ b := control_block.init (regular_control_block p d) ]>
               (release (block hx) (heap w)),
             <[ x := mk_handle (Some b) p ]> (shared w), weak w)
        ∧ avail w' = n.
Proof.
  intros Hx Hdec Hn. unfold shared_ptr.reset_ptr_deleter.
  step_count (sp_dec_state x) hx; [done..|].
  assert (∀ (m : M unit) (w0 : world) (P : world → Prop),
            (∃ w', m w0 = Ok tt w' ∧ P w') →
            ∃ w', try_catch m (emit (CallDeleter d p);; throw) w0 = Ok tt w'
                  ∧ P w') as Htry.
  { intros m w1 P (w' & Hm & HP). exists w'. split; [|done].
    unfold try_catch. by rewrite Hm. }
  apply Htry. step. step. step_new n. step.
  eexists. split; [run_known|]. exists b. split.
  - revert Hfresh. by known.
  - unfold state. known. by rewrite !insert_insert_eq.
Qed.

Lemma sp_ctor_copy_state (r : name) (hr : handle) (w : world) :
  shared w !! r = Some hr → can_inc (heap w) (block hr) →
  ∃ w' : world,
    shared_ptr.ctor_copy r w = Ok (mk_handle (block hr) (ptr hr)) w'
    ∧ (state w' = (acquire (block hr) (heap w), shared w, weak w)
       ∧ avail w' = avail w).
Proof.
  intros Hr Hinc. unfold shared_ptr.ctor_copy. apply noexcept_Ok_ex.
  step. step. step_count opt_inc_state (block hr); [done|].
  eexists. split; [reflexivity|]. unfold state. by known.
Qed.

Lemma sp_ctor_alias_state (s : name) (a : addr) (hs : handle) (w : world) :
  shared w !! s = Some hs → can_inc (heap w) (block hs) →
  ∃ w' : world,
    shared_ptr.ctor_alias s a w = Ok (mk_handle (block hs) a) w'
    ∧ (state w' = (acquire (block hs) (heap w), shared w, weak w)
       ∧ avail w' = avail w).
Proof.
  intros Hr Hinc. unfold shared_ptr.ctor_alias. apply noexcept_Ok_ex.
  step. step_count opt_inc_state (block hs); [done|].
  eexists. split; [reflexivity|]. unfold state. by known.
Qed.

Lemma sp_ctor_move_state (r : name) (hr : handle) (w : world) :
  shared w !! r = Some hr →
  ∃ w' : world,
    shared_ptr.ctor_move r w = Ok (mk_handle (block hr) (ptr hr)) w'
    ∧ (state w'
       = (heap w, <[ r := mk_handle None nullptr ]> (shared w), weak w)
       ∧ avail w' = avail w).
Proof.
  intros Hr. unfold shared_ptr.ctor_move. apply noexcept_Ok_ex.
  step. step. step. step.
  eexists. split; [reflexivity|]. unfold state. known.
  by rewrite insert_insert_eq.
Qed.

Lemma wp_ctor_shared_state (t : name) (ht : handle) (w : world) :
  shared w !! t = Some ht → can_winc (heap w) (block ht) →
  ∃ w' : world,
    weak_ptr.ctor_shared t w = Ok (mk_handle (block ht) (ptr ht)) w'
    ∧ (state w' = (wacquire (block ht) (heap w), shared w, weak w)
       ∧ avail w' = avail w).
Proof.
  intros Hr Hinc. unfold weak_ptr.ctor_shared.
  step. step. step_count opt_winc_state (block ht); [done|].
  eexists. split; [reflexivity|]. unfold state. by known.
Qed.

Lemma wp_ctor_copy_state (r : name) (hr : handle) (w : world) :
  weak w !! r = Some hr → can_winc (heap w) (block hr) →
  ∃ w' : world,
    weak_ptr.ctor_copy r w = Ok (mk_handle (block hr) (ptr hr)) w'
    ∧ (state w' = (wacquire (block hr) (heap w), shared w, weak w)
       ∧ avail w' = avail w).
Proof.
  intros Hr Hinc. unfold weak_ptr.ctor_copy. apply noexcept_Ok_ex.
  step. step. step_count opt_winc_state (block hr); [done|].
  eexists. split; [reflexivity|]. unfold state. by known.
Qed.

Lemma wp_ctor_move_state (r : name) (hr : handle) (w : world) :
  weak w !! r = Some hr →
  ∃ w' : world,
    weak_ptr.ctor_move r w = Ok (mk_handle (block hr) (ptr hr)) w'
    ∧ (state w'
       = (heap w, shared w, <[ r := mk_handle None nullptr ]> (weak w))
       ∧ avail w' = avail w).
Proof.
  intros Hr. unfold weak_ptr.ctor_move. apply noexcept_Ok_ex.
  step. step. step. step.
  eexists. split; [reflexivity|]. unfold state. known.
  by rewrite insert_insert_eq.
Qed.

(** The block reference that [lock] hands out: the one of the weak handle
    while the block has an owner, none otherwise. *)
Lemma wp_lock_state (this : handle) (w : world) :
  (∀ b, block this = Some b →
     ∃ cb, heap w !! b = Some cb ∧ 0 ≤ ref cb < SIZE_MAX) →
  ∃ (new : option loc) (w' : world),
    weak_ptr.lock this w
      = Ok (mk_handle new (match new with Some _ => ptr this | None => nullptr end)) w'
    ∧ (∀ b, new = Some b →
         block this = Some b ∧ ∃ cb, heap w !! b = Some cb ∧ 0 < ref cb)
    ∧ (new = None →
         ∀ b cb, block this = Some b → heap w !! b = Some cb → ref cb = 0)
    ∧ state w' = (acquire new (heap w), shared w, weak w)
    ∧ avail w' = avail w.
Proof.
  intros Hthis. unfold weak_ptr.lock, shared_ptr.ctor_nullptr,
    shared_ptr.ctor_default, shared_ptr.ctor_block.
  destruct (block this) as [b|] eqn:Hb.
  - destruct (Hthis b eq_refl) as (cb & Hcb & Hr).
    destruct (decide (ref cb = 0)) as [Hz|Hnz].
    + exists None, w. split; [|split; [|split]]; try done.
      * apply noexcept_Ok.
        rewrite (bind_Ok _ _ _ _ _ (use_count_Ok b cb w Hcb)).
        by rewrite decide_True.
      * intros _ b' cb' [= <-]. congruence.
    + exists (Some b). eexists. split; [|split; [|split]].
      * apply noexcept_Ok.
        rewrite (bind_Ok _ _ _ _ _ (use_count_Ok b cb w Hcb)).
        rewrite decide_False by done.
        rewrite (bind_Ok _ _ _ _ _ (inc_Ok b cb w Hcb)). reflexivity.
      * intros ? [= <-]. split; [done|]. exists cb. split; [done|lia].
      * done.
      * unfold state. simpl. rewrite Hcb, wrap_small by lia. done.
  - exists None, w. split; [|split; [|split]]; try done.
Qed.

Lemma sp_declare_state (x : name) (ctor : M handle) (h : handle) (w : world)
    (H : gmap loc control_block) (S W : gmap name handle) (n : nat) :
  (∃ w1, ctor w = Ok h w1 ∧ (state w1 = (H, S, W) ∧ avail w1 = n)) →
  ∃ w', shared_ptr.declare x ctor w = Ok tt w'
        ∧ (state w' = (H, <[ x := h ]> S, W) ∧ avail w' = n).
Proof.
  intros (w1 & Hc & Hst & Hav). injection Hst as ? ? ?.
  unfold shared_ptr.declare. eapply bind_Ok_ex; [exact Hc|].
  eexists. split; [reflexivity|]. unfold state. by known.
Qed.

Lemma wp_declare_state (x : name) (ctor : M handle) (h : handle) (w : world)
    (H : gmap loc control_block) (S W : gmap name handle) (n : nat) :
  (∃ w1, ctor w = Ok h w1 ∧ (state w1 = (H, S, W) ∧ avail w1 = n)) →
  ∃ w', weak_ptr.declare x ctor w = Ok tt w'
        ∧ (state w' = (H, S, <[ x := h ]> W) ∧ avail w' = n).
Proof.
  intros (w1 & Hc & Hst & Hav). injection Hst as ? ? ?.
  unfold weak_ptr.declare. eapply bind_Ok_ex; [exact Hc|].
  eexists. split; [reflexivity|]. unfold state. by known.
Qed.

(** ** Consistency of the state a member leaves *)

Lemma held_block_Some (m : gmap name handle) (x : name) (h : handle) :
  m !! x = Some h → held_block m x = block h.
Proof. unfold held_block. by intros ->. Qed.

Lemma held_block_free (m : gmap name handle) (x : name) :
  m !! x = None → held_block m x = None.
Proof. unfold held_block. by intros ->. Qed.

Lemma sound_end_s (H : gmap loc control_block) (S W : gmap name handle)
    (x : name) (hx : handle) :
  sound H S W → S !! x = Some hx →
  sound (release (block hx) H) (delete x S) W.
Proof.
  intros Hs Hx.
  pose proof (sound_exchange_s H S W x None nullptr Hs) as He.
  rewrite (held_block_Some S x hx Hx) in He. simpl in He.
  rewrite <- (delete_insert_eq S x (mk_handle None nullptr)).
  apply sound_forget_s; [|apply vacant_insert_null]. by apply He.
Qed.

Lemma sound_end_w (H : gmap loc control_block) (S W : gmap name handle)
    (x : name) (hx : handle) :
  sound H S W → W !! x = Some hx →
  sound (wrelease (block hx) H) S (delete x W).
Proof.
  intros Hs Hx.
  pose proof (sound_exchange_w H S W x None nullptr Hs) as He.
  rewrite (held_block_Some W x hx Hx) in He. simpl in He.
  rewrite <- (delete_insert_eq W x (mk_handle None nullptr)).
  apply sound_forget_w; [|apply vacant_insert_null]. by apply He.
Qed.

Lemma sound_reset_ptr_s (H : gmap loc control_block) (S W : gmap name handle)
    (x : name) (hx : handle) (b : loc) (v : variant) (p : addr) :
  sound H S W → S !! x = Some hx → release (block hx) H !! b = None →
  sound (<[ b := control_block.init v ]> (release (block hx) H))
        (<[ x := mk_handle (Some b) p ]> S) W.
Proof.
  intros Hs Hx Hb.
  pose proof (sound_exchange_s H S W x None nullptr Hs) as He.
  rewrite (held_block_Some S x hx Hx) in He. simpl in He.
  rewrite <- (insert_insert_eq S x (mk_handle (Some b) p)
                (mk_handle None nullptr)).
  apply sound_fresh_s; [by apply He | done | apply vacant_insert_null].
Qed.

Lemma sound_move_assign_s (H : gmap loc control_block) (S W : gmap name handle)
    (x r : name) (hx hr : handle) :
  sound H S W → S !! x = Some hx → S !! r = Some hr → x ≠ r →
  sound (release (block hx) H)
        (<[ r := mk_handle None nullptr ]>
           (<[ x := mk_handle (block hr) (ptr hr) ]> S)) W.
Proof.
  intros Hs Hx Hr Hne.
  pose proof (sound_exchange_s H S W x None nullptr Hs) as He.
  rewrite (held_block_Some S x hx Hx) in He. simpl in He.
  pose proof (sound_move_s _ _ _ x r hr (ptr hr) nullptr (He ltac:(done))) as Hm.
  rewrite lookup_insert_ne in Hm by done.
  specialize (Hm Hr (vacant_insert_null _ _ _) Hne).
  rewrite (insert_insert_ne _ r x) in Hm by done.
  rewrite insert_insert_eq in Hm.
  by rewrite (insert_insert_ne _ r x) by done.
Qed.

Lemma sound_move_assign_w (H : gmap loc control_block) (S W : gmap name handle)
    (x r : name) (hx hr : handle) :
  sound H S W → W !! x = Some hx → W !! r = Some hr → x ≠ r →
  sound (wrelease (block hx) H) S
        (<[ r := mk_handle None nullptr ]>
           (<[ x := mk_handle (block hr) (ptr hr) ]> W)).
Proof.
  intros Hs Hx Hr Hne.
  pose proof (sound_exchange_w H S W x None nullptr Hs) as He.
  rewrite (held_block_Some W x hx Hx) in He. simpl in He.
  pose proof (sound_move_w _ _ _ x r hr (ptr hr) nullptr (He ltac:(done))) as Hm.
  rewrite lookup_insert_ne in Hm by done.
  specialize (Hm Hr (vacant_insert_null _ _ _) Hne).
  rewrite (insert_insert_ne _ r x) in Hm by done.
  rewrite insert_insert_eq in Hm.
  by rewrite (insert_insert_ne _ r x) by done.
Qed.

(** *** What a consistent world allows *)

Lemma consistent_can_dec (w : world) (x : name) (h : handle) :
  consistent w → shared w !! x = Some h → can_dec (heap w) (block h).
Proof.
  intros (Hc & Hs & Hw) Hx b Hb.
  destruct (Hs x h b Hx Hb) as [cb Hcb]. exists cb. split; [done|].
  destruct (Hc b cb Hcb) as (Hr & _ & _ & Hmax & _).
  pose proof (holders_pos b x h _ Hx Hb). lia.
Qed.

Lemma consistent_can_wdec (w : world) (x : name) (h : handle) :
  consistent w → weak w !! x = Some h → can_wdec (heap w) (block h).
Proof.
  intros (Hc & Hs & Hw) Hx b Hb.
  destruct (Hw x h b Hx Hb) as [cb Hcb]. exists cb. split; [done|].
  destruct (Hc b cb Hcb) as (_ & Hr & _ & _ & Hmax).
  pose proof (holders_pos b x h _ Hx Hb). lia.
Qed.

Lemma is_free_true (m : gmap name handle) (x : name) :
  is_free m x = true → m !! x = None.
Proof. unfold is_free. apply bool_decide_eq_true. Qed.

Lemma is_live_true (m : gmap name handle) (x : name) :
  is_live m x = true → ∃ h, m !! x = Some h.
Proof. unfold is_live. intros Hl. by apply bool_decide_eq_true in Hl. Qed.

Lemma has_room_true (count : control_block → Z) (H : gmap loc control_block)
    (m : gmap name handle) (r : name) :
  has_room count H m r = true →
  ∃ h, m !! r = Some h
       ∧ ∀ b cb, block h = Some b → H !! b = Some cb → count cb < SIZE_MAX.
Proof.
  unfold has_room. destruct (m !! r) as [h|]; [|done]. intros Hroom.
  exists h. split; [done|]. intros b cb Hb Hcb. rewrite Hb, Hcb in Hroom.
  by apply bool_decide_eq_true in Hroom.
Qed.

Lemma consistent_can_inc (w : world) (h : handle) :
  consistent w →
  (∀ b, block h = Some b → is_Some (heap w !! b)) →
  (∀ b cb, block h = Some b → heap w !! b = Some cb → ref cb < SIZE_MAX) →
  can_inc (heap w) (block h).
Proof.
  intros (Hc & _) Halloc Hroom b Hb. destruct (Halloc b Hb) as [cb Hcb].
  exists cb. split; [done|]. destruct (Hc b cb Hcb) as (Hr & _).
  specialize (Hroom b cb Hb Hcb). lia.
Qed.

Lemma consistent_can_winc (w : world) (h : handle) :
  consistent w →
  (∀ b, block h = Some b → is_Some (heap w !! b)) →
  (∀ b cb, block h = Some b → heap w !! b = Some cb → wref cb < SIZE_MAX) →
  can_winc (heap w) (block h).
Proof.
  intros (Hc & _) Halloc Hroom b Hb. destruct (Halloc b Hb) as [cb Hcb].
  exists cb. split; [done|]. destruct (Hc b cb Hcb) as (_ & Hr & _).
  specialize (Hroom b cb Hb Hcb). lia.
Qed.

Lemma can_dec_acquire (H : gmap loc control_block) (ox on : option loc) :
  can_dec H ox → can_inc H on → can_dec (acquire on H) ox.
Proof.
  intros Hdec Hinc b Hb. destruct (Hdec b Hb) as (cb & Hcb & Hr).
  destruct on as [b'|]; simpl; [|by exists cb].
  destruct (Hinc b' eq_refl) as (cb' & Hcb' & Hr'). rewrite Hcb'.
  destruct (decide (b' = b)) as [->|Hne].
  - rewrite lookup_insert_eq. eexists. split; [done|]. simpl.
    assert (cb' = cb) as -> by congruence. lia.
  - rewrite lookup_insert_ne by done. by exists cb.
Qed.

Lemma can_wdec_wacquire (H : gmap loc control_block) (ox on : option loc) :
  can_wdec H ox → can_winc H on → can_wdec (wacquire on H) ox.
Proof.
  intros Hdec Hinc b Hb. destruct (Hdec b Hb) as (cb & Hcb & Hr).
  destruct on as [b'|]; simpl; [|by exists cb].
  destruct (Hinc b' eq_refl) as (cb' & Hcb' & Hr'). rewrite Hcb'.
  destruct (decide (b' = b)) as [->|Hne].
  - rewrite lookup_insert_eq. eexists. split; [done|]. simpl.
    assert (cb' = cb) as -> by congruence. lia.
  - rewrite lookup_insert_ne by done. by exists cb.
Qed.

Lemma can_inc_room (H : gmap loc control_block) (ob : option loc) :
  can_inc H ob → ∀ b, ob = Some b → ∃ cb, H !! b = Some cb ∧ ref cb < SIZE_MAX.
Proof.
  intros Hinc b Hb. destruct (Hinc b Hb) as (cb & Hcb & Hr).
  exists cb. split; [done|lia].
Qed.

Lemma can_winc_room (H : gmap loc control_block) (ob : option loc) :
  can_winc H ob → ∀ b, ob = Some b → ∃ cb, H !! b = Some cb ∧ wref cb < SIZE_MAX.
Proof.
  intros Hinc b Hb. destruct (Hinc b Hb) as (cb & Hcb & Hr).
  exists cb. split; [done|lia].
Qed.

Lemma safe_Ok (c : call) (m : M unit) (w : world)
    (H : gmap loc control_block) (S W : gmap name handle) (n : nat) :
  (∃ w', m w = Ok tt w' ∧ (state w' = (H, S, W) ∧ avail w' = n)) →
  sound H S W → safe c (m w).
Proof.
  intros (w' & -> & Hst & _) Hs. injection Hst as Hh Hsh Hwk.
  unfold safe, consistent. by rewrite Hh, Hsh, Hwk.
Qed.

Lemma sp_ctor_ptr_state (p : addr) (w : world) (n : nat) :
  avail w = S n →
  ∃ b : loc,
    heap w !! b = None
    ∧ ∃ w' : world,
        shared_ptr.ctor_ptr p w = Ok (mk_handle (Some b) p) w'
        ∧ (state w'
           = (<[ b := control_block.init (default_control_block p) ]> (heap w),
              shared w, weak w)
           ∧ avail w' = n).
Proof.
  intros Hn.
  destruct (operator_new_fresh
              (control_block.init (default_control_block p)) w n Hn)
    as (b & Hb & Hnew).
  exists b. split; [done|].
  exists (set_avail n (set_heap
    (insert b (control_block.init (default_control_block p))) w)).
  split; [|done].
  unfold shared_ptr.ctor_ptr. apply noexcept_Ok.
  by rewrite (bind_Ok _ _ _ _ _ Hnew).
Qed.

Lemma sp_ctor_ptr_deleter_state (p : addr) (d : deleter) (w : world) (n : nat) :
  avail w = S n →
  ∃ b : loc,
    heap w !! b = None
    ∧ ∃ w' : world,
        shared_ptr.ctor_ptr_deleter p d w = Ok (mk_handle (Some b) p) w'
        ∧ (state w'
           = (<[ b := control_block.init (regular_control_block p d) ]> (heap w),
              shared w, weak w)
           ∧ avail w' = n).
Proof.
  intros Hn.
  destruct (operator_new_fresh
              (control_block.init (regular_control_block p d)) w n Hn)
    as (b & Hb & Hnew).
  exists b. split; [done|].
  exists (set_avail n (set_heap
    (insert b (control_block.init (regular_control_block p d))) w)).
  split; [|done].
  unfold shared_ptr.ctor_ptr_deleter, try_catch.
  by rewrite (bind_Ok _ _ _ _ _ Hnew).
Qed.

Lemma make_shared_state (w : world) (n : nat) :
  avail w = S n →
  ∃ b : loc,
    heap w !! b = None
    ∧ ∃ w' : world,
        make_shared w = Ok (mk_handle (Some b) (get_obj b)) w'
        ∧ (state w'
           = (<[ b := control_block.init inplace_control_block ]> (heap w),
              shared w, weak w)
           ∧ avail w' = n).
Proof.
  intros Hn.
  destruct (operator_new_fresh
              (control_block.init inplace_control_block) w n Hn)
    as (b & Hb & Hnew).
  exists b. split; [done|].
  exists (set_avail n (set_heap
    (insert b (control_block.init inplace_control_block)) w)).
  split; [|done].
  unfold make_shared. by rewrite (bind_Ok _ _ _ _ _ Hnew).
Qed.

Lemma consistent_set_trace (f : list event → list event) (w : world) :
  consistent w → consistent (set_trace f w).
Proof. done. Qed.

(** Every statement that is ready in a consistent world is safe. *)
Lemma exec_safe (c : call) (w : world) :
  consistent w → ready c w = true → safe c (exec c w).
Proof.
  intros Hcons Hready. pose proof Hcons as (Hc & Hs & Hw).
  destruct c as [x|x|x p|x p d|x|x s a|x r|x r|x r|x r|x|x p|x p d|x
                |x|x|x t|x r|x r|x r|x r|x|x q];
    simpl in Hready; simpl exec.
  - (* shared_default *)
    apply is_free_true in Hready.
    eapply safe_Ok; [apply sp_declare_state; by exists w|].
    apply sound_put_empty_s; [done | by apply vacant_free].
  - (* shared_null *)
    apply is_free_true in Hready.
    eapply safe_Ok; [apply sp_declare_state; by exists w|].
    apply sound_put_empty_s; [done | by apply vacant_free].
  - (* shared_from_ptr *)
    apply is_free_true in Hready. destruct (avail w) as [|n] eqn:Hn.
    + unfold shared_ptr.declare, shared_ptr.ctor_ptr, noexcept, operator_new,
        mbind, M_bind. rewrite Hn. simpl. by exists x, p.
    + destruct (sp_ctor_ptr_state p w n Hn) as (b & Hb & Hctor).
      eapply safe_Ok; [apply sp_declare_state; exact Hctor|].
      apply sound_fresh_s; [done | done | by apply vacant_free].
  - (* shared_from_ptr_deleter *)
    apply is_free_true in Hready. destruct (avail w) as [|n] eqn:Hn.
    + unfold shared_ptr.declare.
      erewrite bind_Throw by (by apply ctor_ptr_deleter_bad_alloc).
      simpl. intros _. done.
    + destruct (sp_ctor_ptr_deleter_state p d w n Hn) as (b & Hb & Hctor).
      eapply safe_Ok; [apply sp_declare_state; exact Hctor|].
      apply sound_fresh_s; [done | done | by apply vacant_free].
  - (* shared_make *)
    apply is_free_true in Hready. destruct (avail w) as [|n] eqn:Hn.
    + unfold shared_ptr.declare, make_shared.
      erewrite bind_Throw
        by (apply bind_Throw; by apply operator_new_bad_alloc).
      simpl. intros _. done.
    + destruct (make_shared_state w n Hn) as (b & Hb & Hctor).
      eapply safe_Ok; [apply sp_declare_state; exact Hctor|].
      apply sound_fresh_s; [done | done | by apply vacant_free].
  - (* shared_alias *)
    apply andb_prop in Hready as [Hx Hroom]. apply is_free_true in Hx.
    apply has_room_true in Hroom as (hs & Hsrc & Hroom).
    assert (can_inc (heap w) (block hs)) as Hinc.
    { apply consistent_can_inc; [done| |done]. intros b Hb. by eapply Hs. }
    eapply safe_Ok;
      [apply sp_declare_state; by apply sp_ctor_alias_state|].
    pose proof (sound_exchange_s _ _ _ x (block hs) a Hcons
                  (can_inc_room _ _ Hinc)) as He.
    by rewrite (held_block_free _ _ Hx) in He.
  - (* shared_copy *)
    apply andb_prop in Hready as [Hx Hroom]. apply is_free_true in Hx.
    apply has_room_true in Hroom as (hr & Hsrc & Hroom).
    assert (can_inc (heap w) (block hr)) as Hinc.
    { apply consistent_can_inc; [done| |done]. intros b Hb. by eapply Hs. }
    eapply safe_Ok;
      [apply sp_declare_state; by apply sp_ctor_copy_state|].
    pose proof (sound_exchange_s _ _ _ x (block hr) (ptr hr) Hcons
                  (can_inc_room _ _ Hinc)) as He.
    by rewrite (held_block_free _ _ Hx) in He.
  - (* shared_move *)
    apply andb_prop in Hready as [Hx Hr]. apply is_free_true in Hx.
    apply is_live_true in Hr as [hr Hr].
    eapply safe_Ok;
      [apply sp_declare_state; by apply sp_ctor_move_state|].
    apply sound_move_s; [done | done | by apply vacant_free | congruence].
  - (* shared_assign *)
    apply andb_prop in Hready as [Hx Hroom].
    apply is_live_true in Hx as [hx Hx].
    apply has_room_true in Hroom as (hr & Hsrc & Hroom).
    assert (can_inc (heap w) (block hr)) as Hinc.
    { apply consistent_can_inc; [done| |done]. intros b Hb. by eapply Hs. }
    pose proof (consistent_can_dec w x hx Hcons Hx) as Hdec.
    eapply safe_Ok;
      [apply (sp_assign_copy_state x r hx hr); try done;
       by apply can_dec_acquire|].
    pose proof (sound_exchange_s _ _ _ x (block hr) (ptr hr) Hcons
                  (can_inc_room _ _ Hinc)) as He.
    by rewrite (held_block_Some _ _ _ Hx) in He.
  - (* shared_move_assign *)
    apply andb_prop in Hready as [Hx Hr].
    apply is_live_true in Hx as [hx Hx]. apply is_live_true in Hr as [hr Hr].
    destruct (decide (block hx = block hr)) as [Heq|Hne].
    + rewrite (sp_assign_move_same w x r hx hr Hx Hr Heq).
      by apply sound_readdress_s.
    + eapply safe_Ok;
        [apply (sp_assign_move_state x r hx hr); try done;
         by eapply consistent_can_dec|].
      apply sound_move_assign_s; try done. intros ->. congruence.
  - (* shared_reset *)
    apply is_live_true in Hready as [hx Hx].
    eapply safe_Ok;
      [apply (sp_reset_state x hx); [done | by eapply consistent_can_dec]|].
    pose proof (sound_exchange_s _ _ _ x None nullptr Hcons) as He.
    rewrite (held_block_Some _ _ _ Hx) in He. by apply He.
  - (* shared_reset_ptr *)
    apply is_live_true in Hready as [hx Hx].
    pose proof (consistent_can_dec w x hx Hcons Hx) as Hdec.
    destruct (avail w) as [|n] eqn:Hn.
    + destruct (sp_dec_state x hx w Hx Hdec) as (w1 & Hrun & _).
      destruct (reset_ptr_bad_alloc x p hx w w1 Hx Hn Hrun) as [-> _].
      simpl. intros Hno. by destruct (Hno x p).
    + destruct (sp_reset_ptr_state x p hx w n Hx Hdec Hn)
        as (w' & Hrun & b & Hb & Hst).
      eapply safe_Ok; [by exists w'|]. by eapply sound_reset_ptr_s.
  - (* shared_reset_ptr_deleter *)
    apply is_live_true in Hready as [hx Hx].
    pose proof (consistent_can_dec w x hx Hcons Hx) as Hdec.
    destruct (avail w) as [|n] eqn:Hn.
    + destruct (sp_dec_state x hx w Hx Hdec) as (w1 & Hrun & Hst & _).
      rewrite (reset_ptr_deleter_bad_alloc x p d hx w w1 Hx Hn Hrun).
      injection Hst as Hh Hsh Hwk. simpl. intros _.
      unfold consistent. simpl. rewrite Hh, Hsh, Hwk.
      pose proof (sound_exchange_s _ _ _ x None nullptr Hcons) as He.
      rewrite (held_block_Some _ _ _ Hx) in He. by apply He.
    + destruct (sp_reset_ptr_deleter_state x p d hx w n Hx Hdec Hn)
        as (w' & Hrun & b & Hb & Hst).
      eapply safe_Ok; [by exists w'|]. by eapply sound_reset_ptr_s.
  - (* shared_end *)
    apply is_live_true in Hready as [hx Hx].
    eapply safe_Ok;
      [apply (sp_dtor_state x hx); [done | by eapply consistent_can_dec]|].
    by apply sound_end_s.
  - (* weak_default *)
    apply is_free_true in Hready.
    eapply safe_Ok; [apply wp_declare_state; by exists w|].
    apply sound_put_empty_w; [done | by apply vacant_free].
  - (* weak_null *)
    apply is_free_true in Hready.
    eapply safe_Ok; [apply wp_declare_state; by exists w|].
    apply sound_put_empty_w; [done | by apply vacant_free].
  - (* weak_from_shared *)
    apply andb_prop in Hready as [Hx Hroom]. apply is_free_true in Hx.
    apply has_room_true in Hroom as (ht & Hsrc & Hroom).
    assert (can_winc (heap w) (block ht)) as Hinc.
    { apply consistent_can_winc; [done| |done]. intros b Hb. by eapply Hs. }
    eapply safe_Ok;
      [apply wp_declare_state; by apply wp_ctor_shared_state|].
    pose proof (sound_exchange_w _ _ _ x (block ht) (ptr ht) Hcons
                  (can_winc_room _ _ Hinc)) as He.
    by rewrite (held_block_free _ _ Hx) in He.
  - (* weak_copy *)
    apply andb_prop in Hready as [Hx Hroom]. apply is_free_true in Hx.
    apply has_room_true in Hroom as (hr & Hsrc & Hroom).
    assert (can_winc (heap w) (block hr)) as Hinc.
    { apply consistent_can_winc; [done| |done]. intros b Hb. by eapply Hw. }
    eapply safe_Ok;
      [apply wp_declare_state; by apply wp_ctor_copy_state|].
    pose proof (sound_exchange_w _ _ _ x (block hr) (ptr hr) Hcons
                  (can_winc_room _ _ Hinc)) as He.
    by rewrite (held_block_free _ _ Hx) in He.
  - (* weak_move *)
    apply andb_prop in Hready as [Hx Hr]. apply is_free_true in Hx.
    apply is_live_true in Hr as [hr Hr].
    eapply safe_Ok;
      [apply wp_declare_state; by apply wp_ctor_move_state|].
    apply sound_move_w; [done | done | by apply vacant_free | congruence].
  - (* weak_assign *)
    apply andb_prop in Hready as [Hx Hroom].
    apply is_live_true in Hx as [hx Hx].
    apply has_room_true in Hroom as (hr & Hsrc & Hroom).
    assert (can_winc (heap w) (block hr)) as Hinc.
    { apply consistent_can_winc; [done| |done]. intros b Hb. by eapply Hw. }
    pose proof (consistent_can_wdec w x hx Hcons Hx) as Hdec.
    eapply safe_Ok;
      [apply (wp_assign_copy_state x r hx hr); try done;
       by apply can_wdec_wacquire|].
    pose proof (sound_exchange_w _ _ _ x (block hr) (ptr hr) Hcons
                  (can_winc_room _ _ Hinc)) as He.
    by rewrite (held_block_Some _ _ _ Hx) in He.
  - (* weak_move_assign *)
    apply andb_prop in Hready as [Hx Hr].
    apply is_live_true in Hx as [hx Hx]. apply is_live_true in Hr as [hr Hr].
    destruct (decide (block hx = block hr)) as [Heq|Hne].
    + rewrite (wp_assign_move_same w x r hx hr Hx Hr Heq).
      by apply sound_readdress_w.
    + eapply safe_Ok;
        [apply (wp_assign_move_state x r hx hr); try done;
         by eapply consistent_can_wdec|].
      apply sound_move_assign_w; try done. intros ->. congruence.
  - (* weak_end *)
    apply is_live_true in Hready as [hx Hx].
    eapply safe_Ok;
      [apply (wp_dtor_state x hx); [done | by eapply consistent_can_wdec]|].
    by apply sound_end_w.
  - (* weak_lock *)
    apply andb_prop in Hready as [Hx Hroom]. apply is_free_true in Hx.
    apply has_room_true in Hroom as (hq & Hsrc & Hroom).
    assert (can_inc (heap w) (block hq)) as Hinc.
    { apply consistent_can_inc; [done| |done]. intros b Hb. by eapply Hw. }
    destruct (wp_lock_state hq w Hinc)
      as (new & w1 & Hlock & Hnew & _ & Hst & Hav).
    eapply safe_Ok.
    + apply sp_declare_state. exists w1. split; [|done].
      by rewrite (bind_Ok _ _ _ _ _ (wp_field_Ok id q hq w Hsrc)).
    + pose proof (sound_exchange_s _ _ _ x new
                    (match new with Some _ => ptr hq | None => nullptr end)
                    Hcons) as He.
      rewrite (held_block_free _ _ Hx) in He. apply He.
      intros b Hb. destruct (Hnew b Hb) as (Hbq & _).
      by apply (can_inc_room _ _ Hinc).
Qed.

Lemma exec_all_safe (cs : list call) :
  ∀ w : world,
    consistent w → all_ready cs w = true →
    match exec_all cs w with
    | Ok _ w' => consistent w'
    | UB => False
    | Throw _ | Terminate => True
    end.
Proof.
  induction cs as [|c cs IH]; intros w Hcons Hready; [done|].
  simpl in Hready. apply andb_prop in Hready as [Hc Hcs].
  pose proof (exec_safe c w Hcons Hc) as Hsafe.
  simpl. unfold mbind, M_bind.
  destruct (exec c w) as [[] w1|w1| |]; simpl in Hsafe; try done.
  by apply IH.
Qed.

Lemma consistent_init (n : nat) : consistent (w_init n).
Proof.
  split; [|split]; simpl.
  - intros b cb Hb. by rewrite lookup_empty in Hb.
  - intros x h b Hx. by rewrite lookup_empty in Hx.
  - intros x h b Hx. by rewrite lookup_empty in Hx.
Qed.

Lemma consistent_ext (w w' : world) :
  state w = state w' → consistent w → consistent w'.
Proof.
  unfold state, consistent. intros [= Hh Hs Hw]. by rewrite Hh, Hs, Hw.
Qed.

Lemma consistent_w_aliased : consistent w_aliased.
Proof.
  pose proof (exec_all_safe program_aliased (w_init 3) (consistent_init 3)
                eq_refl) as Hsafe.
  assert (exec_all program_aliased (w_init 3)
          = Ok tt (set_trace (λ _, [Inc 1%positive; Winc 1%positive;
                                    Winc 1%positive])
                     (set_avail 2 w_aliased))) as Hrun by reflexivity.
  rewrite Hrun in Hsafe. revert Hsafe. by apply consistent_ext.
Qed.

Lemma consistent_no_leak (w : world) :
  consistent w → shared w = ∅ → weak w = ∅ → heap w = ∅.
Proof.
  intros (Hc & _) Hs Hw. apply map_empty. intros b.
  destruct (heap w !! b) as [cb|] eqn:Hb; [|done].
  destruct (Hc b cb Hb) as (Hr & Hwr & Hpos & _).
  rewrite Hs in Hr. rewrite Hw in Hwr.
  unfold holders in *. rewrite map_filter_empty, map_size_empty in *. lia.
Qed.

Lemma consistent_use_count (w : world) (x : name) (h : handle) :
  consistent w → shared w !! x = Some h →
  shared_ptr.use_count h w = Ok (owners w h) w.
Proof.
  intros (Hc & Hs & _) Hx. unfold shared_ptr.use_count, owners.
  apply noexcept_Ok. destruct (block h) as [b|] eqn:Hb; [|done].
  destruct (Hs x h b Hx Hb) as [cb Hcb].
  rewrite (use_count_Ok b cb w Hcb). by destruct (Hc b cb Hcb) as (-> & _).
Qed.

(** ** The members, with what they add to the trace *)

Lemma sp_dtor_Ok (x : name) (h : handle) (b : loc) (cb : control_block)
    (w : world) :
  shared w !! x = Some h → block h = Some b →
  heap w !! b = Some cb → 0 < ref cb ≤ SIZE_MAX →
  shared_ptr.dtor x w
  = Ok tt (set_shared (delete x)
             (set_trace (λ t, t ++ trace_dec b cb)
                (set_heap (heap_dec b cb) w))).
Proof.
  intros Hx Hb Hcb Hr. unfold shared_ptr.dtor, shared_ptr.dec.
  rewrite (bind_Ok _ _ w (set_trace (λ t, t ++ trace_dec b cb)
                            (set_heap (heap_dec b cb) w)) tt); [done|].
  run_bind. rewrite Hb. by apply dec_Ok.
Qed.

Lemma sp_dtor_empty (x : name) (h : handle) (w : world) :
  shared w !! x = Some h → block h = None →
  shared_ptr.dtor x w = Ok tt (set_shared (delete x) w).
Proof.
  intros Hx Hb. unfold shared_ptr.dtor, shared_ptr.dec.
  rewrite (bind_Ok _ _ w w tt); [done|]. run_bind. by rewrite Hb.
Qed.

Lemma wp_dtor_Ok (x : name) (h : handle) (b : loc) (cb : control_block)
    (w : world) :
  weak w !! x = Some h → block h = Some b →
  heap w !! b = Some cb → 0 < wref cb ≤ SIZE_MAX →
  weak_ptr.dtor x w
  = Ok tt (set_weak (delete x)
             (set_trace (λ t, t ++ trace_wdec b cb)
                (set_heap (heap_wdec b cb) w))).
Proof.
  intros Hx Hb Hcb Hr. unfold weak_ptr.dtor.
  run_bind. rewrite Hb.
  by rewrite (bind_Ok _ _ _ _ _ (wdec_Ok b cb w Hcb Hr)).
Qed.


Lemma sp_ctor_copy_Ok (r : name) (hr : handle) (b : loc) (cb : control_block)
    (w : world) :
  shared w !! r = Some hr → block hr = Some b →
  heap w !! b = Some cb → 0 ≤ ref cb < SIZE_MAX →
  shared_ptr.ctor_copy r w
  = Ok (mk_handle (Some b) (ptr hr))
      (set_trace (λ t, t ++ [Inc b])
         (set_heap (insert b (set_ref (ref cb + 1) cb)) w)).
Proof.
  intros Hr Hb Hcb Hrange. unfold shared_ptr.ctor_copy. apply noexcept_Ok.
  run_bind. run_bind. rewrite Hb.
  rewrite (bind_Ok _ _ _ _ _ (inc_Ok b cb w Hcb)).
  by rewrite wrap_small by lia.
Qed.

Lemma wp_ctor_shared_Ok (t : name) (ht : handle) (b : loc)
    (cb : control_block) (w : world) :
  shared w !! t = Some ht → block ht = Some b →
  heap w !! b = Some cb → 0 ≤ wref cb < SIZE_MAX →
  weak_ptr.ctor_shared t w
  = Ok (mk_handle (Some b) (ptr ht))
      (set_trace (λ t, t ++ [Winc b])
         (set_heap (insert b (set_wref (wref cb + 1) cb)) w)).
Proof.
  intros Hr Hb Hcb Hrange. unfold weak_ptr.ctor_shared.
  run_bind. run_bind. rewrite Hb.
  rewrite (bind_Ok _ _ _ _ _ (winc_Ok b cb w Hcb)).
  by rewrite wrap_small by lia.
Qed.

Lemma wp_lock_live (this : handle) (b : loc) (cb : control_block) (w : world) :
  block this = Some b → heap w !! b = Some cb → 0 < ref cb < SIZE_MAX →
  weak_ptr.lock this w
  = Ok (mk_handle (Some b) (ptr this))
      (set_trace (λ t, t ++ [Inc b])
         (set_heap (insert b (set_ref (ref cb + 1) cb)) w)).
Proof.
  intros Hb Hcb Hr. unfold weak_ptr.lock, shared_ptr.ctor_block.
  apply noexcept_Ok. rewrite Hb.
  rewrite (bind_Ok _ _ _ _ _ (use_count_Ok b cb w Hcb)).
  rewrite decide_False by lia.
  rewrite (bind_Ok _ _ _ _ _ (inc_Ok b cb w Hcb)).
  by rewrite wrap_small by lia.
Qed.


Lemma sp_dec_live (this : name) (w w1 : world) :
  shared_ptr.dec this w = Ok tt w1 → is_Some (shared w1 !! this).
Proof.
  intros Hdec. destruct (sp_dec_frame _ _ _ Hdec) as (-> & _ & _).
  unfold shared_ptr.dec, shared_ptr.field, mbind, M_bind in Hdec.
  by destruct (shared w !! this).
Qed.

(** The code that follows [dec()] in two functions gives the same outcome
    wherever [dec()] returns. *)
Lemma after_dec {A B} (this : name) (f : M A) (g : M B) (k : B → M A)
    (w : world) :
  (∀ w1 h, shared_ptr.dec this w = Ok tt w1 → shared w1 !! this = Some h →
           f w1 = (shared_ptr.forget this;; b ← g; k b) w1) →
  (shared_ptr.dec this;; f) w
  = (shared_ptr.dtor this;; b ← g; k b) w.
Proof.
  intros Hrest. unfold shared_ptr.dtor. unfold mbind, M_bind in *.
  destruct (shared_ptr.dec this w) as [[] w1|w1| |] eqn:Hdec; try done.
  destruct (sp_dec_live _ _ _ Hdec) as [h Hh]. by apply (Hrest w1 h).
Qed.

Lemma sp_ctor_move_Ok (r : name) (hr : handle) (w : world) :
  shared w !! r = Some hr →
  shared_ptr.ctor_move r w
  = Ok (mk_handle (block hr) (ptr hr))
      (set_shared (insert r (mk_handle None nullptr)) w).
Proof.
  intros Hr. unfold shared_ptr.ctor_move. apply noexcept_Ok.
  run_bind. run_bind. run_bind. run_bind.
  unfold mret, M_ret. f_equal. destruct w as [H S W a t]. simpl.
  apply world_eq; try done. simpl. by rewrite insert_insert_eq.
Qed.

Lemma sp_forget_Ok (x : name) (w : world) :
  shared_ptr.forget x w = Ok tt (set_shared (delete x) w).
Proof. done. Qed.

Lemma sp_declare_Ok (x : name) (ctor : M handle) (h : handle) (w w' : world) :
  ctor w = Ok h w' →
  shared_ptr.declare x ctor w = Ok tt (set_shared (insert x h) w').
Proof.
  intros Hctor. unfold shared_ptr.declare.
  by rewrite (bind_Ok _ _ _ _ _ Hctor).
Qed.


(** ** Managed values that hold handles *)

Lemma nbind_Ok {A B} (m : N A) (f : A → N B) (w w' : world) (a : A) :
  m w = Some (Ok a w') → (m ≫= f) w = f a w'.
Proof. unfold mbind, N_bind. by intros ->. Qed.

Lemma nbind_UB {A B} (m : N A) (f : A → N B) (w : world) :
  m w = Some UB → (m ≫= f) w = Some UB.
Proof. unfold mbind, N_bind. by intros ->. Qed.

(** A sequence of two calls that run no destructor of a managed value runs
    none. *)
Lemma nbind_lift {A B} (m' : N A) (m : M A) (g : A → N B) (k : A → M B)
    (w : world) :
  m' w = Some (m w) →
  (∀ a w', m w = Ok a w' → g a w' = Some (k a w')) →
  (m' ≫= g) w = Some ((m ≫= k) w).
Proof.
  intros Hm Hg. unfold mbind, N_bind, M_bind. rewrite Hm.
  destruct (m w) as [a w'| | |] eqn:Hw; try done. by apply Hg.
Qed.

Section inert.
Variable members : addr → list member.
Variable deletes : deleter → bool.

(** The destructor of a value without member handles returns at once. *)
Lemma destroy_inert (block_dec : loc → N unit) (b : loc) (cb : control_block)
    (w : world) :
  heap w !! b = Some cb →
  (∀ obj, managed_value deletes b (derived cb) = Some obj → members obj = []) →
  nested.destroy members deletes block_dec b w
  = Some (control_block.destroy b w).
Proof.
  intros Hb Hnone. unfold nested.destroy, control_block.destroy.
  apply nbind_lift; [done|]. intros cb' w1 Hload.
  assert (cb' = cb ∧ w1 = w) as [-> ->].
  { unfold load in Hload. rewrite Hb in Hload. by simplify_eq. }
  apply nbind_lift; [done|]. intros [] w2 _.
  unfold managed_value, nested.value_dtor in *.
  unfold lift, emit, modify, mbind, N_bind, mret, N_ret, M_ret.
  destruct (derived cb) as [obj|obj d|]; simpl.
  - case_decide; [|done]. by rewrite (Hnone obj).
  - case_decide; [|done]. simpl.
    destruct (deletes d); [|done]. by rewrite (Hnone obj).
  - by rewrite (Hnone (get_obj b)).
Qed.

Lemma dec_inert (depth : nat) (b : loc) (cb : control_block) (w : world) :
  heap w !! b = Some cb →
  (wrap (ref cb - 1) = 0 →
   ∀ obj, managed_value deletes b (derived cb) = Some obj → members obj = []) →
  nested.dec members deletes (S depth) b w = Some (control_block.dec b w).
Proof.
  intros Hb Hnone. simpl. unfold nested.dec_body, control_block.dec.
  apply nbind_lift; [done|]. intros cb' w1 Hload.
  assert (cb' = cb ∧ w1 = w) as [-> ->].
  { unfold load in Hload. rewrite Hb in Hload. by simplify_eq. }
  apply nbind_lift; [done|]. intros [] w2 Hemit.
  apply nbind_lift; [done|]. intros [] w3 Hstore.
  apply nbind_lift; [done|]. intros cb3 w4 Hload3.
  assert (heap w4 !! b = Some cb3 ∧ derived cb3 = derived cb
          ∧ ref cb3 = wrap (ref cb - 1)) as (Hb4 & Hd & Hr).
  { unfold emit, modify in Hemit. simplify_eq.
    unfold store in Hstore. simpl in Hstore. rewrite Hb in Hstore.
    simplify_eq. unfold load in Hload3. simpl in Hload3.
    rewrite lookup_insert_eq in Hload3. simplify_eq. simpl.
    by rewrite lookup_insert_eq. }
  case_decide as Hz; [done|].
  apply nbind_lift.
  { apply (destroy_inert _ b cb3); [done|]. rewrite Hd. apply Hnone.
    by rewrite <- Hr. }
  intros [] w5 _. apply nbind_lift; [done|]. intros cb6 w6 _.
  by case_decide.
Qed.

Lemma dec_inert_all (depth : nat) (b : loc) (w : world) :
  (∀ obj, members obj = []) →
  nested.dec members deletes (S depth) b w = Some (control_block.dec b w).
Proof.
  intros Hnone. destruct (heap w !! b) as [cb|] eqn:Hb.
  - apply (dec_inert depth b cb); [done|]. intros _ obj _. apply Hnone.
  - simpl. unfold nested.dec_body, control_block.dec, lift, load, mbind,
      N_bind, M_bind.
    by rewrite Hb.
Qed.

Lemma shared_dec_inert (depth : nat) (x : name) (w : world) :
  (∀ h b cb,
     shared w !! x = Some h → block h = Some b → heap w !! b = Some cb →
     ∀ obj, managed_value deletes b (derived cb) = Some obj →
            members obj = []) →
  nested.shared_dec members deletes (S depth) x w
  = Some (shared_ptr.dec x w).
Proof.
  intros Hnone. unfold nested.shared_dec, nested.handle_dec, shared_ptr.dec.
  apply nbind_lift; [done|]. intros ob w1 Hfield.
  unfold shared_ptr.field in Hfield.
  destruct (shared w !! x) as [h|] eqn:Hx; [|done]. simplify_eq.
  destruct (block h) as [b|] eqn:Hb; [|done].
  destruct (heap w1 !! b) as [cb|] eqn:Hcb.
  - apply (dec_inert depth b cb); [done|]. intros _. by apply (Hnone h b cb).
  - simpl. unfold nested.dec_body, control_block.dec, lift, load, mbind,
      N_bind, M_bind.
    by rewrite Hcb.
Qed.

Lemma dtor_inert (depth : nat) (x : name) (w : world) :
  (∀ h b cb,
     shared w !! x = Some h → block h = Some b → heap w !! b = Some cb →
     ∀ obj, managed_value deletes b (derived cb) = Some obj →
            members obj = []) →
  nested.dtor members deletes (S depth) x w = Some (shared_ptr.dtor x w).
Proof.
  intros Hnone. unfold nested.dtor, nested.handle_dtor, shared_ptr.dtor.
  apply nbind_lift; [by apply shared_dec_inert|]. done.
Qed.

(** A handle without a block is ended at any depth. *)
Lemma dtor_empty (depth : nat) (x : name) (h : handle) (w : world) :
  shared w !! x = Some h → block h = None →
  nested.dtor members deletes depth x w
  = Some (Ok tt (set_shared (delete x) w)).
Proof.
  intros Hx Hb.
  unfold nested.dtor, nested.handle_dtor, nested.handle_dec, lift,
    shared_ptr.field, shared_ptr.forget, modify, mbind, N_bind, mret, N_ret.
  by rewrite Hx, Hb.
Qed.

(** Where no managed value holds a handle, every statement runs as the
    members that do not follow the disposal say. *)
Lemma exec_inert (depth : nat) (c : call) (w : world) :
  (∀ obj, members obj = []) →
  nested.exec members deletes (S depth) c w = Some (exec c w).
Proof.
  intros Hnone.
  assert (∀ x w, nested.shared_dec members deletes (S depth) x w
                 = Some (shared_ptr.dec x w)) as Hdec.
  { intros x w0. apply shared_dec_inert. intros. apply Hnone. }
  assert (∀ b w, nested.dec members deletes (S depth) b w
                 = Some (control_block.dec b w)) as Hbdec.
  { intros b w0. by apply dec_inert_all. }
  destruct c; try reflexivity; cbn [nested.exec exec].
  - (* x = r *)
    unfold nested.assign_copy, shared_ptr.assign_copy.
    repeat (apply nbind_lift; [done|]; intros).
    match goal with |- context [match ?o with Some _ => _ | None => _ end] =>
      destruct o end; [apply Hbdec | done].
  - (* x = std::move(r) *)
    unfold nested.assign_move, shared_ptr.assign_move.
    repeat (apply nbind_lift; [done|]; intros).
    case_decide.
    + by repeat (apply nbind_lift; [done|]; intros).
    + apply nbind_lift; [apply Hdec|]. intros.
      by repeat (apply nbind_lift; [done|]; intros).
  - (* x.reset() *)
    unfold nested.reset, shared_ptr.reset.
    apply nbind_lift; [apply Hdec|]. intros.
    by repeat (apply nbind_lift; [done|]; intros).
  - (* x.reset(p) *)
    unfold nested.reset_ptr, shared_ptr.reset_ptr.
    apply nbind_lift; [apply Hdec|]. intros.
    by repeat (apply nbind_lift; [done|]; intros).
  - (* x.reset(p, d) *)
    unfold nested.reset_ptr_deleter, shared_ptr.reset_ptr_deleter.
    apply nbind_lift; [apply Hdec|]. intros. done.
  - (* the end of x *)
    apply dtor_inert. intros. apply Hnone.
Qed.

End inert.

(** [destroy] on a block whose last observer is a member of the managed
    value: the destructor of the value ends the observer, and [wdec] gives
    the block back. *)
Lemma destroy_frees_block (members : addr → list member)
    (deletes : deleter → bool) (block_dec : loc → N unit) (w : world)
    (b : loc) (cb : control_block) (obj : addr) (k : name) (hk : handle) :
  heap w !! b = Some cb → ref cb = 0 → wref cb = 1 →
  managed_value deletes b (derived cb) = Some obj →
  members obj = [weak_member k] →
  weak w !! k = Some hk → block hk = Some b →
  nested.destroy members deletes block_dec b w
  = Some (Ok tt
            (set_weak (delete k)
               (set_trace
                  (λ t, t ++ Destroy b :: disposal b (derived cb)
                          ++ [Wdec b; DeleteThis b])
                  (set_heap (delete b) w)))).
Proof.
  intros Hb Href Hwref Hobj Hms Hk Hhk.
  assert (nested.members_dtor block_dec [weak_member k]
            (set_trace (λ t, t ++ Destroy b :: disposal b (derived cb)) w)
          = Some (Ok tt
                    (set_weak (delete k)
                       (set_trace
                          (λ t, t ++ Destroy b :: disposal b (derived cb)
                                  ++ [Wdec b; DeleteThis b])
                          (set_heap (delete b) w))))) as Hdtor.
  { simpl. unfold nested.member_dtor, lift, mbind, N_bind, mret, N_ret.
    rewrite (wp_dtor_Ok k hk b cb); [|done..|rewrite Hwref; by vm_compute].
    unfold heap_wdec, trace_wdec.
    rewrite !decide_True by done.
    do 2 f_equal. destruct w as [H S W a t]. simpl in *.
    apply world_eq; try done; simpl.
    - by rewrite decide_True.
    - by rewrite <- !app_assoc. }
  unfold managed_value in Hobj. unfold disposal in Hdtor.
  unfold nested.destroy, nested.value_dtor.
  rewrite (nbind_Ok _ _ w w cb) by (unfold lift, load; by rewrite Hb).
  rewrite (nbind_Ok _ _ w (set_trace (λ t, t ++ [Destroy b]) w) tt) by done.
  assert (∀ t1 t2 : list event,
            set_trace (λ t, t ++ t2) (set_trace (λ t, t ++ t1) w)
            = set_trace (λ t, t ++ t1 ++ t2) w) as Htr.
  { intros t1 t2. destruct w as [H S W a t]. unfold set_trace. simpl.
    by rewrite <- app_assoc. }
  destruct (derived cb) as [o|o d|]; simpl in Hobj, Hdtor |- *.
  - destruct (decide (o ≠ nullptr)); [|done]. simplify_eq.
    rewrite (nbind_Ok _ _ _
               (set_trace (λ t, t ++ [DeleteObj obj])
                  (set_trace (λ t, t ++ [Destroy b]) w)) tt) by done.
    by rewrite Hms, Htr.
  - destruct (decide (o ≠ nullptr)); [|done].
    destruct (deletes d); [|done]. simplify_eq.
    rewrite (nbind_Ok _ _ _
               (set_trace (λ t, t ++ [CallDeleter d obj])
                  (set_trace (λ t, t ++ [Destroy b]) w)) tt) by done.
    by rewrite Hms, Htr.
  - simplify_eq.
    rewrite (nbind_Ok _ _ _
               (set_trace (λ t, t ++ [Dtor (get_obj b)])
                  (set_trace (λ t, t ++ [Destroy b]) w)) tt) by done.
    by rewrite Hms, Htr.
Qed.

(** The world in which [control_block::dec] calls [destroy] on the block [b]
    that it found in the state [cb] with the strong count at 1. *)
Lemma dec_reaches_destroy (members : addr → list member)
    (deletes : deleter → bool) (block_dec : loc → N unit) (w : world)
    (b : loc) (cb : control_block) :
  heap w !! b = Some cb → ref cb = 1 →
  nested.dec_body members deletes block_dec b w
  = (nested.destroy members deletes block_dec b ≫= λ _,
       cb ← lift (load b);
       if decide (wref cb = 0) then lift (delete_this b) else mret tt)
      (set_heap (insert b (set_ref 0 cb))
         (set_trace (λ t, t ++ [Dec b]) w)).
Proof.
  intros Hb Href. unfold nested.dec_body.
  rewrite (nbind_Ok _ _ w w cb) by (unfold lift, load; by rewrite Hb).
  rewrite (nbind_Ok _ _ w (set_trace (λ t, t ++ [Dec b]) w) tt) by done.
  rewrite (nbind_Ok _ _ _
             (set_heap (insert b (set_ref 0 cb))
                (set_trace (λ t, t ++ [Dec b]) w)) tt).
  - rewrite (nbind_Ok _ _ _
               (set_heap (insert b (set_ref 0 cb))
                  (set_trace (λ t, t ++ [Dec b]) w)) (set_ref 0 cb)).
    + by rewrite decide_False by (simpl; lia).
    + unfold lift, load. simpl. by rewrite lookup_insert_eq.
  - unfold lift, store. simpl. rewrite Hb, Href. done.
Qed.

Lemma dec_reads_freed_block (members : addr → list member)
    (deletes : deleter → bool) (depth : nat) (w : world)
    (b : loc) (cb : control_block) (obj : addr) (k : name) (hk : handle) :
  heap w !! b = Some cb → ref cb = 1 → wref cb = 1 →
  managed_value deletes b (derived cb) = Some obj →
  members obj = [weak_member k] →
  weak w !! k = Some hk → block hk = Some b →
  nested.dec members deletes (S depth) b w = Some UB.
Proof.
  intros Hb Href Hwref Hobj Hms Hk Hhk. simpl.
  rewrite (dec_reaches_destroy _ _ _ w b cb) by done.
  erewrite nbind_Ok;
    [|apply (destroy_frees_block members deletes _ _ b (set_ref 0 cb) obj k hk);
      try done; simpl; by rewrite lookup_insert_eq].
  unfold lift, load, mbind, N_bind. simpl.
  by rewrite lookup_delete_eq.
Qed.

(** *** One block, with the disposal followed *)

(** The counting members keep the variant of the block. *)
Lemma apply_op_derived (b : loc) (o : op) (cb cb2 : control_block)
    (w w2 : world) :
  heap w !! b = Some cb → in_use cb → permitted o cb = true →
  apply_op b o w = Ok tt w2 → heap w2 !! b = Some cb2 →
  derived cb2 = derived cb.
Proof.
  intros Hb (Hr & Hw & Hpos) Hperm Hstep Hb2.
  destruct o; simpl in *; apply bool_decide_eq_true in Hperm.
  - rewrite (inc_Ok b cb w Hb) in Hstep. simplify_eq. simpl in Hb2.
    rewrite lookup_insert_eq in Hb2. by simplify_eq.
  - rewrite (dec_Ok b cb w Hb) in Hstep by lia. simplify_eq. simpl in Hb2.
    unfold heap_dec in Hb2. repeat case_decide.
    + by rewrite lookup_delete_eq in Hb2.
    + rewrite lookup_insert_eq in Hb2. by simplify_eq.
    + rewrite lookup_insert_eq in Hb2. by simplify_eq.
  - rewrite (winc_Ok b cb w Hb) in Hstep. simplify_eq. simpl in Hb2.
    rewrite lookup_insert_eq in Hb2. by simplify_eq.
  - rewrite (wdec_Ok b cb w Hb) in Hstep by lia. simplify_eq. simpl in Hb2.
    unfold heap_wdec in Hb2. case_decide.
    + by rewrite lookup_delete_eq in Hb2.
    + rewrite lookup_insert_eq in Hb2. by simplify_eq.
Qed.

Lemma apply_op_inert (members : addr → list member) (deletes : deleter → bool)
    (depth : nat) (b : loc) (o : op) (cb : control_block) (w : world) :
  heap w !! b = Some cb →
  (∀ obj, managed_value deletes b (derived cb) = Some obj → members obj = []) →
  nested.apply_op members deletes (S depth) b o w = Some (apply_op b o w).
Proof.
  intros Hb Hnone. destruct o; try reflexivity.
  apply (dec_inert members deletes depth b cb); [done|]. by intros _.
Qed.

Lemma run_in_domain (members : addr → list member) (deletes : deleter → bool)
    (depth : nat) (b : loc) (ops : list op) :
  ∀ (w : world) (cb : control_block),
    heap w !! b = Some cb → in_use cb →
    (∀ obj, managed_value deletes b (derived cb) = Some obj →
            members obj = []) →
    in_domain ops cb = true →
    ∃ w' : world,
      nested.run members deletes (S depth) b ops w = Some (Ok tt w')
      ∧ (destroyed b w' + dead b w = destroyed b w + dead b w')%nat
      ∧ (freed b w' + gone b w = freed b w + gone b w')%nat
      ∧ ∀ (pre : list op) (o : op) (post : list op),
          ops = pre ++ o :: post →
          ∃ (w1 w2 : world) (cb1 : control_block),
            nested.run members deletes (S depth) b pre w = Some (Ok tt w1)
            ∧ heap w1 !! b = Some cb1
            ∧ nested.apply_op members deletes (S depth) b o w1
              = Some (Ok tt w2)
            ∧ instant b o cb1 w1 w2.
Proof.
  induction ops as [|o ops IH]; intros w cb Hb Huse Hnone Hdom.
  - exists w. repeat split; try done.
    intros pre o post Heq. by destruct pre.
  - cbn [in_domain] in Hdom. apply andb_prop in Hdom as [Hperm Hdom].
    destruct (apply_op_permitted b o cb w Hb Huse Hperm)
      as (w2 & Hstep & Hinst & Hcb2).
    assert (nested.apply_op members deletes (S depth) b o w
            = Some (Ok tt w2)) as Hnstep.
    { by rewrite (apply_op_inert members deletes depth b o cb w Hb Hnone),
        Hstep. }
    destruct (instant_balance b o cb w w2 Hb Huse Hperm Hinst Hcb2)
      as [Hd Hf].
    destruct (decide (after o cb = (0, 0))) as [Hz|Hz].
    + apply bool_decide_eq_true in Hdom as ->.
      exists w2. split; [|split; [|split]].
      * cbn [nested.run]. by rewrite (nbind_Ok _ _ _ _ _ Hnstep).
      * done.
      * done.
      * intros pre o' post Heq. destruct pre as [|o0 pre]; simplify_eq/=.
        -- exists w, w2, cb. done.
        -- by destruct pre.
    + destruct (heap w2 !! b) as [cb2|] eqn:Hb2.
      * destruct Hcb2 as [Huse2 Hafter].
        pose proof (apply_op_derived b o cb cb2 w w2 Hb Huse Hperm Hstep Hb2)
          as Hder.
        assert (mk_control_block (fst (after o cb)) (snd (after o cb))
                  (derived cb) = cb2) as Hcb.
        { rewrite <- Hafter, <- Hder. by destruct cb2. }
        rewrite Hcb in Hdom.
        destruct (IH w2 cb2 Hb2 Huse2 ltac:(by rewrite Hder) Hdom)
          as (w' & Hrun & Hd' & Hf' & Hsteps).
        exists w'. split; [|split; [|split]].
        -- cbn [nested.run]. by rewrite (nbind_Ok _ _ _ _ _ Hnstep).
        -- lia.
        -- lia.
        -- intros pre o' post Heq. destruct pre as [|o0 pre]; simplify_eq/=.
           ++ exists w, w2, cb. done.
           ++ destruct (Hsteps pre o' post eq_refl)
                as (w1 & w3 & cb1 & Hpre & Hb1 & Hstep1 & Hinst1).
              exists w1, w3, cb1. split; [|done].
              by rewrite (nbind_Ok _ _ _ _ _ Hnstep).
      * exfalso. apply Hz. destruct Hinst as (_ & _ & Hgone & _).
        apply Hgone. unfold liveness_of. by rewrite Hb2.
Qed.

(** The destructor of an owner, where the disposal releases nothing. *)
Lemma dtor_owner_inert (members : addr → list member)
    (deletes : deleter → bool) (depth : nat) (x : name) (h : handle)
    (b : loc) (cb : control_block) (w : world) :
  shared w !! x = Some h → block h = Some b → heap w !! b = Some cb →
  0 < ref cb ≤ SIZE_MAX →
  (ref cb = 1 →
   ∀ obj, managed_value deletes b (derived cb) = Some obj → members obj = []) →
  nested.dtor members deletes (S depth) x w = Some (shared_ptr.dtor x w).
Proof.
  intros Hx Hb Hcb Hr Hnone.
  unfold nested.dtor, nested.handle_dtor, shared_ptr.dtor.
  apply nbind_lift; [|done].
  unfold nested.handle_dec, shared_ptr.dec.
  apply nbind_lift; [done|]. intros ob w1 Hfield.
  unfold shared_ptr.field in Hfield. rewrite Hx in Hfield. simplify_eq.
  rewrite Hb. apply (dec_inert members deletes depth b cb); [done|].
  intros Hz. apply Hnone.
  destruct (decide (ref cb = 1)) as [|Hne]; [done|].
  rewrite wrap_small in Hz by lia. lia.
Qed.

(** [destroy] records the disposal and runs the destructor of the managed
    value, if there is one. *)
Lemma destroy_value (members : addr → list member) (deletes : deleter → bool)
    (block_dec : loc → N unit) (b : loc) (cb : control_block) (w : world) :
  heap w !! b = Some cb →
  nested.destroy members deletes block_dec b w
  = match managed_value deletes b (derived cb) with
    | Some obj => nested.value_dtor members block_dec obj
    | None => mret tt
    end (set_trace (λ t, t ++ Destroy b :: disposal b (derived cb)) w).
Proof.
  intros Hb.
  assert (∀ t1 t2 : list event,
            set_trace (λ t, t ++ t2) (set_trace (λ t, t ++ t1) w)
            = set_trace (λ t, t ++ t1 ++ t2) w) as Htr.
  { intros t1 t2. destruct w as [H S W a t]. unfold set_trace. simpl.
    by rewrite <- app_assoc. }
  assert (set_trace (λ t, t ++ [Destroy b]) w
          = set_trace (λ t, t ++ Destroy b :: []) w) as Hnil by done.
  unfold nested.destroy, managed_value, disposal.
  rewrite (nbind_Ok _ _ w w cb) by (unfold lift, load; by rewrite Hb).
  rewrite (nbind_Ok _ _ w (set_trace (λ t, t ++ [Destroy b]) w) tt) by done.
  destruct (derived cb) as [o|o d|].
  - rewrite (nbind_Ok _ _ _
               (set_trace (λ t, t ++ [DeleteObj o])
                  (set_trace (λ t, t ++ [Destroy b]) w)) tt) by done.
    rewrite Htr. by destruct (decide (o ≠ nullptr)).
  - destruct (decide (o ≠ nullptr)); [|done].
    rewrite (nbind_Ok _ _ _
               (set_trace (λ t, t ++ [CallDeleter d o])
                  (set_trace (λ t, t ++ [Destroy b]) w)) tt) by done.
    rewrite Htr. by destruct (deletes d).
  - rewrite (nbind_Ok _ _ _
               (set_trace (λ t, t ++ [Dtor (get_obj b)])
                  (set_trace (λ t, t ++ [Destroy b]) w)) tt) by done.
    by rewrite Htr.
Qed.

(** What follows [destroy] in [control_block::dec], on a block that is still
    allocated. *)
Lemma dec_after_destroy (b : loc) (cb : control_block) (w : world) :
  heap w !! b = Some cb →
  (cb ← lift (load b);
   if decide (wref cb = 0) then lift (delete_this b) else mret tt) w
  = Some (Ok tt
            (if decide (wref cb = 0)
             then set_trace (λ t, t ++ [DeleteThis b]) (set_heap (delete b) w)
             else w)).
Proof.
  intros Hb.
  rewrite (nbind_Ok _ _ w w cb) by (unfold lift, load; by rewrite Hb).
  case_decide; [|done]. unfold lift, delete_this. by rewrite Hb.
Qed.

(** The last owner releases a value whose only member handle is the empty
    [shared_ptr] [r]: the handle [r] is gone when [dec] returns. *)
Lemma dec_ends_member (members : addr → list member) (deletes : deleter → bool)
    (depth : nat) (w : world) (b : loc) (cb : control_block) (obj : addr)
    (r : name) (hr : handle) :
  heap w !! b = Some cb → ref cb = 1 →
  managed_value deletes b (derived cb) = Some obj →
  members obj = [shared_member r] →
  shared w !! r = Some hr → block hr = None →
  ∃ w' : world,
    nested.dec members deletes (S depth) b w = Some (Ok tt w')
    ∧ shared w' = delete r (shared w).
Proof.
  intros Hb Href Hobj Hms Hr Hhr. simpl.
  rewrite (dec_reaches_destroy _ _ _ w b cb) by done.
  rewrite (nbind_Ok _ _ _
             (set_shared (delete r)
                (set_trace
                   (λ t, t ++ Destroy b :: disposal b (derived cb))
                   (set_heap (insert b (set_ref 0 cb))
                      (set_trace (λ t, t ++ [Dec b]) w)))) tt).
  - rewrite (dec_after_destroy b (set_ref 0 cb))
      by (simpl; by rewrite lookup_insert_eq).
    eexists. split; [done|]. by case_decide.
  - rewrite (destroy_value _ _ _ b (set_ref 0 cb))
      by (simpl; by rewrite lookup_insert_eq).
    simpl. rewrite Hobj. unfold nested.value_dtor. rewrite Hms. simpl.
    unfold nested.handle_dtor, nested.handle_dec, lift, shared_ptr.field,
      shared_ptr.forget, modify, mbind, N_bind, mret, N_ret.
    simpl. rewrite Hr, Hhr. done.
Qed.

(** The last owner releases a node whose member is the last owner of another
    node: the other node is released inside [destroy], one level down. *)
Lemma dec_cascade (members : addr → list member) (deletes : deleter → bool)
    (depth : nat) (w : world) (r : name) (hr : handle) (b1 b2 : loc)
    (cb1 cb2 : control_block) (obj1 : addr) :
  shared w !! r = Some hr → block hr = Some b2 → b1 ≠ b2 →
  heap w !! b1 = Some cb1 → ref cb1 = 1 → wref cb1 = 0 →
  heap w !! b2 = Some cb2 → ref cb2 = 1 → wref cb2 = 0 →
  managed_value deletes b1 (derived cb1) = Some obj1 →
  members obj1 = [shared_member r] →
  (∀ obj, managed_value deletes b2 (derived cb2) = Some obj →
          members obj = []) →
  nested.dec members deletes (S (S depth)) b1 w
  = Some (Ok tt
            (mk_world (delete b1 (delete b2 (heap w)))
               (delete r (shared w)) (weak w) (avail w)
               (trace w
                  ++ Dec b1 :: Destroy b1 :: disposal b1 (derived cb1)
                  ++ Dec b2 :: Destroy b2 :: disposal b2 (derived cb2)
                  ++ [DeleteThis b2; DeleteThis b1])))
  ∧ nested.dec members deletes 1 b1 w = None.
Proof.
  intros Hr Hhr Hne Hb1 Hr1 Hw1 Hb2 Hr2 Hw2 Hobj Hms Hnone.
  set (w0 := set_heap (insert b1 (set_ref 0 cb1))
               (set_trace (λ t, t ++ [Dec b1]) w)).
  set (w1 := set_trace (λ t, t ++ Destroy b1 :: disposal b1 (derived cb1)) w0).
  assert (heap w0 !! b1 = Some (set_ref 0 cb1)) as Hb10
    by (simpl; by rewrite lookup_insert_eq).
  assert (heap w1 !! b2 = Some cb2) as Hb21
    by (simpl; by rewrite lookup_insert_ne).
  assert (shared w1 !! r = Some hr) as Hr1' by done.
  split.
  - change (nested.dec members deletes (S (S depth)) b1 w)
      with (nested.dec_body members deletes
              (nested.dec members deletes (S depth)) b1 w).
    rewrite (dec_reaches_destroy _ _ _ w b1 cb1) by done. fold w0.
    set (w2 := set_shared (delete r)
                 (set_trace (λ t, t ++ trace_dec b2 cb2)
                    (set_heap (heap_dec b2 cb2) w1))).
    rewrite (nbind_Ok _ _ w0 w2 tt).
    + rewrite (dec_after_destroy b1 (set_ref 0 cb1)).
      * simpl. rewrite decide_True by done. do 2 f_equal.
        unfold w2, w1, w0, heap_dec, trace_dec.
        rewrite !decide_True by done.
        destruct w as [H S W a t]. simpl in *.
        apply world_eq; try done; simpl.
        -- rewrite !decide_True by done.
           by rewrite delete_insert_ne, delete_insert_eq by done.
        -- repeat (rewrite <- app_assoc; simpl). done.
      * unfold w2, w1, w0, heap_dec. simpl.
        rewrite !decide_True by done.
        by rewrite lookup_delete_ne, lookup_insert_eq.
    + rewrite (destroy_value _ _ _ b1 (set_ref 0 cb1)) by done.
      simpl. rewrite Hobj. fold w1. unfold nested.value_dtor. rewrite Hms.
      cbn [nested.members_dtor nested.member_dtor].
      unfold nested.handle_dtor, nested.handle_dec.
      rewrite (nbind_Ok _ _ w1 w2 tt); [done|].
      rewrite (nbind_Ok _ _ w1
                 (set_trace (λ t, t ++ trace_dec b2 cb2)
                    (set_heap (heap_dec b2 cb2) w1)) tt); [done|].
      rewrite (nbind_Ok _ _ w1 w1 (Some b2))
        by (unfold lift, shared_ptr.field; by rewrite Hr1', Hhr).
      etrans; [by apply (dec_inert members deletes depth b2 cb2 w1)|].
      f_equal. apply dec_Ok; [done|]. rewrite Hr2. by vm_compute.
  - change (nested.dec members deletes 1 b1 w)
      with (nested.dec_body members deletes
              (nested.dec members deletes 0) b1 w).
    rewrite (dec_reaches_destroy _ _ _ w b1 cb1) by done. fold w0.
    unfold mbind at 1. unfold N_bind.
    rewrite (destroy_value _ _ _ b1 (set_ref 0 cb1)) by done.
    simpl. rewrite Hobj. fold w1. unfold nested.value_dtor. rewrite Hms.
    cbn [nested.members_dtor nested.member_dtor].
    unfold nested.handle_dtor, nested.handle_dec.
    unfold mbind, N_bind, lift, shared_ptr.field.
    by rewrite Hr1', Hhr.
Qed.
(** * The claims *)

(** ** Move assignment between handles on one block *)

(** C1, where the code departs from it.  When the destination and the source
    of a move assignment hold the same block reference, the destination takes
    the source's address and nothing else changes: the source keeps its block
    and its address.  It is not reset to empty, as the other branch of
    [assign] and the move constructors reset a source they moved from.  No
    block is touched and no count operation runs. *)
Theorem move_assign_same_block (w : world) (this r : name) (ht hr : handle) :
  block ht = block hr →
  (shared w !! this = Some ht → shared w !! r = Some hr →
     ∃ w' : world,
       shared_ptr.assign_move this r w = Ok tt w'
       ∧ shared w' = <[ this := mk_handle (block ht) (ptr hr) ]> (shared w)
       ∧ shared w' !! r = Some hr
       ∧ weak w' = weak w ∧ heap w' = heap w ∧ trace w' = trace w)
  ∧ (weak w !! this = Some ht → weak w !! r = Some hr →
     ∃ w' : world,
       weak_ptr.assign_move this r w = Ok tt w'
       ∧ weak w' = <[ this := mk_handle (block ht) (ptr hr) ]> (weak w)
       ∧ weak w' !! r = Some hr
       ∧ shared w' = shared w ∧ heap w' = heap w ∧ trace w' = trace w).
Proof.
  intros Hb. split; intros Ht Hr.
  - exists (set_shared (insert this (mk_handle (block ht) (ptr hr))) w).
    split; [by apply sp_assign_move_same|].
    repeat split. simpl. by apply source_survives.
  - exists (set_weak (insert this (mk_handle (block ht) (ptr hr))) w).
    split; [by apply wp_assign_move_same|].
    repeat split. simpl. by apply source_survives.
Qed.

Lemma move_assign_same_block_witness :
  (∃ w' : world,
     shared_ptr.assign_move 0 1 w_aliased = Ok tt w'
     ∧ shared w'
       = <[ 0%nat := mk_handle (Some 1%positive) 20 ]> (shared w_aliased)
     ∧ shared w' !! 1%nat = Some (mk_handle (Some 1%positive) 20)
     ∧ weak w' = weak w_aliased ∧ heap w' = heap w_aliased
     ∧ trace w' = trace w_aliased)
  ∧ (∃ w' : world,
     weak_ptr.assign_move 0 1 w_aliased = Ok tt w'
     ∧ weak w' = <[ 0%nat := mk_handle (Some 1%positive) 20 ]> (weak w_aliased)
     ∧ weak w' !! 1%nat = Some (mk_handle (Some 1%positive) 20)
     ∧ shared w' = shared w_aliased ∧ heap w' = heap w_aliased
     ∧ trace w' = trace w_aliased).
Proof.
  destruct (move_assign_same_block w_aliased 0 1
              (mk_handle (Some 1%positive) 10) (mk_handle (Some 1%positive) 20)
              eq_refl) as [Hs Hw].
  split; [apply Hs | apply Hw]; reflexivity.
Defined.

(** The failing input of C1: after [p = std::move(q)] with [p] and [q] two
    handles on one block, [q] still holds the block and its address. *)
Lemma move_assign_same_block_source_not_reset :
  ∃ w' w'' : world,
    shared_ptr.assign_move 0 1 w_aliased = Ok tt w'
    ∧ shared w' !! 0%nat = Some (mk_handle (Some 1%positive) 20)
    ∧ shared w' !! 1%nat = Some (mk_handle (Some 1%positive) 20)
    ∧ shared w' !! 1%nat ≠ Some (mk_handle None nullptr)
    ∧ weak_ptr.assign_move 0 1 w_aliased = Ok tt w''
    ∧ weak w'' !! 1%nat = Some (mk_handle (Some 1%positive) 20)
    ∧ weak w'' !! 1%nat ≠ Some (mk_handle None nullptr).
Proof.
  eexists _, _.
  split; [vm_compute; reflexivity|].
  split; [reflexivity|]. split; [reflexivity|]. split; [by vm_compute|].
  split; [vm_compute; reflexivity|].
  split; [reflexivity|]. by vm_compute.
Qed.

(** ** [reset] when the allocation fails *)

(** C2 at the failing input.  The only owner of a block calls [reset(r)] and
    the allocation of the new block fails.  The old block has been released
    and deallocated, the exception leaves, and the handle still holds the old
    block reference and the old address: its destructor then runs [dec] on a
    block that is not allocated.  [reset(r, deleter)] from the same state
    leaves the handle empty. *)
Theorem reset_ptr_bad_alloc_keeps_released_block :
  ∃ w' w'' : world,
    shared_ptr.reset_ptr 0 20 w_sole_owner = Throw w'
    ∧ trace w'
      = [Dec 1%positive; Destroy 1%positive; DeleteObj 10; DeleteThis 1%positive]
    ∧ heap w' !! 1%positive = None
    ∧ shared w' !! 0%nat = Some (mk_handle (Some 1%positive) 10)
    ∧ shared_ptr.dtor 0 w' = UB
    ∧ shared_ptr.reset_ptr_deleter 0 20 5 w_sole_owner = Throw w''
    ∧ shared w'' !! 0%nat = Some (mk_handle None nullptr)
    ∧ shared_ptr.dtor 0 w''
      = Ok tt (mk_world ∅ ∅ ∅ 0
                 [Dec 1%positive; Destroy 1%positive; DeleteObj 10;
                  DeleteThis 1%positive; CallDeleter 5 20]).
Proof.
  eexists _, _.
  split; [vm_compute; reflexivity|].
  do 4 (split; [reflexivity|]).
  split; [vm_compute; reflexivity|].
  split; reflexivity.
Qed.

(** X2. [reset(r, deleter)] on a handle whose release of the old block
    succeeds, when the allocation of the new block fails: the failure leaves
    as an exception, the handle is empty, and the deleter was called on [r],
    once, after the release. *)
Theorem reset_ptr_deleter_bad_alloc_empties (this : name) (r : addr)
    (d : deleter) (h : handle) (w w1 : world) :
  shared w !! this = Some h → avail w = 0%nat →
  shared_ptr.dec this w = Ok tt w1 →
  ∃ w' : world,
    shared_ptr.reset_ptr_deleter this r d w = Throw w'
    ∧ shared w' !! this = Some (mk_handle None nullptr)
    ∧ heap w' = heap w1
    ∧ trace w' = trace w1 ++ [CallDeleter d r].
Proof.
  intros Hthis Hn Hdec. eexists. split.
  - by eapply reset_ptr_deleter_bad_alloc.
  - simpl. by rewrite lookup_insert_eq.
Qed.

Lemma reset_ptr_deleter_bad_alloc_empties_witness :
  ∃ w' : world,
    shared_ptr.reset_ptr_deleter 0 20 5 w_sole_owner = Throw w'
    ∧ shared w' !! 0%nat = Some (mk_handle None nullptr)
    ∧ heap w' = ∅
    ∧ trace w'
      = [Dec 1%positive; Destroy 1%positive; DeleteObj 10;
         DeleteThis 1%positive] ++ [CallDeleter 5 20].
Proof.
  apply (reset_ptr_deleter_bad_alloc_empties 0 20 5
           (mk_handle (Some 1%positive) 10) w_sole_owner
           (mk_world ∅ {[ 0%nat := mk_handle (Some 1%positive) 10 ]} ∅ 0
              [Dec 1%positive; Destroy 1%positive; DeleteObj 10;
               DeleteThis 1%positive]));
    reflexivity.
Defined.

(** ** Construction when the allocation fails *)

(** C3 at the failing input.  [shared_ptr(Y *ptr)] is declared [noexcept]:
    when the allocation of its block fails, the exception does not reach the
    caller, the program is terminated. *)
Theorem ctor_ptr_bad_alloc_terminates (w : world) (p : addr) :
  shared_ptr.ctor_ptr p (set_avail 0 w) = Terminate.
Proof. reflexivity. Qed.

(** X1. [shared_ptr(Y *ptr, D deleter)] when the allocation of its block
    fails: the deleter is called on the pointer, once and also when the
    pointer is null, nothing else happens, and the failure leaves as an
    exception. *)
Theorem ctor_ptr_deleter_bad_alloc_disposes (w : world) (p : addr)
    (d : deleter) :
  shared_ptr.ctor_ptr_deleter p d (set_avail 0 w)
  = Throw (set_trace (λ t, t ++ [CallDeleter d p]) (set_avail 0 w)).
Proof. by apply ctor_ptr_deleter_bad_alloc. Qed.

(** ** The life of a control block *)

(** C4, where the code departs from it.  Take a block whose managed value
    holds the last [weak_ptr] to the block, as an object does that observes
    itself, and let the last owner call [dec]:

    - [destroy] runs the destructor of the value, which ends the [weak_ptr];
      its [wdec] finds both counts at 0 and gives the block back, while
      [dec] is still running;
    - back in [dec], the test [wref == 0] reads the block that was given
      back, which is undefined behaviour; where the read yields 0, the block
      is given back a second time.

    So it is with the destructor of the last owner. *)
Theorem last_owner_of_self_observing_value (members : addr → list member)
    (deletes : deleter → bool) (depth : nat) (w : world) (b : loc)
    (cb : control_block) (obj : addr) (k : name) (hk : handle) :
  heap w !! b = Some cb → ref cb = 1 → wref cb = 1 →
  managed_value deletes b (derived cb) = Some obj →
  members obj = [weak_member k] →
  weak w !! k = Some hk → block hk = Some b →
  (∃ w1 : world,
     nested.destroy members deletes (nested.dec members deletes depth) b
       (set_heap (insert b (set_ref 0 cb)) (set_trace (λ t, t ++ [Dec b]) w))
     = Some (Ok tt w1)
     ∧ liveness_of b w1 = Gone
     ∧ freed b w1 = S (freed b w))
  ∧ nested.dec members deletes (S depth) b w = Some UB
  ∧ ∀ (x : name) (hx : handle),
      shared w !! x = Some hx → block hx = Some b →
      nested.dtor members deletes (S depth) x w = Some UB.
Proof.
  intros Hb Href Hwref Hobj Hms Hk Hhk.
  assert (nested.dec members deletes (S depth) b w = Some UB) as Hdec
    by by apply (dec_reads_freed_block _ _ _ _ b cb obj k hk).
  split; [|split; [done|]].
  - eexists. split.
    + apply (destroy_frees_block members deletes _ _ b (set_ref 0 cb) obj k hk);
        try done.
      simpl. by rewrite lookup_insert_eq.
    + unfold liveness_of, freed. simpl. rewrite lookup_delete_eq.
      split; [done|].
      rewrite !count_occ_app. simpl. rewrite count_occ_app.
      destruct (count_disposal b b (derived cb)) as [_ ->]. simpl.
      rewrite count_same. lia.
  - intros x hx Hx Hbx.
    unfold nested.dtor, nested.handle_dtor, nested.handle_dec.
    apply nbind_UB.
    rewrite (nbind_Ok _ _ w w (Some b)); [done|].
    unfold lift, shared_ptr.field. by rewrite Hx, Hbx.
Qed.

(** An object at address 10 that holds the only [weak_ptr] to its block, and
    the only [shared_ptr] that owns it. *)
Lemma last_owner_of_self_observing_value_witness :
  (∃ w1 : world,
     nested.destroy self_observer deleting (nested.dec self_observer deleting 0)
       1
       (set_heap
          (insert 1%positive
             (set_ref 0 (mk_control_block 1 1 (default_control_block 10))))
          (set_trace (λ t, t ++ [Dec 1%positive]) w_self_observer))
     = Some (Ok tt w1)
     ∧ liveness_of 1 w1 = Gone
     ∧ freed 1 w1 = S (freed 1 w_self_observer))
  ∧ nested.dec self_observer deleting 1 1 w_self_observer = Some UB
  ∧ ∀ (x : name) (hx : handle),
      shared w_self_observer !! x = Some hx → block hx = Some 1%positive →
      nested.dtor self_observer deleting 1 x w_self_observer = Some UB.
Proof.
  apply (last_owner_of_self_observing_value self_observer deleting 0
           w_self_observer 1
           (mk_control_block 1 1 (default_control_block 10)) 10 0
           (mk_handle (Some 1%positive) 10));
    reflexivity.
Defined.

(** ** Promotion *)

(** C5. [lock] on a weak handle that holds no block, or whose block has no
    owner left, returns the empty handle and changes nothing.  Otherwise it
    returns a handle on the same block with the same address; the block's
    strong count has grown by one, and the only thing that ran between the
    test and the return is that increment: no disposal. *)
Theorem lock_promotes_live_blocks (w : world) (this : handle) :
  (block this = None →
     weak_ptr.lock this w = Ok (mk_handle None nullptr) w)
  ∧ (∀ (b : loc) (cb : control_block),
       block this = Some b → heap w !! b = Some cb → ref cb = 0 →
       weak_ptr.lock this w = Ok (mk_handle None nullptr) w)
  ∧ (∀ (b : loc) (cb : control_block),
       block this = Some b → heap w !! b = Some cb → 0 < ref cb < SIZE_MAX →
       ∃ w' : world,
         weak_ptr.lock this w = Ok (mk_handle (Some b) (ptr this)) w'
         ∧ heap w' = <[ b := set_ref (ref cb + 1) cb ]> (heap w)
         ∧ shared_ptr.use_count (mk_handle (Some b) (ptr this)) w'
           = Ok (ref cb + 1) w'
         ∧ trace w' = trace w ++ [Inc b]
         ∧ shared w' = shared w ∧ weak w' = weak w).
Proof.
  unfold weak_ptr.lock, shared_ptr.ctor_nullptr, shared_ptr.ctor_default,
    shared_ptr.ctor_block.
  split; [|split].
  - intros ->. reflexivity.
  - intros b cb -> Hb Hz. apply noexcept_Ok.
    rewrite (bind_Ok _ _ _ _ _ (use_count_Ok b cb w Hb)).
    by rewrite decide_True.
  - intros b cb -> Hb Hz.
    eexists. split.
    + apply noexcept_Ok.
      rewrite (bind_Ok _ _ _ _ _ (use_count_Ok b cb w Hb)).
      rewrite decide_False by lia.
      rewrite (bind_Ok _ _ _ _ _ (inc_Ok b cb w Hb)).
      reflexivity.
    + rewrite wrap_small by lia.
      repeat split.
      unfold shared_ptr.use_count, control_block.use_count. unfold_M.
      by lookups.
Qed.

Lemma lock_promotes_live_blocks_witness :
  weak_ptr.lock (mk_handle None nullptr) w_start
  = Ok (mk_handle None nullptr) w_start
  ∧ weak_ptr.lock (mk_handle (Some 1%positive) 10) w_expired
    = Ok (mk_handle None nullptr) w_expired
  ∧ ∃ w' : world,
      weak_ptr.lock (mk_handle (Some 1%positive) 20) w_aliased
      = Ok (mk_handle (Some 1%positive) 20) w'
      ∧ heap w'
        = <[ 1%positive := mk_control_block 3 2 (default_control_block 10) ]>
            (heap w_aliased)
      ∧ shared_ptr.use_count (mk_handle (Some 1%positive) 20) w' = Ok 3 w'
      ∧ trace w' = trace w_aliased ++ [Inc 1%positive]
      ∧ shared w' = shared w_aliased ∧ weak w' = weak w_aliased.
Proof.
  split; [|split].
  - apply (proj1 (lock_promotes_live_blocks w_start (mk_handle None nullptr))).
    reflexivity.
  - apply (proj1 (proj2 (lock_promotes_live_blocks w_expired
                           (mk_handle (Some 1%positive) 10)))
             1%positive (mk_control_block 0 1 (default_control_block 10)));
      reflexivity.
  - apply (proj2 (proj2 (lock_promotes_live_blocks w_aliased
                           (mk_handle (Some 1%positive) 20)))
             1%positive (mk_control_block 2 2 (default_control_block 10)));
      [reflexivity | reflexivity | split; reflexivity].
Defined.

(** ** Copy assignment between handles on one block *)

(** C6, as the code has it.  Copy assignment between two handles on one block
    has no identity test: it increments the count of the block and then
    decrements it.  Afterwards the destination holds the source's address,
    every count is what it was, and nothing was disposed of. *)
Theorem copy_assign_same_block (w : world) (this r : name) (ht hr : handle)
    (b : loc) (cb : control_block) :
  block ht = Some b → block hr = Some b → heap w !! b = Some cb →
  (shared w !! this = Some ht → shared w !! r = Some hr →
   0 < ref cb ≤ SIZE_MAX →
     ∃ w' : world,
       shared_ptr.assign_copy this r w = Ok tt w'
       ∧ shared w' = <[ this := mk_handle (Some b) (ptr hr) ]> (shared w)
       ∧ weak w' = weak w ∧ heap w' = heap w
       ∧ trace w' = trace w ++ [Inc b; Dec b])
  ∧ (weak w !! this = Some ht → weak w !! r = Some hr →
     0 < wref cb ≤ SIZE_MAX →
     ∃ w' : world,
       weak_ptr.assign_copy this r w = Ok tt w'
       ∧ weak w' = <[ this := mk_handle (Some b) (ptr hr) ]> (weak w)
       ∧ shared w' = shared w ∧ heap w' = heap w
       ∧ trace w' = trace w ++ [Winc b; Wdec b]).
Proof.
  intros Hbt Hbr Hb. split; intros Ht Hr Hrange.
  - eexists. split; [by eapply sp_assign_copy_same|]. done.
  - eexists. split; [by eapply wp_assign_copy_same|]. done.
Qed.

Lemma copy_assign_same_block_witness :
  (∃ w' : world,
     shared_ptr.assign_copy 0 1 w_aliased = Ok tt w'
     ∧ shared w'
       = <[ 0%nat := mk_handle (Some 1%positive) 20 ]> (shared w_aliased)
     ∧ weak w' = weak w_aliased ∧ heap w' = heap w_aliased
     ∧ trace w' = trace w_aliased ++ [Inc 1%positive; Dec 1%positive])
  ∧ (∃ w' : world,
     weak_ptr.assign_copy 0 1 w_aliased = Ok tt w'
     ∧ weak w' = <[ 0%nat := mk_handle (Some 1%positive) 20 ]> (weak w_aliased)
     ∧ shared w' = shared w_aliased ∧ heap w' = heap w_aliased
     ∧ trace w' = trace w_aliased ++ [Winc 1%positive; Wdec 1%positive]).
Proof.
  destruct (copy_assign_same_block w_aliased 0 1
              (mk_handle (Some 1%positive) 10) (mk_handle (Some 1%positive) 20)
              1%positive (mk_control_block 2 2 (default_control_block 10))
              eq_refl eq_refl eq_refl) as [Hs Hw].
  split; [apply Hs | apply Hw]; try reflexivity; split; by vm_compute.
Defined.

(** C6 as stated fails: [p = q] with [p] and [q] on one block runs [inc] and
    then [dec] on that block, and the weak handles run [winc] and [wdec]. *)
Lemma copy_assign_same_block_touches_counts :
  ∃ w' w'' : world,
    trace w_aliased = []
    ∧ shared_ptr.assign_copy 0 1 w_aliased = Ok tt w'
    ∧ trace w' = [Inc 1%positive; Dec 1%positive]
    ∧ weak_ptr.assign_copy 0 1 w_aliased = Ok tt w''
    ∧ trace w'' = [Winc 1%positive; Wdec 1%positive].
Proof.
  eexists _, _.
  split; [reflexivity|].
  split; [vm_compute; reflexivity|]. split; [reflexivity|].
  split; [vm_compute; reflexivity|]. reflexivity.
Qed.

(** ** Self-assignment *)

(** C7. Assigning a handle in use to itself, by copy or by move, leaves what
    can be observed as it was: the blocks and their strong and weak counts,
    the addresses every handle stores, and the managed values (nothing is
    disposed of). *)
Theorem self_assignment_is_unobservable (w : world) (this : name) (h : handle) :
  (shared w !! this = Some h → owns ref w h →
     (∃ w' : world,
        shared_ptr.assign_copy this this w = Ok tt w'
        ∧ observable w' = observable w)
     ∧ (∃ w' : world,
        shared_ptr.assign_move this this w = Ok tt w'
        ∧ observable w' = observable w))
  ∧ (weak w !! this = Some h → owns wref w h →
     (∃ w' : world,
        weak_ptr.assign_copy this this w = Ok tt w'
        ∧ observable w' = observable w)
     ∧ (∃ w' : world,
        weak_ptr.assign_move this this w = Ok tt w'
        ∧ observable w' = observable w)).
Proof.
  split; intros Hthis Hown; unfold owns in Hown;
    (split; [|exists w; split; [|done]]).
  - destruct (block h) as [b|] eqn:Hb.
    + destruct Hown as (cb & Hcb & Hrange). eexists. split.
      * by eapply sp_assign_copy_same.
      * unfold observable. simpl. rewrite List.filter_app, app_nil_r. simpl.
        rewrite <- Hb, handle_eta. by rewrite insert_id.
    + exists w. split; [by eapply sp_assign_copy_null | done].
  - erewrite sp_assign_move_same by done. by rewrite set_shared_id.
  - destruct (block h) as [b|] eqn:Hb.
    + destruct Hown as (cb & Hcb & Hrange). eexists. split.
      * by eapply wp_assign_copy_same.
      * unfold observable. simpl. rewrite List.filter_app, app_nil_r. simpl.
        rewrite <- Hb, handle_eta. by rewrite insert_id.
    + exists w. split; [by eapply wp_assign_copy_null | done].
  - erewrite wp_assign_move_same by done. by rewrite set_weak_id.
Qed.

Lemma owns_w_aliased :
  owns ref w_aliased (mk_handle (Some 1%positive) 10)
  ∧ owns wref w_aliased (mk_handle (Some 1%positive) 10).
Proof.
  split; exists (mk_control_block 2 2 (default_control_block 10));
    (split; [reflexivity | split; by vm_compute]).
Defined.

Lemma self_assignment_is_unobservable_witness :
  ((∃ w' : world,
      shared_ptr.assign_copy 0 0 w_aliased = Ok tt w'
      ∧ observable w' = observable w_aliased)
   ∧ (∃ w' : world,
      shared_ptr.assign_move 0 0 w_aliased = Ok tt w'
      ∧ observable w' = observable w_aliased))
  ∧ ((∃ w' : world,
      weak_ptr.assign_copy 0 0 w_aliased = Ok tt w'
      ∧ observable w' = observable w_aliased)
   ∧ (∃ w' : world,
      weak_ptr.assign_move 0 0 w_aliased = Ok tt w'
      ∧ observable w' = observable w_aliased)).
Proof.
  destruct (self_assignment_is_unobservable w_aliased 0
              (mk_handle (Some 1%positive) 10)) as [Hs Hw].
  split.
  - apply Hs; [reflexivity | apply owns_w_aliased].
  - apply Hw; [reflexivity | apply owns_w_aliased].
Defined.

(** ** Empty handles and handles on a null pointer *)

(** C8. A handle built from a typed null pointer owns a freshly allocated
    block: it counts one owner and tests false.  A handle built by the default
    constructor or from the null constant owns no block and counts zero
    owners.  The two handles differ. *)
Theorem typed_null_is_not_empty (w : world) (n : nat) :
  avail w = S n →
  ∃ (b : loc) (w' : world),
    shared_ptr.ctor_ptr nullptr w = Ok (mk_handle (Some b) nullptr) w'
    ∧ heap w !! b = None
    ∧ heap w' !! b = Some (mk_control_block 1 0 (default_control_block nullptr))
    ∧ shared_ptr.use_count (mk_handle (Some b) nullptr) w' = Ok 1 w'
    ∧ shared_ptr.operator_bool (mk_handle (Some b) nullptr) = false
    ∧ shared_ptr.ctor_default w = Ok (mk_handle None nullptr) w
    ∧ shared_ptr.ctor_nullptr w = Ok (mk_handle None nullptr) w
    ∧ shared_ptr.use_count (mk_handle None nullptr) w = Ok 0 w
    ∧ shared_ptr.operator_bool (mk_handle None nullptr) = false
    ∧ mk_handle (Some b) nullptr ≠ mk_handle None nullptr.
Proof.
  intros Hn.
  destruct (operator_new_fresh
    (control_block.init (default_control_block nullptr)) w n Hn)
    as (b & Hb & Hnew).
  exists b, (set_avail n (set_heap
    (insert b (control_block.init (default_control_block nullptr))) w)).
  repeat split; try done.
  - unfold shared_ptr.ctor_ptr. apply noexcept_Ok.
    by rewrite (bind_Ok _ _ _ _ _ Hnew).
  - simpl. by rewrite lookup_insert_eq.
  - unfold shared_ptr.use_count. apply noexcept_Ok. simpl.
    apply (use_count_Ok b (control_block.init (default_control_block nullptr))).
    simpl. by rewrite lookup_insert_eq.
Qed.

Lemma typed_null_is_not_empty_witness :
  avail w_start = 3%nat
  ∧ ∃ (b : loc) (w' : world),
    shared_ptr.ctor_ptr nullptr w_start = Ok (mk_handle (Some b) nullptr) w'
    ∧ heap w_start !! b = None
    ∧ heap w' !! b = Some (mk_control_block 1 0 (default_control_block nullptr))
    ∧ shared_ptr.use_count (mk_handle (Some b) nullptr) w' = Ok 1 w'
    ∧ shared_ptr.operator_bool (mk_handle (Some b) nullptr) = false
    ∧ shared_ptr.ctor_default w_start = Ok (mk_handle None nullptr) w_start
    ∧ shared_ptr.ctor_nullptr w_start = Ok (mk_handle None nullptr) w_start
    ∧ shared_ptr.use_count (mk_handle None nullptr) w_start = Ok 0 w_start
    ∧ shared_ptr.operator_bool (mk_handle None nullptr) = false
    ∧ mk_handle (Some b) nullptr ≠ mk_handle None nullptr.
Proof.
  split; [reflexivity|].
  apply (typed_null_is_not_empty w_start 2). reflexivity.
Defined.

(** ** Equality *)

(** C9. Two handles compare equal exactly when their addresses are equal, and
    the blocks play no part: handles on one block compare as their addresses
    do, and handles on any two blocks with one address compare equal.  A
    handle compares equal to the null constant exactly when its address is
    null. *)
Theorem operator_eq_compares_addresses :
  (∀ t y : handle,
     shared_ptr.operator_eq t y = true ↔ shared_ptr.get t = shared_ptr.get y)
  ∧ (∀ (b : option loc) (p q : addr),
       shared_ptr.operator_eq (mk_handle b p) (mk_handle b q)
       = bool_decide (p = q))
  ∧ (∀ (b1 b2 : option loc) (p : addr),
       shared_ptr.operator_eq (mk_handle b1 p) (mk_handle b2 p) = true)
  ∧ (∀ t : handle,
       shared_ptr.operator_eq_nullptr t = true ↔ shared_ptr.get t = nullptr)
  ∧ (∀ t y : handle,
       shared_ptr.operator_ne t y = true ↔ shared_ptr.get t ≠ shared_ptr.get y).
Proof.
  unfold shared_ptr.operator_ne, shared_ptr.operator_eq,
    shared_ptr.operator_eq_nullptr, shared_ptr.get.
  repeat split; intros.
  - by apply Z.eqb_eq.
  - by apply Z.eqb_eq.
  - simpl. destruct (Z.eqb_spec p q);
      [by rewrite bool_decide_true | by rewrite bool_decide_false].
  - simpl. apply Z.eqb_refl.
  - by apply Z.eqb_eq.
  - by apply Z.eqb_eq.
  - destruct (Z.eqb_spec (ptr t) (ptr y)); naive_solver.
  - destruct (Z.eqb_spec (ptr t) (ptr y)); naive_solver.
Qed.

(** ** Aliasing an empty handle *)

(** C10. The aliasing constructor applied to a handle that holds no block and
    to an address [a] returns the handle [(null, a)] and changes nothing: no
    count is touched.  The result reports the address [a] and zero owners. *)
Theorem alias_of_empty_handle (w : world) (s : name) (h : handle) (a : addr) :
  shared w !! s = Some h →
  block h = None →
  shared_ptr.ctor_alias s a w = Ok (mk_handle None a) w
  ∧ block (mk_handle None a) = None
  ∧ shared_ptr.get (mk_handle None a) = a
  ∧ shared_ptr.use_count (mk_handle None a) w = Ok 0 w.
Proof.
  intros Hs Hb. repeat split.
  unfold shared_ptr.ctor_alias, shared_ptr.field. apply noexcept_Ok.
  unfold mbind, M_bind. by rewrite Hs, Hb.
Qed.

Lemma alias_of_empty_handle_witness :
  shared_ptr.ctor_alias 0 77 w_empty_handle = Ok (mk_handle None 77) w_empty_handle
  ∧ block (mk_handle None 77) = None
  ∧ shared_ptr.get (mk_handle None 77) = 77
  ∧ shared_ptr.use_count (mk_handle None 77) w_empty_handle = Ok 0 w_empty_handle.
Proof.
  apply (alias_of_empty_handle w_empty_handle 0 (mk_handle None nullptr) 77);
    reflexivity.
Defined.

(** * Further properties of the code *)

(** ** Consistency of the counts with the handles *)

(** X3. A statement over named handles that is ready in a consistent world
    and returns leaves a consistent world: every allocated block counts
    exactly the shared and the weak handles that hold it and is held by one
    at least, and no handle holds a block that is not allocated.  This covers
    every constructor, assignment, [reset], destructor and [lock]. *)
Theorem statements_keep_worlds_consistent (c : call) (w w' : world) :
  consistent w → ready c w = true → exec c w = Ok tt w' → consistent w'.
Proof.
  intros Hcons Hready Hrun. pose proof (exec_safe c w Hcons Hready) as Hsafe.
  by rewrite Hrun in Hsafe.
Qed.

Lemma statements_keep_worlds_consistent_witness :
  ready (shared_end 1) w_aliased = true
  ∧ exec (shared_end 1) w_aliased
    = Ok tt
        (mk_world
           {[ 1%positive := mk_control_block 1 2 (default_control_block 10) ]}
           {[ 0%nat := mk_handle (Some 1%positive) 10 ]}
           {[ 0%nat := mk_handle (Some 1%positive) 10;
              1%nat := mk_handle (Some 1%positive) 20 ]}
           0 [Dec 1%positive])
  ∧ consistent
      (mk_world
         {[ 1%positive := mk_control_block 1 2 (default_control_block 10) ]}
         {[ 0%nat := mk_handle (Some 1%positive) 10 ]}
         {[ 0%nat := mk_handle (Some 1%positive) 10;
            1%nat := mk_handle (Some 1%positive) 20 ]}
         0 [Dec 1%positive]).
Proof.
  split; [reflexivity|]. split; [reflexivity|].
  apply (statements_keep_worlds_consistent (shared_end 1) w_aliased).
  - apply consistent_w_aliased.
  - reflexivity.
  - reflexivity.
Defined.

(** X4. Where no managed value has a handle among its members, so that the
    disposal of a value ends no handle and releases no block, a statement
    that is ready in a consistent world runs to its end with the disposal
    followed, it has no undefined behaviour, and it terminates the program
    only if it is the construction of a [shared_ptr] from a raw pointer
    alone. *)
Theorem statements_are_defined (members : addr → list member)
    (deletes : deleter → bool) (depth : nat) (c : call) (w : world) :
  (∀ obj, members obj = []) → consistent w → ready c w = true →
  ∃ r : outcome unit,
    nested.exec members deletes (S depth) c w = Some r
    ∧ r ≠ UB
    ∧ (r = Terminate → ∃ x p, c = shared_from_ptr x p).
Proof.
  intros Hnone Hcons Hready.
  pose proof (exec_safe c w Hcons Hready) as Hsafe.
  exists (exec c w). split; [by apply exec_inert|]. split.
  - intros Hub. by rewrite Hub in Hsafe.
  - intros Ht. by rewrite Ht in Hsafe.
Qed.

Lemma statements_are_defined_witness :
  ∃ r : outcome unit,
    nested.exec no_members deleting 1 (shared_move_assign 0 1) w_aliased
    = Some r
    ∧ r ≠ UB
    ∧ (r = Terminate → ∃ x p, shared_move_assign 0 1 = shared_from_ptr x p).
Proof.
  apply (statements_are_defined no_members deleting 0
           (shared_move_assign 0 1) w_aliased).
  - done.
  - apply consistent_w_aliased.
  - reflexivity.
Defined.

(** X5. A statement that is ready in a consistent world and leaves by an
    exception leaves a consistent world too, unless it is [reset(p)]. *)
Theorem failed_statements_keep_worlds_consistent (c : call) (w w' : world) :
  consistent w → ready c w = true → exec c w = Throw w' →
  (∀ x p, c ≠ shared_reset_ptr x p) →
  consistent w'.
Proof.
  intros Hcons Hready Hrun Hc. pose proof (exec_safe c w Hcons Hready) as Hsafe.
  rewrite Hrun in Hsafe. by apply Hsafe.
Qed.

Lemma failed_statements_keep_worlds_consistent_witness :
  ready (shared_reset_ptr_deleter 0 30 5) w_aliased = true
  ∧ exec (shared_reset_ptr_deleter 0 30 5) w_aliased
    = Throw
        (mk_world
           {[ 1%positive := mk_control_block 1 2 (default_control_block 10) ]}
           {[ 0%nat := mk_handle None nullptr;
              1%nat := mk_handle (Some 1%positive) 20 ]}
           {[ 0%nat := mk_handle (Some 1%positive) 10;
              1%nat := mk_handle (Some 1%positive) 20 ]}
           0 [Dec 1%positive; CallDeleter 5 30])
  ∧ consistent
      (mk_world
         {[ 1%positive := mk_control_block 1 2 (default_control_block 10) ]}
         {[ 0%nat := mk_handle None nullptr;
            1%nat := mk_handle (Some 1%positive) 20 ]}
         {[ 0%nat := mk_handle (Some 1%positive) 10;
            1%nat := mk_handle (Some 1%positive) 20 ]}
         0 [Dec 1%positive; CallDeleter 5 30]).
Proof.
  split; [reflexivity|]. split; [reflexivity|].
  apply (failed_statements_keep_worlds_consistent
           (shared_reset_ptr_deleter 0 30 5) w_aliased).
  - apply consistent_w_aliased.
  - reflexivity.
  - reflexivity.
  - intros x p. discriminate.
Defined.

(** X6. A program whose statements are all ready, started with nothing
    allocated and no handle: when every statement has returned, the world is
    consistent.  Nothing is said of a program that an exception leaves. *)
Theorem programs_keep_worlds_consistent (cs : list call) (n : nat)
    (w' : world) :
  all_ready cs (w_init n) = true →
  exec_all cs (w_init n) = Ok tt w' →
  consistent w'.
Proof.
  intros Hready Hrun.
  pose proof (exec_all_safe cs (w_init n) (consistent_init n) Hready) as Hsafe.
  by rewrite Hrun in Hsafe.
Qed.

Lemma programs_keep_worlds_consistent_witness :
  all_ready program_aliased (w_init 3) = true
  ∧ exec_all program_aliased (w_init 3)
    = Ok tt
        (set_trace (λ _, [Inc 1%positive; Winc 1%positive; Winc 1%positive])
           (set_avail 2 w_aliased))
  ∧ consistent
      (set_trace (λ _, [Inc 1%positive; Winc 1%positive; Winc 1%positive])
         (set_avail 2 w_aliased)).
Proof.
  split; [reflexivity|]. split; [reflexivity|].
  apply (programs_keep_worlds_consistent program_aliased 3); reflexivity.
Defined.

(** X7. No leak: when such a program has returned and no handle is left, no
    control block is left either. *)
Theorem programs_do_not_leak (cs : list call) (n : nat) (w' : world) :
  all_ready cs (w_init n) = true →
  exec_all cs (w_init n) = Ok tt w' →
  shared w' = ∅ → weak w' = ∅ →
  heap w' = ∅.
Proof.
  intros Hready Hrun.
  pose proof (exec_all_safe cs (w_init n) (consistent_init n) Hready) as Hsafe.
  rewrite Hrun in Hsafe. by apply consistent_no_leak.
Qed.

Lemma programs_do_not_leak_witness :
  all_ready program_make_shared_weak_ptr (w_init 3) = true
  ∧ exec_all program_make_shared_weak_ptr (w_init 3)
    = Ok tt
        (mk_world ∅ ∅ ∅ 2
           [Inc 1%positive; Winc 1%positive;
            Dec 1%positive; Dec 1%positive; Destroy 1%positive; Dtor 1;
            Wdec 1%positive; DeleteThis 1%positive])
  ∧ heap (mk_world ∅ ∅ ∅ 2
            [Inc 1%positive; Winc 1%positive;
             Dec 1%positive; Dec 1%positive; Destroy 1%positive; Dtor 1;
             Wdec 1%positive; DeleteThis 1%positive]) = ∅.
Proof.
  split; [reflexivity|]. split; [reflexivity|].
  apply (programs_do_not_leak program_make_shared_weak_ptr 3); reflexivity.
Defined.

(** X8. In the world such a program ends in, [use_count] of a live
    [shared_ptr] is the number of live [shared_ptr] objects that hold the
    same block, and 0 for a handle without a block. *)
Theorem use_count_counts_owners (cs : list call) (n : nat) (w' : world)
    (x : name) (h : handle) :
  all_ready cs (w_init n) = true →
  exec_all cs (w_init n) = Ok tt w' →
  shared w' !! x = Some h →
  shared_ptr.use_count h w' = Ok (owners w' h) w'.
Proof.
  intros Hready Hrun.
  pose proof (exec_all_safe cs (w_init n) (consistent_init n) Hready) as Hsafe.
  rewrite Hrun in Hsafe. by apply consistent_use_count.
Qed.

Lemma use_count_counts_owners_witness :
  owners (set_trace (λ _, [Inc 1%positive; Winc 1%positive; Winc 1%positive])
            (set_avail 2 w_aliased))
         (mk_handle (Some 1%positive) 20) = 2
  ∧ shared_ptr.use_count (mk_handle (Some 1%positive) 20)
      (set_trace (λ _, [Inc 1%positive; Winc 1%positive; Winc 1%positive])
         (set_avail 2 w_aliased))
    = Ok (owners (set_trace (λ _, [Inc 1%positive; Winc 1%positive;
                                   Winc 1%positive])
                    (set_avail 2 w_aliased))
                 (mk_handle (Some 1%positive) 20))
         (set_trace (λ _, [Inc 1%positive; Winc 1%positive; Winc 1%positive])
            (set_avail 2 w_aliased)).
Proof.
  split; [reflexivity|].
  apply (use_count_counts_owners program_aliased 3 _ 1); reflexivity.
Defined.

(** ** Destruction *)

(** X9. The destructor of a [shared_ptr] without a block only ends the
    handle.  The destructor of an owner decrements the strong count.  When
    it was the last owner it disposes of the managed value, once, by the
    means of the block's variant, also while weak handles still hold the
    block; and where that value has no handle among its members, so that its
    disposal releases nothing, the destructor returns and has deallocated
    the block exactly if no weak handle holds it. *)
Theorem shared_destructor_releases (members : addr → list member)
    (deletes : deleter → bool) (depth : nat) (w : world) (x : name)
    (h : handle) :
  shared w !! x = Some h →
  (block h = None →
   nested.dtor members deletes depth x w
   = Some (Ok tt (set_shared (delete x) w)))
  ∧ (∀ (b : loc) (cb : control_block),
       block h = Some b → heap w !! b = Some cb → 0 < ref cb ≤ SIZE_MAX →
       (ref cb = 1 →
        ∀ obj, managed_value deletes b (derived cb) = Some obj →
               members obj = []) →
       ∃ w' : world,
         nested.dtor members deletes (S depth) x w = Some (Ok tt w')
         ∧ shared w' = delete x (shared w) ∧ weak w' = weak w
         ∧ (1 < ref cb →
              heap w' = <[ b := set_ref (ref cb - 1) cb ]> (heap w)
              ∧ trace w' = trace w ++ [Dec b])
         ∧ (ref cb = 1 → wref cb ≠ 0 →
              heap w' = <[ b := set_ref 0 cb ]> (heap w)
              ∧ trace w'
                = trace w ++ Dec b :: Destroy b :: disposal b (derived cb))
         ∧ (ref cb = 1 → wref cb = 0 →
              heap w' = delete b (heap w)
              ∧ trace w'
                = trace w ++ Dec b :: Destroy b :: disposal b (derived cb)
                    ++ [DeleteThis b])).
Proof.
  intros Hx. split; [by apply dtor_empty|].
  intros b cb Hb Hcb Hr Hnone. eexists. split.
  - rewrite (dtor_owner_inert members deletes depth x h b cb w); try done.
    f_equal. by eapply sp_dtor_Ok.
  - simpl. unfold heap_dec, trace_dec.
    repeat split; try done; intros; repeat case_decide; try lia; try done.
    by rewrite app_nil_r.
Qed.

Lemma shared_destructor_releases_witness :
  (∃ w' : world,
     nested.dtor no_members deleting 1 1 w_aliased = Some (Ok tt w')
     ∧ shared w' = delete 1%nat (shared w_aliased)
     ∧ heap w'
       = {[ 1%positive := mk_control_block 1 2 (default_control_block 10) ]}
     ∧ trace w' = [Dec 1%positive])
  ∧ (∃ w' : world,
     nested.dtor no_members deleting 1 0 w_sole_owner = Some (Ok tt w')
     ∧ shared w' = ∅ ∧ heap w' = ∅
     ∧ trace w'
       = [Dec 1%positive; Destroy 1%positive; DeleteObj 10;
          DeleteThis 1%positive]).
Proof.
  split.
  - destruct (proj2 (shared_destructor_releases no_members deleting 0
                       w_aliased 1
                       (mk_handle (Some 1%positive) 20) eq_refl)
                1%positive (mk_control_block 2 2 (default_control_block 10))
                eq_refl eq_refl)
      as (w' & Hrun & Hs & _ & Hmore & _).
    { split; by vm_compute. }
    { done. }
    exists w'. destruct Hmore as [Hh Ht]; [by vm_compute|].
    repeat split; try done.
  - destruct (proj2 (shared_destructor_releases no_members deleting 0
                       w_sole_owner 0
                       (mk_handle (Some 1%positive) 10) eq_refl)
                1%positive (mk_control_block 1 0 (default_control_block 10))
                eq_refl eq_refl)
      as (w' & Hrun & Hs & _ & _ & _ & Hlast).
    { split; by vm_compute. }
    { done. }
    exists w'. destruct Hlast as [Hh Ht]; [done..|].
    repeat split; try done.
Defined.



(** ** Round trips *)



(** X12. Copying an owner and destroying the copy at once gives back the
    world: the strong count went up by one and came down again, and nothing
    was disposed of. *)
Theorem copy_then_destroy (w : world) (x r : name) (hr : handle) (b : loc)
    (cb : control_block) :
  shared w !! x = None → shared w !! r = Some hr → block hr = Some b →
  heap w !! b = Some cb → 0 < ref cb < SIZE_MAX →
  (shared_ptr.declare x (shared_ptr.ctor_copy r);; shared_ptr.dtor x) w
  = Ok tt (set_trace (λ t, t ++ [Inc b; Dec b]) w).
Proof.
  intros Hx Hr Hb Hcb Hrange. unfold shared_ptr.declare.
  rewrite (bind_Ok _ _ w
             (set_shared (insert x (mk_handle (Some b) (ptr hr)))
                (set_trace (λ t, t ++ [Inc b])
                   (set_heap (insert b (set_ref (ref cb + 1) cb)) w))) tt).
  - erewrite sp_dtor_Ok;
      [|simpl; apply lookup_insert_eq|done|simpl; apply lookup_insert_eq
       |simpl; lia].
    f_equal. destruct w as [H S W a t]. simpl in *.
    apply world_eq; try done; simpl.
    + unfold heap_dec. simpl. rewrite decide_False by lia.
      replace (ref cb + 1 - 1) with (ref cb) by lia.
      rewrite set_ref_twice, set_ref_ref, insert_insert_eq.
      by apply insert_id.
    + by rewrite delete_insert_id.
    + unfold trace_dec. simpl. rewrite decide_False by lia.
      by rewrite <- app_assoc.
  - by rewrite (bind_Ok _ _ _ _ _
                  (sp_ctor_copy_Ok r hr b cb w Hr Hb Hcb ltac:(lia))).
Qed.

Lemma copy_then_destroy_witness :
  (shared_ptr.declare 2 (shared_ptr.ctor_copy 1);; shared_ptr.dtor 2) w_aliased
  = Ok tt (set_trace (λ t, t ++ [Inc 1%positive; Dec 1%positive]) w_aliased).
Proof.
  apply (copy_then_destroy w_aliased 2 1 (mk_handle (Some 1%positive) 20)
           1%positive (mk_control_block 2 2 (default_control_block 10)));
    try reflexivity.
  split; by vm_compute.
Defined.

(** X13. A [weak_ptr] made from an owner and locked at once gives a handle
    on the owner's block with the owner's address, so that the two compare
    equal, and the block counts one owner and one observer more. *)
Theorem lock_of_weak_of_shared (w : world) (t : name) (ht : handle) (b : loc)
    (cb : control_block) :
  shared w !! t = Some ht → block ht = Some b → heap w !! b = Some cb →
  0 < ref cb < SIZE_MAX → 0 ≤ wref cb < SIZE_MAX →
  ∃ w' : world,
    (q ← weak_ptr.ctor_shared t; weak_ptr.lock q) w
    = Ok (mk_handle (Some b) (ptr ht)) w'
    ∧ shared_ptr.operator_eq (mk_handle (Some b) (ptr ht)) ht = true
    ∧ heap w'
      = <[ b := mk_control_block (ref cb + 1) (wref cb + 1) (derived cb) ]>
          (heap w)
    ∧ shared w' = shared w ∧ weak w' = weak w
    ∧ trace w' = trace w ++ [Winc b; Inc b].
Proof.
  intros Ht Hb Hcb Hr Hw. eexists. split; [|split].
  - rewrite (bind_Ok _ _ _ _ _ (wp_ctor_shared_Ok t ht b cb w Ht Hb Hcb Hw)).
    apply (wp_lock_live (mk_handle (Some b) (ptr ht)) b
             (set_wref (wref cb + 1) cb));
      [done | simpl; apply lookup_insert_eq | done].
  - unfold shared_ptr.operator_eq, shared_ptr.get. simpl. apply Z.eqb_refl.
  - simpl. rewrite insert_insert_eq, <- app_assoc. done.
Qed.

Lemma lock_of_weak_of_shared_witness :
  ∃ w' : world,
    (q ← weak_ptr.ctor_shared 1; weak_ptr.lock q) w_aliased
    = Ok (mk_handle (Some 1%positive) 20) w'
    ∧ shared_ptr.operator_eq (mk_handle (Some 1%positive) 20)
        (mk_handle (Some 1%positive) 20) = true
    ∧ heap w'
      = <[ 1%positive := mk_control_block 3 3 (default_control_block 10) ]>
          (heap w_aliased)
    ∧ shared w' = shared w_aliased ∧ weak w' = weak w_aliased
    ∧ trace w' = trace w_aliased ++ [Winc 1%positive; Inc 1%positive].
Proof.
  apply (lock_of_weak_of_shared w_aliased 1 (mk_handle (Some 1%positive) 20)
           1%positive (mk_control_block 2 2 (default_control_block 10)));
    try reflexivity; split; by vm_compute.
Defined.

(** ** How the operations compose *)

(** X14. Move construction followed by the end of the source is a renaming:
    the new handle has the members of the source, and neither the blocks nor
    the record of events change. *)
Theorem move_then_destroy_source (w : world) (x r : name) (hr : handle) :
  shared w !! r = Some hr → shared w !! x = None →
  (shared_ptr.declare x (shared_ptr.ctor_move r);; shared_ptr.dtor r) w
  = Ok tt (set_shared (λ S, <[ x := hr ]> (delete r S)) w).
Proof.
  intros Hr Hx. assert (x ≠ r) as Hne by congruence.
  rewrite (bind_Ok _ _ _ _ _
             (sp_declare_Ok x _ _ _ _ (sp_ctor_move_Ok r hr w Hr))).
  erewrite sp_dtor_empty;
    [|simpl; rewrite lookup_insert_ne, lookup_insert_eq by done; done|done].
  f_equal. destruct w as [H S W a t]. simpl in *.
  apply world_eq; try done. simpl.
  rewrite delete_insert_ne, delete_insert_eq by done.
  by destruct hr.
Qed.

Lemma move_then_destroy_source_witness :
  (shared_ptr.declare 2 (shared_ptr.ctor_move 1);; shared_ptr.dtor 1) w_aliased
  = Ok tt (set_shared
             (λ S, <[ 2%nat := mk_handle (Some 1%positive) 20 ]> (delete 1%nat S))
             w_aliased).
Proof.
  apply (move_then_destroy_source w_aliased 2 1
           (mk_handle (Some 1%positive) 20)); reflexivity.
Defined.

(** X15. Move assignment between handles on different blocks is the
    destruction of the destination followed by its move construction from
    the source, whatever the outcome of the release. *)
Theorem move_assign_is_destroy_then_move (w : world) (x r : name)
    (hx hr : handle) :
  shared w !! x = Some hx → shared w !! r = Some hr → block hx ≠ block hr →
  shared_ptr.assign_move x r w
  = (shared_ptr.dtor x;; shared_ptr.declare x (shared_ptr.ctor_move r)) w.
Proof.
  intros Hx Hr Hne. assert (x ≠ r) as Hxr by congruence.
  unfold shared_ptr.assign_move. run_bind. run_bind.
  rewrite decide_False by done.
  unfold shared_ptr.declare. apply after_dec. intros w1 h Hdec _.
  destruct (sp_dec_frame _ _ _ Hdec) as (Hs & _ & _).
  rewrite <- Hs in Hx, Hr. clear Hdec Hs w.
  etrans; [|symmetry].
  - run_bind. run_bind. run_bind. run_bind. run_bind.
    eapply sp_set_ptr_Ok. solve_lookup.
  - rewrite (bind_Ok _ _ _ _ _ (sp_forget_Ok x w1)).
    rewrite (bind_Ok _ _ _ _ _
               (sp_ctor_move_Ok r hr (set_shared (delete x) w1)
                  ltac:(by simpl; rewrite lookup_delete_ne))).
    unfold modify. f_equal. destruct w1 as [H S W a t]. simpl in *.
    apply world_eq; try done. simpl.
    rewrite !insert_insert_eq.
    rewrite (insert_insert_ne _ x r) by done.
    by rewrite insert_delete_eq.
Qed.

Lemma move_assign_is_destroy_then_move_witness :
  shared_ptr.assign_move 0 1 w_two_blocks
  = (shared_ptr.dtor 0;; shared_ptr.declare 0 (shared_ptr.ctor_move 1))
      w_two_blocks.
Proof.
  apply (move_assign_is_destroy_then_move w_two_blocks 0 1
           (mk_handle (Some 1%positive) 10) (mk_handle (Some 2%positive) 20));
    by vm_compute.
Defined.

(** X16. [reset()] is the destruction of the handle followed by its default
    construction under the same name, whatever the outcome of the release. *)
Theorem reset_is_destroy_then_default (w : world) (x : name) :
  shared_ptr.reset x w
  = (shared_ptr.dtor x;; shared_ptr.declare x shared_ptr.ctor_default) w.
Proof.
  unfold shared_ptr.reset, shared_ptr.declare. apply after_dec.
  intros w1 h _ Hx.
  etrans; [|symmetry].
  - run_bind. eapply sp_set_ptr_Ok. solve_lookup.
  - rewrite (bind_Ok _ _ _ _ _ (sp_forget_Ok x w1)).
    unfold shared_ptr.ctor_default, noexcept, modify, mbind, M_bind, mret,
      M_ret.
    simpl. f_equal. destruct w1 as [H S W a t]. simpl in *.
    apply world_eq; try done. simpl.
    by rewrite insert_insert_eq, insert_delete_eq.
Qed.

(** X17. When the allocation succeeds, [reset(p)] and [reset(p, d)] are the
    destruction of the handle followed by its construction from [p], and
    from [p] and [d], under the same name; in particular the old block is
    released before the new one is allocated. *)
Theorem reset_ptr_is_destroy_then_construct (w : world) (x : name) (p : addr)
    (d : deleter) (n : nat) :
  avail w = S n →
  shared_ptr.reset_ptr x p w
  = (shared_ptr.dtor x;; shared_ptr.declare x (shared_ptr.ctor_ptr p)) w
  ∧ shared_ptr.reset_ptr_deleter x p d w
    = (shared_ptr.dtor x;;
       shared_ptr.declare x (shared_ptr.ctor_ptr_deleter p d)) w.
Proof.
  intros Hn. split.
  - unfold shared_ptr.reset_ptr, shared_ptr.declare. apply after_dec.
    intros w1 h Hdec Hx.
    destruct (sp_dec_frame _ _ _ Hdec) as (_ & _ & Ha). rewrite Hn in Ha.
    clear Hdec.
    rewrite (bind_Ok _ _ _ _ _ (sp_forget_Ok x w1)).
    unfold shared_ptr.ctor_ptr, noexcept, operator_new, modify,
      shared_ptr.set_block, shared_ptr.set_ptr, mbind, M_bind, mret, M_ret.
    repeat first [ rewrite lookup_insert_eq | rewrite Ha | rewrite Hx
                 | progress simpl ].
    f_equal. destruct w1 as [H S W a t]. simpl in *.
    apply world_eq; try done. simpl.
    by rewrite insert_insert_eq, insert_delete_eq.
  - unfold shared_ptr.reset_ptr_deleter, shared_ptr.declare. apply after_dec.
    intros w1 h Hdec Hx.
    destruct (sp_dec_frame _ _ _ Hdec) as (_ & _ & Ha). rewrite Hn in Ha.
    clear Hdec.
    rewrite (bind_Ok _ _ _ _ _ (sp_forget_Ok x w1)).
    unfold shared_ptr.ctor_ptr_deleter, try_catch, operator_new, modify,
      shared_ptr.set_block, shared_ptr.set_ptr, mbind, M_bind, mret, M_ret.
    repeat first [ rewrite lookup_insert_eq | rewrite Ha | rewrite Hx
                 | progress simpl ].
    f_equal. destruct w1 as [H S W a t]. simpl in *.
    apply world_eq; try done. simpl.
    by rewrite !insert_insert_eq, insert_delete_eq.
Qed.

Lemma reset_ptr_is_destroy_then_construct_witness :
  shared_ptr.reset_ptr 0 30 w_two_blocks
  = (shared_ptr.dtor 0;; shared_ptr.declare 0 (shared_ptr.ctor_ptr 30))
      w_two_blocks
  ∧ shared_ptr.reset_ptr_deleter 0 30 5 w_two_blocks
    = (shared_ptr.dtor 0;;
       shared_ptr.declare 0 (shared_ptr.ctor_ptr_deleter 30 5)) w_two_blocks.
Proof.
  apply (reset_ptr_is_destroy_then_construct w_two_blocks 0 30 5 0).
  reflexivity.
Defined.



(** ** Managed values that hold handles *)

(** X19. Move assignment from a handle that is a member of the value that
    the destination alone owns, as [p = std::move(p->next)] on the last node
    of a list: [dec] disposes of the node, whose destructor ends the source,
    and [assign] goes on to read and to write the source.  That is undefined
    behaviour. *)
Theorem move_assign_from_member_of_owned_value (members : addr → list member)
    (deletes : deleter → bool) (depth : nat) (w : world) (x r : name)
    (hx hr : handle) (b : loc) (cb : control_block) (obj : addr) :
  shared w !! x = Some hx → block hx = Some b →
  heap w !! b = Some cb → ref cb = 1 →
  managed_value deletes b (derived cb) = Some obj →
  members obj = [shared_member r] →
  shared w !! r = Some hr → block hr = None →
  (∃ w1 : world,
     nested.shared_dec members deletes (S depth) x w = Some (Ok tt w1)
     ∧ shared w1 !! r = None)
  ∧ nested.assign_move members deletes (S depth) x r w = Some UB.
Proof.
  intros Hx Hbx Hb Href Hobj Hms Hr Hhr.
  destruct (dec_ends_member members deletes depth w b cb obj r hr)
    as (w1 & Hdec & Hs); try done.
  assert (nested.shared_dec members deletes (S depth) x w = Some (Ok tt w1))
    as Hsdec.
  { unfold nested.shared_dec, nested.handle_dec.
    rewrite (nbind_Ok _ _ w w (Some b)); [done|].
    unfold lift, shared_ptr.field. by rewrite Hx, Hbx. }
  assert (shared w1 !! r = None) as Hgone
    by (rewrite Hs; apply lookup_delete_eq).
  split; [by exists w1|].
  unfold nested.assign_move.
  rewrite (nbind_Ok _ _ w w (Some b))
    by (unfold lift, shared_ptr.field; by rewrite Hx, Hbx).
  rewrite (nbind_Ok _ _ w w None)
    by (unfold lift, shared_ptr.field; by rewrite Hr, Hhr).
  rewrite decide_False by done.
  rewrite (nbind_Ok _ _ _ _ _ Hsdec).
  apply nbind_UB. unfold lift, shared_ptr.field. by rewrite Hgone.
Qed.

(** A list of one node: [p = std::move(p->next)]. *)
Lemma move_assign_from_member_of_owned_value_witness :
  (∃ w1 : world,
     nested.shared_dec list_node deleting 1 0 w_list = Some (Ok tt w1)
     ∧ shared w1 !! 1%nat = None)
  ∧ nested.assign_move list_node deleting 1 0 1 w_list = Some UB.
Proof.
  apply (move_assign_from_member_of_owned_value list_node deleting 0 w_list
           0 1 (mk_handle (Some 1%positive) 10) (mk_handle None nullptr)
           1%positive (control_block.init (default_control_block 10)) 10);
    reflexivity.
Defined.

(** X20. The life of a block whose managed value has no handle among its
    members.  Take the block just created, with the strong count at 1 and the
    weak count at 0, and any sequence of the counting operations in which
    each is permitted where it runs: a strong increment or decrement only
    while the strong count is above 0, a weak decrement only while the weak
    count is above 0, no overflow, nothing after the operation that leaves
    both counts at 0.  Then every operation returns, and

    - the managed value has been disposed of once if the block is no longer
      live and not at all if it is; the storage has been given back once if
      the block is gone and not at all otherwise;
    - each single operation disposes of the value exactly when it takes the
      strong count from 1 to 0, whatever the weak count, gives back the
      storage exactly when it leaves both counts at 0, and never makes a
      block live that was not. *)
Theorem block_life_in_domain (members : addr → list member)
    (deletes : deleter → bool) (depth : nat) (b : loc) (v : variant)
    (ops : list op) (w : world) :
  heap w !! b = Some (control_block.init v) →
  (∀ obj, managed_value deletes b v = Some obj → members obj = []) →
  in_domain ops (control_block.init v) = true →
  ∃ w' : world,
    nested.run members deletes (S depth) b ops w = Some (Ok tt w')
    ∧ destroyed b w' = (destroyed b w + dead b w')%nat
    ∧ freed b w' = (freed b w + gone b w')%nat
    ∧ ∀ (pre : list op) (o : op) (post : list op),
        ops = pre ++ o :: post →
        ∃ (w1 w2 : world) (cb : control_block),
          nested.run members deletes (S depth) b pre w = Some (Ok tt w1)
          ∧ heap w1 !! b = Some cb
          ∧ nested.apply_op members deletes (S depth) b o w1
            = Some (Ok tt w2)
          ∧ instant b o cb w1 w2.
Proof.
  intros Hb Hnone Hdom.
  assert (in_use (control_block.init v)) as Huse.
  { unfold in_use. simpl. pose proof SIZE_MAX_pos. lia. }
  destruct (run_in_domain members deletes depth b ops w _ Hb Huse Hnone Hdom)
    as (w' & Hrun & Hd & Hf & Hsteps).
  exists w'. repeat split; try done.
  - unfold dead, gone, liveness_of in *. rewrite Hb in *. simpl in *. lia.
  - unfold dead, gone, liveness_of in *. rewrite Hb in *. simpl in *. lia.
Qed.

(** A weak handle is made, the owner is copied, both owners and then the
    observer go away. *)
Lemma block_life_in_domain_witness :
  ∃ w' : world,
    nested.run no_members deleting 1 1
      [op_winc; op_inc; op_dec; op_dec; op_wdec] w_created
    = Some (Ok tt w')
    ∧ destroyed 1 w' = (destroyed 1 w_created + dead 1 w')%nat
    ∧ freed 1 w' = (freed 1 w_created + gone 1 w')%nat
    ∧ ∀ (pre : list op) (o : op) (post : list op),
        [op_winc; op_inc; op_dec; op_dec; op_wdec] = pre ++ o :: post →
        ∃ (w1 w2 : world) (cb : control_block),
          nested.run no_members deleting 1 1 pre w_created = Some (Ok tt w1)
          ∧ heap w1 !! 1%positive = Some cb
          ∧ nested.apply_op no_members deleting 1 1 o w1 = Some (Ok tt w2)
          ∧ instant 1 o cb w1 w2.
Proof.
  apply (block_life_in_domain no_members deleting 0 1
           (default_control_block 10)
           [op_winc; op_inc; op_dec; op_dec; op_wdec] w_created).
  - reflexivity.
  - done.
  - vm_compute; reflexivity.
Defined.

(** X21. The destructor of the last owner of a node whose member [next] is
    the last owner of the next node, which holds no handle: the next node is
    released inside the disposal of the first, its block is given back
    before the block of the first, and both handles are gone.  This takes
    two levels of [dec], one inside the other. *)
Theorem destructor_releases_next_node (members : addr → list member)
    (deletes : deleter → bool) (depth : nat) (w : world) (x r : name)
    (hx hr : handle) (b1 b2 : loc) (cb1 cb2 : control_block) (obj1 : addr) :
  shared w !! x = Some hx → block hx = Some b1 →
  shared w !! r = Some hr → block hr = Some b2 → b1 ≠ b2 →
  heap w !! b1 = Some cb1 → ref cb1 = 1 → wref cb1 = 0 →
  heap w !! b2 = Some cb2 → ref cb2 = 1 → wref cb2 = 0 →
  managed_value deletes b1 (derived cb1) = Some obj1 →
  members obj1 = [shared_member r] →
  (∀ obj, managed_value deletes b2 (derived cb2) = Some obj →
          members obj = []) →
  nested.dtor members deletes (S (S depth)) x w
  = Some (Ok tt
            (mk_world (delete b1 (delete b2 (heap w)))
               (delete x (delete r (shared w))) (weak w) (avail w)
               (trace w
                  ++ Dec b1 :: Destroy b1 :: disposal b1 (derived cb1)
                  ++ Dec b2 :: Destroy b2 :: disposal b2 (derived cb2)
                  ++ [DeleteThis b2; DeleteThis b1])))
  ∧ nested.dtor members deletes 1 x w = None.
Proof.
  intros Hx Hbx Hr Hbr Hne Hb1 Hr1 Hw1 Hb2 Hr2 Hw2 Hobj Hms Hnone.
  destruct (dec_cascade members deletes depth w r hr b1 b2 cb1 cb2 obj1)
    as [Hdeep Hshallow]; try done.
  unfold nested.dtor, nested.handle_dtor, nested.handle_dec.
  split.
  - rewrite (nbind_Ok _ _ w
               (mk_world (delete b1 (delete b2 (heap w)))
                  (delete r (shared w)) (weak w) (avail w)
                  (trace w
                     ++ Dec b1 :: Destroy b1 :: disposal b1 (derived cb1)
                     ++ Dec b2 :: Destroy b2 :: disposal b2 (derived cb2)
                     ++ [DeleteThis b2; DeleteThis b1])) tt); [done|].
    rewrite (nbind_Ok _ _ w w (Some b1))
      by (unfold lift, shared_ptr.field; by rewrite Hx, Hbx).
    exact Hdeep.
  - unfold mbind at 1. unfold N_bind.
    rewrite (nbind_Ok _ _ w w (Some b1))
      by (unfold lift, shared_ptr.field; by rewrite Hx, Hbx).
    by rewrite Hshallow.
Qed.

(** A list of two nodes: the node at address 10 holds the [shared_ptr] 1 to
    the node at address 20. *)
Lemma destructor_releases_next_node_witness :
  nested.dtor list_node deleting 2 0 w_two_blocks
  = Some (Ok tt
            (mk_world ∅ ∅ ∅ 1
               [Dec 1%positive; Destroy 1%positive; DeleteObj 10;
                Dec 2%positive; Destroy 2%positive; CallDeleter 5 20;
                DeleteThis 2%positive; DeleteThis 1%positive]))
  ∧ nested.dtor list_node deleting 1 0 w_two_blocks = None.
Proof.
  apply (destructor_releases_next_node list_node deleting 0 w_two_blocks
           0 1 (mk_handle (Some 1%positive) 10)
           (mk_handle (Some 2%positive) 20) 1%positive 2%positive
           (control_block.init (default_control_block 10))
           (control_block.init (regular_control_block 20 5)) 10);
    try reflexivity; try done.
  intros obj Hobj. vm_compute in Hobj. injection Hobj as <-. reflexivity.
Defined.
